(** * Full-node protocol orchestration of tad-blockchain: model and properties

    Shallow embedding of the parts of [tad/full_node/full_node_api.py] and
    [tad/types/mempool_item.py] that the specification talks about:
    the fee ranking of mempool items, the transaction gossip handlers with
    their fetch-retry task, the sub-slot backfill loop, the candidate block
    assembly of [declare_proof_of_space] with [signed_values], and the
    wallet acknowledgement of [send_transaction]. *)

From Stdlib Require Import ZArith QArith Lia Bool List.
From stdpp Require Import gmap list strings.
From coqutil Require Import Word.LittleEndianList.

(** 32-byte digests ([bytes32]) are represented by the number they encode. *)
Abbreviation bytes32 := N (only parsing).

(** Exceptions that the modelled code raises or lets through. *)
Inductive exn : Type :=
  | AssertionError
  | KeyError
  | ValueError
  | CancelledError
  | OtherError (code : N).

(** How a call ends: with a value or with an exception. *)
Inductive Outcome (A : Type) : Type :=
  | Returned (a : A)
  | Raised (e : exn).
Arguments Returned {A} a.
Arguments Raised {A} e.

(** [uint8(v)]: the constructor refuses values outside of one byte. *)
Definition uint8 (v : Z) : Outcome Z :=
  if ((0 <=? v) && (v <? 256))%Z then Returned v else Raised ValueError.

(** * Mempool items and their ranking ([tad/types/mempool_item.py]) *)

Module MempoolItemModel.
Local Open Scope Z_scope.

(** The range of [uint64], the declared type of [fee] and [cost]. *)
Definition uint64 (x : Z) : Prop := 0 <= x < 2 ^ 64.

(** A finite, non-negative Python [float] (IEEE binary64), as the
    dyadic number [mant * 2 ^ expo]. *)
Record float := mkFloat { mant : Z; expo : Z }.

(** [x < y] on floats: both are brought to the smaller exponent. *)
Definition float_ltb (x y : float) : bool :=
  let e0 := Z.min (expo x) (expo y) in
  mant x * 2 ^ (expo x - e0) <? mant y * 2 ^ (expo y - e0).

(** Nearest integer to [n / d], ties to the even one. *)
Definition round_half_even (n d : Z) : Z :=
  let q := n / d in
  let r := n mod d in
  if 2 * r <? d then q
  else if d <? 2 * r then q + 1
  else if Z.even q then q else q + 1.

(** Python's [a / b] on two [int]s is the exact quotient rounded once to
    the nearest binary64, ties to even, and raises [ZeroDivisionError]
    (here [None]) when [b] is zero.  The quotient is first scaled by
    [2 ^ guard_bits], which makes it at least [2 ^ 64] for the operands
    of a [uint64] division, then cut to a 53-bit mantissa. *)
Definition guard_bits : Z := 128.

Definition true_divide (a b : Z) : option float :=
  if b =? 0 then None
  else if a =? 0 then Some (mkFloat 0 0)
  else
    let A := a * 2 ^ guard_bits in
    let sh := Z.log2 (A / b) - 52 in
    Some (mkFloat (round_half_even A (b * 2 ^ sh)) (sh - guard_bits)).

(** [MempoolItem]: the fields the ordering reads, and the name. The spend
    bundle, the NPC result, the additions, the removals and the program
    play no part in the comparison. *)
Record MempoolItem := mkMempoolItem {
  fee : Z;
  cost : Z;
  spend_bundle_name : bytes32
}.

(** [fee_per_cost]: [int(self.fee) / int(self.cost)]. *)
Definition fee_per_cost (i : MempoolItem) : option float :=
  true_divide (fee i) (cost i).

(** [__lt__]: [self.fee_per_cost < other.fee_per_cost]; [None] when one of
    the two divisions raises. *)
Definition lt (self other : MempoolItem) : option bool :=
  match fee_per_cost self, fee_per_cost other with
  | Some x, Some y => Some (float_ltb x y)
  | _, _ => None
  end.

(** [name]. *)
Definition name (i : MempoolItem) : bytes32 := spend_bundle_name i.

(** The exact fee-to-cost ratio, as a rational number. *)
Definition exact_ratio (i : MempoolItem) : Q := fee i # Z.to_pos (cost i).

Definition well_formed (i : MempoolItem) : Prop :=
  uint64 (fee i) /\ uint64 (cost i).

(** The value of a float in units of [2 ^ (- guard_bits)]. *)
Definition scaled (x : float) : Z := mant x * 2 ^ (expo x + guard_bits).

Lemma float_ltb_scaled (x y : float) :
  - guard_bits <= expo x -> - guard_bits <= expo y ->
  float_ltb x y = (scaled x <? scaled y).
Proof.
  intros Hx Hy. unfold float_ltb, scaled.
  set (e0 := Z.min (expo x) (expo y)).
  assert (He0 : 0 <= e0 + guard_bits) by (unfold e0; lia).
  replace (expo x + guard_bits) with ((expo x - e0) + (e0 + guard_bits)) by lia.
  replace (expo y + guard_bits) with ((expo y - e0) + (e0 + guard_bits)) by lia.
  rewrite (Z.pow_add_r 2 (expo x - e0)) by (unfold e0; lia).
  rewrite (Z.pow_add_r 2 (expo y - e0)) by (unfold e0; lia).
  rewrite !Z.mul_assoc.
  assert (Hp : 0 < 2 ^ (e0 + guard_bits)) by (apply Z.pow_pos_nonneg; lia).
  generalize dependent (2 ^ (e0 + guard_bits)). intros p Hp.
  generalize (mant x * 2 ^ (expo x - e0)) (mant y * 2 ^ (expo y - e0)).
  intros u v. destruct (Z.ltb_spec u v), (Z.ltb_spec (u * p) (v * p));
    try reflexivity; nia.
Qed.

Lemma round_half_even_mono (n1 d1 n2 d2 : Z) :
  0 < d1 -> 0 < d2 -> n1 * d2 <= n2 * d1 ->
  round_half_even n1 d1 <= round_half_even n2 d2.
Proof.
  intros H1 H2 Hle. unfold round_half_even.
  pose proof (Z.div_mod n1 d1 ltac:(lia)) as E1.
  pose proof (Z.div_mod n2 d2 ltac:(lia)) as E2.
  pose proof (Z.mod_pos_bound n1 d1 H1) as B1.
  pose proof (Z.mod_pos_bound n2 d2 H2) as B2.
  set (q1 := n1 / d1) in *. set (r1 := n1 mod d1) in *.
  set (q2 := n2 / d2) in *. set (r2 := n2 mod d2) in *.
  assert (Hq : q1 <= q2).
  { destruct (Z.le_gt_cases q1 q2) as [|Hgt]; [assumption|exfalso].
    assert (d1 * d2 * (q2 + 1) <= d1 * d2 * q1)
      by (apply Z.mul_le_mono_nonneg_l; nia).
    assert (r2 * d1 < d2 * d1) by nia.
    assert (0 <= r1 * d2) by nia.
    nia. }
  destruct (Z.eq_dec q1 q2) as [Heq | Hne].
  - rewrite <- Heq in *. clearbody q1 r1 r2. clear Hq Heq q2.
    assert (Hr : r1 * d2 <= r2 * d1) by nia.
    destruct (Z.ltb_spec (2 * r1) d1), (Z.ltb_spec d1 (2 * r1)),
      (Z.ltb_spec (2 * r2) d2), (Z.ltb_spec d2 (2 * r2));
      destruct (Z.even q1); try lia; nia.
  - assert (q1 + 1 <= q2) by lia.
    destruct (2 * r1 <? d1), (d1 <? 2 * r1), (Z.even q1),
      (2 * r2 <? d2), (d2 <? 2 * r2), (Z.even q2); lia.
Qed.

Lemma round_half_even_bounds (n d lo hi : Z) :
  0 < d -> lo * d <= n < hi * d ->
  lo <= round_half_even n d <= hi.
Proof.
  intros Hd [Hlo Hhi]. unfold round_half_even.
  pose proof (Z.div_mod n d ltac:(lia)) as E.
  pose proof (Z.mod_pos_bound n d Hd) as B.
  set (q := n / d) in *. set (r := n mod d) in *.
  assert (lo <= q < hi) by nia.
  destruct (2 * r <? d), (d <? 2 * r), (Z.even q); lia.
Qed.

(** What [true_divide] returns on positive operands with a [uint64]
    divisor: a mantissa of 53 bits (or [2 ^ 53] after a carry) at the
    exponent that puts the exact quotient in [[2^52, 2^53)]. *)
Lemma true_divide_pos (a b : Z) :
  0 < a -> 0 < b < 2 ^ 64 ->
  exists sh : Z,
    1 <= sh /\
    true_divide a b =
      Some (mkFloat (round_half_even (a * 2 ^ guard_bits) (b * 2 ^ sh))
                    (sh - guard_bits)) /\
    2 ^ 52 * (b * 2 ^ sh) <= a * 2 ^ guard_bits < 2 ^ 53 * (b * 2 ^ sh).
Proof.
  intros Ha [Hb Hb64]. unfold true_divide.
  destruct (Z.eqb_spec b 0) as [|_]; [lia|].
  destruct (Z.eqb_spec a 0) as [|_]; [lia|].
  set (A := a * 2 ^ guard_bits).
  assert (HA : 2 ^ 64 * b <= A).
  { unfold A, guard_bits. change (2 ^ 128) with (2 ^ 64 * 2 ^ 64). nia. }
  assert (Hq0 : 2 ^ 64 <= A / b).
  { apply Z.div_le_lower_bound; lia. }
  set (k := Z.log2 (A / b)).
  assert (Hk : 64 <= k).
  { unfold k. change 64 with (Z.log2 (2 ^ 64)). apply Z.log2_le_mono, Hq0. }
  destruct (Z.log2_spec (A / b) ltac:(lia)) as [Hlo Hhi]. fold k in Hlo, Hhi.
  exists (k - 52). split; [lia|]. split; [reflexivity|].
  pose proof (Z.div_mod A b ltac:(lia)) as E.
  pose proof (Z.mod_pos_bound A b Hb) as B.
  replace (2 ^ 52 * (b * 2 ^ (k - 52))) with (b * 2 ^ k).
  2:{ replace k with (52 + (k - 52)) at 1 by lia.
      rewrite Z.pow_add_r by lia. ring. }
  replace (2 ^ 53 * (b * 2 ^ (k - 52))) with (b * 2 ^ Z.succ k).
  2:{ replace (Z.succ k) with (53 + (k - 52)) by lia.
      rewrite Z.pow_add_r by lia. ring. }
  generalize dependent (2 ^ k). generalize dependent (2 ^ Z.succ k).
  intros; nia.
Qed.

Lemma scaled_true_divide_mono (a1 b1 a2 b2 : Z) (x y : float) :
  0 <= a1 -> 0 <= a2 -> 0 < b1 < 2 ^ 64 -> 0 < b2 < 2 ^ 64 ->
  true_divide a1 b1 = Some x -> true_divide a2 b2 = Some y ->
  a1 * b2 <= a2 * b1 ->
  - guard_bits <= expo x /\ - guard_bits <= expo y /\ scaled x <= scaled y.
Proof.
  intros Ha1 Ha2 Hb1 Hb2 Hx Hy Hle.
  assert (Hz : forall b, b <> 0 -> true_divide 0 b = Some (mkFloat 0 0)).
  { intros b Hb. unfold true_divide. destruct (Z.eqb_spec b 0); [lia|reflexivity]. }
  assert (Hpos : forall a b z, 0 < a -> 0 < b < 2 ^ 64 -> true_divide a b = Some z ->
            - guard_bits <= expo z /\ 0 < scaled z).
  { intros a b z Ha Hb Hz'. destruct (true_divide_pos a b Ha Hb) as (sh & Hsh & E & Hr).
    rewrite E in Hz'. injection Hz' as <-. unfold scaled; cbn [mant expo].
    split; [lia|].
    assert (P : 0 < 2 ^ sh) by (apply Z.pow_pos_nonneg; lia).
    pose proof (round_half_even_bounds _ (b * 2 ^ sh) (2 ^ 52) (2 ^ 53)
                  ltac:(nia) Hr) as Hm.
    replace (sh - guard_bits + guard_bits) with sh by lia. nia. }
  destruct (Z.eq_dec a1 0) as [-> | Hn1].
  - rewrite Hz in Hx by lia. injection Hx as <-.
    destruct (Z.eq_dec a2 0) as [-> | Hn2].
    + rewrite Hz in Hy by lia. injection Hy as <-.
      unfold scaled, guard_bits; cbn; lia.
    + destruct (Hpos a2 b2 y ltac:(lia) Hb2 Hy) as [He Hs].
      unfold scaled at 1; cbn [mant expo]. unfold guard_bits in *. lia.
  - assert (Hp1 : 0 < a1) by lia. assert (Hp2 : 0 < a2) by nia.
    destruct (true_divide_pos a1 b1 Hp1 Hb1) as (s1 & Hs1 & E1 & R1).
    destruct (true_divide_pos a2 b2 Hp2 Hb2) as (s2 & Hs2 & E2 & R2).
    rewrite E1 in Hx. rewrite E2 in Hy. injection Hx as <-. injection Hy as <-.
    unfold scaled; cbn [mant expo]. split; [lia|]. split; [lia|].
    replace (s1 - guard_bits + guard_bits) with s1 by lia.
    replace (s2 - guard_bits + guard_bits) with s2 by lia.
    assert (P1 : 0 < 2 ^ s1) by (apply Z.pow_pos_nonneg; lia).
    assert (P2 : 0 < 2 ^ s2) by (apply Z.pow_pos_nonneg; lia).
    pose proof (round_half_even_bounds _ (b1 * 2 ^ s1) (2 ^ 52) (2 ^ 53) ltac:(nia) R1) as M1.
    pose proof (round_half_even_bounds _ (b2 * 2 ^ s2) (2 ^ 52) (2 ^ 53) ltac:(nia) R2) as M2.
    set (G := 2 ^ guard_bits) in *.
    assert (HG : 0 < G) by (unfold G, guard_bits; lia).
    destruct (Z.lt_trichotomy s1 s2) as [Hlt | [-> | Hgt]].
    + assert (Hs : 2 * 2 ^ s1 <= 2 ^ s2).
      { replace (2 * 2 ^ s1) with (2 ^ (s1 + 1)) by (rewrite Z.pow_add_r by lia; lia).
        apply Z.pow_le_mono_r; lia. }
      change (2 ^ 53) with (2 * 2 ^ 52) in M1. nia.
    + apply Z.mul_le_mono_nonneg_r; [lia|].
      apply round_half_even_mono; nia.
    + exfalso.
      assert (Hs : 2 * 2 ^ s2 <= 2 ^ s1).
      { replace (2 * 2 ^ s2) with (2 ^ (s2 + 1)) by (rewrite Z.pow_add_r by lia; lia).
        apply Z.pow_le_mono_r; lia. }
      change (2 ^ 53) with (2 * 2 ^ 52) in R2.
      assert (2 ^ 52 * (b1 * 2 ^ s1) * b2 <= a1 * G * b2) by nia.
      assert (a2 * G * b1 < 2 * 2 ^ 52 * (b2 * 2 ^ s2) * b1) by nia.
      assert (a1 * G * b2 <= a2 * G * b1) by nia.
      assert (0 < 2 ^ 52 * b1 * b2) by nia.
      nia.
Qed.

(** Rounding keeps the order of the exact ratios: a smaller or equal
    ratio never yields the larger double. *)
Lemma fee_per_cost_mono (a b : MempoolItem) (x y : float) :
  well_formed a -> well_formed b -> 0 < cost a -> 0 < cost b ->
  fee_per_cost a = Some x -> fee_per_cost b = Some y ->
  fee a * cost b <= fee b * cost a ->
  float_ltb y x = false.
Proof.
  intros [Hfa Hca] [Hfb Hcb] Pa Pb Hx Hy Hle. unfold uint64 in *.
  destruct (scaled_true_divide_mono (fee a) (cost a) (fee b) (cost b) x y)
    as (Ex & Ey & Hs); try assumption; try lia.
  rewrite float_ltb_scaled by assumption.
  apply Z.ltb_ge, Hs.
Qed.

Lemma fee_per_cost_defined (a : MempoolItem) :
  0 < cost a -> exists x, fee_per_cost a = Some x.
Proof.
  intros Hc. unfold fee_per_cost, true_divide.
  destruct (Z.eqb_spec (cost a) 0); [lia|].
  destruct (fee a =? 0); eauto.
Qed.

Lemma exact_ratio_lt (a b : MempoolItem) :
  0 < cost a -> 0 < cost b ->
  (exact_ratio a < exact_ratio b)%Q <-> fee a * cost b < fee b * cost a.
Proof.
  intros Ha Hb. unfold exact_ratio, Qlt; cbn [Qnum Qden].
  rewrite !Z2Pos.id by assumption. reflexivity.
Qed.

Lemma exact_ratio_eq (a b : MempoolItem) :
  0 < cost a -> 0 < cost b ->
  (exact_ratio a == exact_ratio b)%Q <-> fee a * cost b = fee b * cost a.
Proof.
  intros Ha Hb. unfold exact_ratio, Qeq; cbn [Qnum Qden].
  rewrite !Z2Pos.id by assumption. reflexivity.
Qed.

(** C9, as stated, fails: the fees [2^53] and [2^53 + 1] at cost [1] are
    distinct exact ratios, but both quotients are the double [2^53], so
    the first item is not [<] the second. *)
Lemma C9_distinct_ratios_same_double :
  let a := mkMempoolItem (2 ^ 53) 1 0 in
  let b := mkMempoolItem (2 ^ 53 + 1) 1 0 in
  well_formed a /\ well_formed b /\ 0 < cost a /\ 0 < cost b /\
  (exact_ratio a < exact_ratio b)%Q /\ lt a b = Some false /\
  ~ (lt a b = Some true <-> (exact_ratio a < exact_ratio b)%Q).
Proof.
  cbv zeta.
  assert (R : (exact_ratio (mkMempoolItem (2 ^ 53) 1 0)
               < exact_ratio (mkMempoolItem (2 ^ 53 + 1) 1 0))%Q)
    by (unfold exact_ratio, Qlt; cbn; lia).
  assert (L : lt (mkMempoolItem (2 ^ 53) 1 0) (mkMempoolItem (2 ^ 53 + 1) 1 0)
              = Some false) by (vm_compute; reflexivity).
  repeat split; unfold uint64; cbn [fee cost]; try lia; try assumption.
  intros [_ H]. rewrite L in H. specialize (H R). discriminate.
Qed.

(** The same happens at everyday magnitudes: two fees just above the cost
    of about [10^9] have different ratios and the same double. *)
Example same_double_small_fees :
  let a := mkMempoolItem 1000000002 1000000001 0 in
  let b := mkMempoolItem 1000000001 1000000000 1 in
  (exact_ratio a < exact_ratio b)%Q /\ lt a b = Some false.
Proof.
  cbv zeta. split; [unfold exact_ratio, Qlt; cbn; lia | vm_compute; reflexivity].
Qed.

(** C9 (amended): for mempool items [a] and [b] with [uint64] fee and
    positive [uint64] cost, [a < b] is the comparison of the two doubles
    [fee / cost] and of nothing else; [a < b] implies that the exact
    ratio of [a] is strictly below that of [b]; and two items with equal
    exact ratios are incomparable in both directions. *)
Theorem C9_fee_per_cost_ranking (a b : MempoolItem) :
  well_formed a -> well_formed b -> 0 < cost a -> 0 < cost b ->
  exists x y : float,
    fee_per_cost a = Some x /\ fee_per_cost b = Some y /\
    lt a b = Some (float_ltb x y) /\
    (lt a b = Some true -> (exact_ratio a < exact_ratio b)%Q) /\
    ((exact_ratio a == exact_ratio b)%Q ->
       lt a b = Some false /\ lt b a = Some false).
Proof.
  intros Wa Wb Pa Pb.
  destruct (fee_per_cost_defined a Pa) as [x Hx].
  destruct (fee_per_cost_defined b Pb) as [y Hy].
  exists x, y. unfold lt. rewrite Hx, Hy.
  split; [reflexivity|]. split; [reflexivity|]. split; [reflexivity|]. split.
  - intros H. apply exact_ratio_lt; try assumption.
    destruct (Z.lt_ge_cases (fee a * cost b) (fee b * cost a)) as [|Hge];
      [assumption|].
    rewrite (fee_per_cost_mono b a y x) in H by (assumption || lia).
    discriminate.
  - intros H. apply exact_ratio_eq in H; try assumption.
    rewrite (fee_per_cost_mono b a y x), (fee_per_cost_mono a b x y)
      by (assumption || lia).
    split; reflexivity.
Qed.

Lemma C9_fee_per_cost_ranking_witness :
  let a := mkMempoolItem 1 3 0 in
  let b := mkMempoolItem 2 5 1 in
  exists x y : float,
    fee_per_cost a = Some x /\ fee_per_cost b = Some y /\
    lt a b = Some (float_ltb x y) /\
    (lt a b = Some true -> (exact_ratio a < exact_ratio b)%Q) /\
    ((exact_ratio a == exact_ratio b)%Q ->
       lt a b = Some false /\ lt b a = Some false).
Proof.
  cbv zeta. apply C9_fee_per_cost_ranking;
    unfold well_formed, uint64; cbn [fee cost]; lia.
Defined.

End MempoolItemModel.

(** * Wallet protocol: [send_transaction] *)

Module WalletProtocol.
Local Open Scope Z_scope.

(** [MempoolInclusionStatus]; the numbers behind the members ([.value])
    are a parameter of the model below. *)
Inductive MempoolInclusionStatus : Type := SUCCESS | PENDING | FAILED.

Definition is_success (s : MempoolInclusionStatus) : bool :=
  match s with SUCCESS => true | _ => false end.

(** [wallet_protocol.TransactionAck(txid, status, error)]. *)
Record TransactionAck := mkTransactionAck {
  txid : bytes32;
  status : Z;
  error : option string
}.

(** [make_msg(ProtocolMessageTypes.transaction_ack, response)]. *)
Inductive Message : Type :=
  | transaction_ack (response : TransactionAck).

Section SendTransaction.
(** The node as the handler sees it: the spend bundles, the error
    values and the state of the full node with its mempool. *)
Context {SpendBundle Err Node : Type}.
(** [request.transaction.name()]. *)
Variable name : SpendBundle -> bytes32.
(** [status.value] and [error.name]. *)
Variable status_value : MempoolInclusionStatus -> Z.
Variable error_name : Err -> string.
(** [full_node.respond_transaction(transaction, spend_name)]: the
    admission to the mempool, which may change the node. *)
Variable respond_transaction :
  SpendBundle -> bytes32 -> Node ->
  Outcome (MempoolInclusionStatus * option Err) * Node.
(** [full_node.mempool_manager.get_spendbundle(spend_name)]. *)
Variable get_spendbundle : Node -> bytes32 -> option SpendBundle.

(** [TransactionAck(spend_name, uint8(value), error_name)]. *)
Definition make_ack (spend_name : bytes32) (value : Z)
    (error_name : option string) : Outcome (option Message) :=
  match uint8 value with
  | Returned v =>
      Returned (Some (transaction_ack (mkTransactionAck spend_name v error_name)))
  | Raised e => Raised e
  end.

Definition send_transaction (request : SpendBundle) (node : Node)
    : Outcome (option Message) * Node :=
  let spend_name := name request in
  match respond_transaction request spend_name node with
  | (Raised e, node') => (Raised e, node')
  | (Returned (status, error), node') =>
      let error_name := option_map error_name error in
      if is_success status then
        (make_ack spend_name (status_value status) error_name, node')
      else
        match get_spendbundle node' spend_name with
        | Some _ => (make_ack spend_name (status_value SUCCESS) None, node')
        | None => (make_ack spend_name (status_value status) error_name, node')
        end
  end.

(** C10: when the admission answers [(st, err)], the acknowledgement
    carries the name of the transaction and, if [st] is not SUCCESS
    while the mempool already has the bundle, the status SUCCESS and no
    error; in every other case the status [st] and the name of [err],
    if there is one. *)
Theorem C10_send_transaction_ack (request : SpendBundle) (node node' : Node)
    (st : MempoolInclusionStatus) (err : option Err) :
  (forall s, 0 <= status_value s < 256) ->
  respond_transaction request (name request) node = (Returned (st, err), node') ->
  (st <> SUCCESS -> is_Some (get_spendbundle node' (name request)) ->
   send_transaction request node =
     (Returned (Some (transaction_ack
        (mkTransactionAck (name request) (status_value SUCCESS) None))),
      node')) /\
  (st = SUCCESS \/ get_spendbundle node' (name request) = None ->
   send_transaction request node =
     (Returned (Some (transaction_ack
        (mkTransactionAck (name request) (status_value st)
                          (option_map error_name err)))),
      node')).
Proof.
  intros Hrange Hresp. unfold send_transaction. rewrite Hresp.
  assert (Hack : forall s e, make_ack (name request) (status_value s) e =
            Returned (Some (transaction_ack
              (mkTransactionAck (name request) (status_value s) e)))).
  { intros s e. unfold make_ack, uint8. specialize (Hrange s).
    destruct (Z.leb_spec 0 (status_value s)); [|lia].
    destruct (Z.ltb_spec (status_value s) 256); [reflexivity|lia]. }
  split.
  - intros Hst [sb Hsb]. rewrite Hsb, !Hack.
    destruct st; [congruence | reflexivity | reflexivity].
  - intros [-> | Hnone].
    + cbn [is_success]. rewrite Hack. reflexivity.
    + rewrite Hnone, !Hack. destruct (is_success st); reflexivity.
Qed.
End SendTransaction.

(** The usual numbering of the three members. *)
Definition value123 (s : MempoolInclusionStatus) : Z :=
  match s with SUCCESS => 1 | PENDING => 2 | FAILED => 3 end.

(** A wallet resubmits bundle 5, which the pool [[5]] already holds: the
    admission fails with an error, the acknowledgement says SUCCESS. *)
Lemma C10_send_transaction_ack_witness :
  send_transaction (fun sb : N => sb) value123
      (fun _ : N => "ALREADY_INCLUDING_TRANSACTION"%string)
      (fun _ _ (pool : list N) => (Returned (FAILED, Some 7%N), pool))
      (fun pool n => if existsb (N.eqb n) pool then Some n else None)
      5%N [5%N]
  = (Returned (Some (transaction_ack (mkTransactionAck 5%N 1 None))), [5%N]).
Proof.
  apply (proj1 (C10_send_transaction_ack (fun sb : N => sb) value123
           (fun _ : N => "ALREADY_INCLUDING_TRANSACTION"%string)
           (fun _ _ (pool : list N) => (Returned (FAILED, Some 7%N), pool))
           (fun pool n => if existsb (N.eqb n) pool then Some n else None)
           5%N [5%N] [5%N] FAILED (Some 7%N)
           ltac:(intros []; cbn; lia) eq_refl)).
  - discriminate.
  - eexists. reflexivity.
Defined.

End WalletProtocol.

(** * Transaction gossip: [new_transaction], [respond_transaction] and the
      fetch-retry task [tx_request_and_timeout] *)

Module TxGossip.

(** [full_node_protocol.NewTransaction]. *)
Record NewTransaction := mkNewTransaction {
  transaction_id : bytes32;
  cost : Z;
  fees : Z
}.

(** The only message these handlers send:
    [make_msg(ProtocolMessageTypes.request_transaction, RequestTransaction(id))]. *)
Inductive Message : Type :=
  | request_transaction (id : bytes32).

(** One [peer.send_message(msg)]: the node id of the peer and the message. *)
Abbreviation Sent := (bytes32 * Message)%type (only parsing).

(** The three dictionaries of [full_node_store] that the gossip uses.
    [tx_fetch_tasks] maps a task id to the task handle; the handle is
    represented by the transaction id that the task fetches. *)
Record FullNodeStore := mkStore {
  pending_tx_request : gmap bytes32 bytes32;
  peers_with_tx : gmap bytes32 (gset bytes32);
  tx_fetch_tasks : gmap bytes32 bytes32
}.

Definition set_pending (f : gmap bytes32 bytes32 -> gmap bytes32 bytes32)
    (st : FullNodeStore) : FullNodeStore :=
  mkStore (f (pending_tx_request st)) (peers_with_tx st) (tx_fetch_tasks st).

Definition set_peers
    (f : gmap bytes32 (gset bytes32) -> gmap bytes32 (gset bytes32))
    (st : FullNodeStore) : FullNodeStore :=
  mkStore (pending_tx_request st) (f (peers_with_tx st)) (tx_fetch_tasks st).

Definition set_tasks (f : gmap bytes32 bytes32 -> gmap bytes32 bytes32)
    (st : FullNodeStore) : FullNodeStore :=
  mkStore (pending_tx_request st) (peers_with_tx st) (f (tx_fetch_tasks st)).

(** What a handler or a task step reads from the rest of the node at the
    time it runs. [choice] resolves which element [set.pop()] removes. *)
Record Env := mkEnv {
  sync_mode : bool;                    (* sync_store.get_sync_mode() *)
  synced : bool;                       (* await full_node.synced() *)
  seen : bytes32 -> bool;              (* mempool_manager.seen(id) *)
  is_fee_enough : Z -> Z -> bool;      (* mempool_manager.is_fee_enough(fees, cost) *)
  server_present : bool;               (* full_node.server is not None *)
  all_connections : gset bytes32;      (* keys of server.all_connections *)
  choice : list bytes32 -> nat
}.

(** Where a fetch task is suspended. *)
Inductive PC : Type :=
  | Created                            (* scheduled, body not yet started *)
  | AwaitSend (peer_id : bytes32)      (* in [await peer.send_message(msg)] *)
  | AwaitSleep.                        (* in [await asyncio.sleep(5)] *)

(** A fetch task: the arguments of [tx_request_and_timeout], its local
    [counter] and the point where it waits. *)
Record Task := mkTask {
  task_id : bytes32;
  task_tx : bytes32;
  counter : nat;
  pc : PC
}.

(** How an [await] ends for the task that waits in it. *)
Inductive AwaitOutcome : Type :=
  | Resumed
  | Cancelled
  | Failed (e : exn).

Inductive TaskStatus : Type :=
  | Suspended (t : Task)
  | Finished (result : Outcome unit).

(** The element of the non-empty list [x :: l] that [choice] selects. *)
Definition pick (choice : list bytes32 -> nat) (x : bytes32) (l : list bytes32)
    : bytes32 :=
  nth (choice (x :: l) mod length (x :: l)) (x :: l) x.

(** [s.pop()]: removes and returns an element of a non-empty set. *)
Definition set_pop (choice : list bytes32 -> nat) (s : gset bytes32)
    : option (bytes32 * gset bytes32) :=
  match elements s with
  | [] => None
  | x :: l => let p := pick choice x l in Some (p, s ∖ {[p]})
  end.

(** The [finally] block of the task. *)
Definition cleanup (t : Task) (st : FullNodeStore) : FullNodeStore :=
  set_tasks (delete (task_id t))
    (set_pending (delete (task_tx t))
      (set_peers (delete (task_tx t)) st)).

Definition finish (t : Task) (result : Outcome unit) (st : FullNodeStore)
    : TaskStatus * FullNodeStore * list Sent :=
  (Finished result, cleanup t st, []).

(** The [while True] loop from its head up to the next [await] or to the
    end of the task. Every [continue] has removed a peer from the fan-out
    set, and [fuel] bounds the number of passes; [None] means that the
    bound was too small. *)
Fixpoint fetch_loop (fuel : nat) (env : Env) (t : Task) (st : FullNodeStore)
    : option (TaskStatus * FullNodeStore * list Sent) :=
  match fuel with
  | O => None
  | S fuel' =>
      if Nat.eqb (counter t) 10 then Some (finish t (Returned tt) st)
      else
        match peers_with_tx st !! task_tx t with
        | None => Some (finish t (Returned tt) st)
        | Some peers =>
            match set_pop (choice env) peers with
            | None => Some (finish t (Returned tt) st)
            | Some (peer_id, rest) =>
                let st1 := set_peers (insert (task_tx t) rest) st in
                if negb (server_present env) then
                  Some (finish t (Raised AssertionError) st1)
                else if bool_decide (peer_id ∈ all_connections env) then
                  Some (Suspended (mkTask (task_id t) (task_tx t) (counter t)
                                          (AwaitSend peer_id)), st1, [])
                else fetch_loop fuel' env t st1
            end
        end
  end.

(** The number of passes that the loop can make without suspending. *)
Definition loop_bound (t : Task) (st : FullNodeStore) : nat :=
  S (size (default ∅ (peers_with_tx st !! task_tx t))).

(** One run of the task between two suspensions: [outcome] is how the
    [await] it waited in has ended. A task that was only created starts
    its body when it is run; when it is cancelled before its first step
    (or an exception is thrown into it), it ends with that exception and
    its body is never entered: neither the [try] nor the [finally] runs.
    At the two [await]s cancellation and exceptions arrive inside the
    [try]. *)
Definition resume (env : Env) (outcome : AwaitOutcome) (t : Task)
    (st : FullNodeStore) : option (TaskStatus * FullNodeStore * list Sent) :=
  match pc t with
  | Created =>
      match outcome with
      | Resumed =>
          let t0 := mkTask (task_id t) (task_tx t) 0 Created in
          fetch_loop (loop_bound t0 st) env t0 st
      | Cancelled => Some (Finished (Raised CancelledError), st, [])
      | Failed e => Some (Finished (Raised e), st, [])
      end
  | AwaitSend peer_id =>
      match outcome with
      | Resumed =>
          Some (Suspended (mkTask (task_id t) (task_tx t) (counter t) AwaitSleep),
                st, [(peer_id, request_transaction (task_tx t))])
      | Cancelled => Some (finish t (Returned tt) st)
      | Failed e => Some (finish t (Raised e) st)
      end
  | AwaitSleep =>
      match outcome with
      | Resumed =>
          let t1 := mkTask (task_id t) (task_tx t) (S (counter t)) AwaitSleep in
          if seen env (task_tx t) then Some (finish t1 (Returned tt) st)
          else fetch_loop (loop_bound t1 st) env t1 st
      | Cancelled => Some (finish t (Returned tt) st)
      | Failed e => Some (finish t (Raised e) st)
      end
  end.

(** What a call of a handler does besides returning: the store it leaves,
    the tasks it has created and the messages it has sent. *)
Record Effects := mkEffects {
  reply : Outcome (option Message);
  store_after : FullNodeStore;
  spawned : list Task;
  sent : list Sent
}.

(** [new_transaction(transaction, peer)]; [peer] is [peer.peer_node_id]
    and [token] the value of [token_bytes()]. *)
Definition new_transaction (env : Env) (transaction : NewTransaction)
    (peer : bytes32) (token : bytes32) (st : FullNodeStore) : Effects :=
  let drop := mkEffects (Returned None) st [] [] in
  let id := transaction_id transaction in
  if sync_mode env then drop
  else if negb (synced env) then drop
  else if seen env id then drop
  else if is_fee_enough env (fees transaction) (cost transaction) then
    match pending_tx_request st !! id with
    | Some _ =>
        match peers_with_tx st !! id with
        | Some current_set =>
            if bool_decide (peer ∈ current_set) then drop
            else mkEffects (Returned None)
                   (set_peers (insert id (current_set ∪ {[peer]})) st) [] []
        | None =>
            mkEffects (Returned None) (set_peers (insert id {[peer]}) st) [] []
        end
    | None =>
        let st1 := set_pending (insert id peer) st in
        let st2 := set_peers (insert id {[peer]}) st1 in
        let fetch_task := mkTask token id 0 Created in
        mkEffects (Returned None) (set_tasks (insert token id) st2)
                  [fetch_task] []
    end
  else drop.

(** The part of the API handler [respond_transaction] that touches the
    gossip store: both markers of the received bundle are removed before
    the bundle goes to [full_node.respond_transaction]. *)
Definition respond_transaction (spend_name : bytes32) (st : FullNodeStore)
    : FullNodeStore :=
  set_peers (delete spend_name) (set_pending (delete spend_name) st).

(** ** The node as a system of handlers and tasks *)

(** The store, the fetch tasks that the event loop still has to run, and
    the messages sent so far (oldest first). *)
Record Node := mkNode {
  store : FullNodeStore;
  running : list Task;
  outbox : list Sent
}.

Definition initial_node : Node := mkNode (mkStore ∅ ∅ ∅) [] [].

(** What the event loop runs next: a handler for a message of a peer, or
    the task at position [i] of [running], whose [await] has ended. *)
Inductive Event : Type :=
  | ev_new_transaction (env : Env) (transaction : NewTransaction)
      (peer : bytes32) (token : bytes32)
  | ev_respond_transaction (spend_name : bytes32)
  | ev_resume (env : Env) (i : nat) (outcome : AwaitOutcome).

Definition step (ev : Event) (node : Node) : Node :=
  match ev with
  | ev_new_transaction env transaction peer token =>
      let eff := new_transaction env transaction peer token (store node) in
      mkNode (store_after eff) (running node ++ spawned eff)
             (outbox node ++ sent eff)
  | ev_respond_transaction spend_name =>
      mkNode (respond_transaction spend_name (store node)) (running node)
             (outbox node)
  | ev_resume env i outcome =>
      match running node !! i with
      | None => node
      | Some t =>
          match resume env outcome t (store node) with
          | None => node
          | Some (Suspended t', st', out) =>
              mkNode st' (<[i := t']> (running node)) (outbox node ++ out)
          | Some (Finished _, st', out) =>
              mkNode st' (delete i (running node)) (outbox node ++ out)
          end
      end
  end.

Definition run (trace : list Event) (node : Node) : Node :=
  fold_left (fun n ev => step ev n) trace node.

(** The number of tasks of [l] that fetch [id]. *)
Fixpoint count_tx (id : bytes32) (l : list Task) : nat :=
  match l with
  | [] => 0
  | t :: l' => (if N.eqb (task_tx t) id then 1 else 0) + count_tx id l'
  end.

(** The number of fetch tasks for [id] that have not finished. *)
Definition in_flight (id : bytes32) (node : Node) : nat :=
  count_tx id (running node).

(** The event is not the handler [respond_transaction] for the bundle
    [id]. *)
Definition not_respond_for (id : bytes32) (ev : Event) : bool :=
  match ev with
  | ev_respond_transaction spend_name => negb (N.eqb spend_name id)
  | _ => true
  end.

(** ** One task from creation to its end *)

(** The task is resumed with [r_outcome] in the environment [r_env],
    after the rest of the node has changed the store by [r_others]. *)
Record Resumption := mkResumption {
  r_env : Env;
  r_outcome : AwaitOutcome;
  r_others : FullNodeStore -> FullNodeStore
}.

(** Runs the task through the resumptions of [sched], stopping when it
    finishes; returns the status, the store and the messages it sent. *)
Fixpoint run_task (sched : list Resumption) (t : Task) (st : FullNodeStore)
    : option (TaskStatus * FullNodeStore * list Sent) :=
  match sched with
  | [] => Some (Suspended t, st, [])
  | r :: sched' =>
      match resume (r_env r) (r_outcome r) t (r_others r st) with
      | None => None
      | Some (Finished result, st', out) => Some (Finished result, st', out)
      | Some (Suspended t', st', out) =>
          match run_task sched' t' st' with
          | None => None
          | Some (status, st'', out') => Some (status, st'', out ++ out')
          end
      end
  end.

(** ** Facts about the task *)

Lemma set_pop_Some (c : list bytes32 -> nat) (s rest : gset bytes32) (p : bytes32) :
  set_pop c s = Some (p, rest) ->
  p ∈ s /\ rest = s ∖ {[p]} /\ size rest < size s.
Proof.
  unfold set_pop. destruct (elements s) as [|x l] eqn:E; [discriminate|].
  cbv zeta. intros H.
  assert (Hp : pick c x l = p) by congruence.
  assert (Hr : s ∖ {[pick c x l]} = rest) by congruence.
  clear H. rewrite Hp in Hr.
  assert (Hin : p ∈ s).
  { apply elem_of_elements. rewrite E, <- Hp. unfold pick.
    apply list_elem_of_In, nth_In, Nat.mod_upper_bound. discriminate. }
  split; [assumption|]. split; [congruence|].
  rewrite <- Hr. apply subset_size. set_solver.
Qed.

Lemma cleanup_peers (t : Task) (st : FullNodeStore) :
  peers_with_tx (cleanup t st) !! task_tx t = None.
Proof. cbn. apply lookup_delete_eq. Qed.

Lemma cleanup_pending (t : Task) (st : FullNodeStore) :
  pending_tx_request (cleanup t st) = delete (task_tx t) (pending_tx_request st).
Proof. reflexivity. Qed.

Lemma cleanup_tasks (t : Task) (st : FullNodeStore) :
  tx_fetch_tasks (cleanup t st) = delete (task_id t) (tx_fetch_tasks st).
Proof. reflexivity. Qed.

(** What one pass of the loop to its next suspension leaves behind. *)
Definition step_ok (t : Task) (st : FullNodeStore)
    (r : TaskStatus * FullNodeStore * list Sent) : Prop :=
  match r with
  | (Suspended t', st', out) =>
      task_id t' = task_id t /\ task_tx t' = task_tx t /\
      pending_tx_request st' = pending_tx_request st /\
      tx_fetch_tasks st' = tx_fetch_tasks st
  | (Finished _, st', out) =>
      pending_tx_request st' = delete (task_tx t) (pending_tx_request st) /\
      tx_fetch_tasks st' = delete (task_id t) (tx_fetch_tasks st) /\
      peers_with_tx st' !! task_tx t = None /\ out = []
  end.

(** The same for a resumption: a task that is ended before its first
    step leaves the store as it is. *)
Definition resume_result (o : AwaitOutcome) (t : Task) (st : FullNodeStore)
    (r : TaskStatus * FullNodeStore * list Sent) : Prop :=
  step_ok t st r \/
  (pc t = Created /\ o <> Resumed /\
   exists e, r = (Finished (Raised e), st, [])).

Lemma fetch_loop_ok (fuel : nat) (env : Env) (t : Task) (st : FullNodeStore) r :
  fetch_loop fuel env t st = Some r ->
  step_ok t st r /\
  match r with
  | (Suspended t', _, out) =>
      counter t' = counter t /\ counter t <> 10 /\
      (exists p, pc t' = AwaitSend p) /\ out = []
  | _ => True
  end.
Proof.
  revert st. induction fuel as [|fuel IH]; intros st; [discriminate|].
  cbn [fetch_loop].
  assert (Hfin : forall res st0,
            pending_tx_request st0 = pending_tx_request st ->
            tx_fetch_tasks st0 = tx_fetch_tasks st ->
            Some (finish t res st0) = Some r ->
            step_ok t st r /\
            match r with
            | (Suspended t', _, out) =>
                counter t' = counter t /\ counter t <> 10 /\
                (exists p, pc t' = AwaitSend p) /\ out = []
            | _ => True
            end).
  { intros res st0 Hp Ht H. injection H as <-. cbn.
    rewrite Hp, Ht. split; [|exact I].
    repeat split; try reflexivity. apply lookup_delete_eq. }
  destruct (Nat.eqb_spec (counter t) 10) as [|Hc]; [now apply Hfin|].
  destruct (peers_with_tx st !! task_tx t) as [peers|]; [|now apply Hfin].
  destruct (set_pop (choice env) peers) as [[peer_id rest]|]; [|now apply Hfin].
  destruct (server_present env); cbn [negb]; [|now apply Hfin].
  destruct (bool_decide (peer_id ∈ all_connections env)).
  - intros H. injection H as <-. cbn. repeat split; eauto.
  - intros H. apply IH in H. destruct H as [H1 H2]. split; [|exact H2].
    destruct r as [[[t'|res] st'] out]; cbn in *; tauto.
Qed.

Lemma fetch_loop_total (fuel : nat) (env : Env) (t : Task) (st : FullNodeStore) :
  size (default ∅ (peers_with_tx st !! task_tx t)) < fuel ->
  is_Some (fetch_loop fuel env t st).
Proof.
  revert st. induction fuel as [|fuel IH]; intros st Hlt; [lia|].
  cbn [fetch_loop]. destruct (Nat.eqb (counter t) 10); [eauto|].
  destruct (peers_with_tx st !! task_tx t) as [peers|] eqn:E; [|eauto].
  destruct (set_pop (choice env) peers) as [[peer_id rest]|] eqn:P; [|eauto].
  destruct (negb (server_present env)); [eauto|].
  destruct (bool_decide (peer_id ∈ all_connections env)); [eauto|].
  apply IH. cbn. rewrite lookup_insert_eq. cbn.
  apply set_pop_Some in P. cbn in Hlt. lia.
Qed.

(** The task always gets from one suspension to the next. *)
Lemma resume_total (env : Env) (o : AwaitOutcome) (t : Task) (st : FullNodeStore) :
  is_Some (resume env o t st).
Proof.
  unfold resume, loop_bound. destruct (pc t); [| destruct o; eauto |].
  - destruct o; eauto. apply fetch_loop_total. cbn. lia.
  - destruct o; eauto. destruct (seen env (task_tx t)); [eauto|].
    apply fetch_loop_total. cbn. lia.
Qed.

Lemma resume_ok (env : Env) (o : AwaitOutcome) (t : Task) (st : FullNodeStore) r :
  resume env o t st = Some r -> resume_result o t st r.
Proof.
  unfold resume, resume_result.
  assert (Hfin : forall t0 res, task_id t0 = task_id t -> task_tx t0 = task_tx t ->
            Some (finish t0 res st) = Some r -> step_ok t st r).
  { intros t0 res Hi Hx H. injection H as <-. cbn. rewrite Hi, Hx.
    repeat split; try reflexivity. apply lookup_delete_eq. }
  destruct (pc t).
  - destruct o.
    + intros H. apply fetch_loop_ok in H. left. apply H.
    + intros H. right. repeat split; [discriminate|].
      exists CancelledError. congruence.
    + intros H. right. repeat split; [discriminate|]. exists e. congruence.
  - intros H. left. revert H. destruct o; [|now apply Hfin..].
    intros H. injection H as <-. cbn. tauto.
  - intros H. left. revert H. destruct o; [|now apply Hfin..].
    destruct (seen env (task_tx t)); [now apply Hfin|].
    intros H. apply fetch_loop_ok in H. apply H.
Qed.

(** A task that takes a step as it should ([Resumed] when it has not
    started) is left by it as a pass of the loop leaves it. *)
Lemma resume_started_ok (env : Env) (o : AwaitOutcome) (t : Task)
    (st : FullNodeStore) r :
  (pc t = Created -> o = Resumed) ->
  resume env o t st = Some r -> step_ok t st r.
Proof.
  intros Hs H. apply resume_ok in H as [H|(Hc & Ho & _)]; [exact H|].
  exfalso. apply Ho, Hs, Hc.
Qed.

(** ** The handler *)

(** C1: a NewTransaction that arrives in sync mode or before the node is
    synced, or whose id the mempool has seen, or whose fees are not
    enough for its cost, is answered with [None]; the store is left as it
    was (no entry is added to [pending_tx_request] or [peers_with_tx]),
    no fetch task is created and no RequestTransaction is sent, so that
    the node is the same after the handler as before. *)
Theorem C1_new_transaction_dropped (env : Env) (transaction : NewTransaction)
    (peer token : bytes32) (node : Node) :
  sync_mode env = true \/ synced env = false \/
  seen env (transaction_id transaction) = true \/
  is_fee_enough env (fees transaction) (cost transaction) = false ->
  new_transaction env transaction peer token (store node)
    = mkEffects (Returned None) (store node) [] [] /\
  step (ev_new_transaction env transaction peer token) node = node.
Proof.
  intros H.
  assert (E : new_transaction env transaction peer token (store node)
              = mkEffects (Returned None) (store node) [] []).
  { unfold new_transaction.
    destruct (sync_mode env); [reflexivity|].
    destruct (synced env); cbn [negb]; [|reflexivity].
    destruct (seen env (transaction_id transaction)); [reflexivity|].
    destruct (is_fee_enough env (fees transaction) (cost transaction));
      [|reflexivity].
    destruct H as [H|[H|[H|H]]]; discriminate. }
  split; [exact E|]. unfold step. rewrite E. cbn.
  rewrite !app_nil_r. destruct node; reflexivity.
Qed.

(** The scenario of the specification: fee 0 for cost 1000 is not
    enough. *)
Lemma C1_new_transaction_dropped_witness :
  let env := mkEnv false true (fun _ => false) (fun f c => (c <=? f * 1000)%Z)
                   true {[1%N]} (fun _ => 0) in
  let transaction := mkNewTransaction 9%N 1000 0 in
  new_transaction env transaction 1%N 100%N (store initial_node)
    = mkEffects (Returned None) (store initial_node) [] [] /\
  step (ev_new_transaction env transaction 1%N 100%N) initial_node = initial_node.
Proof.
  cbv zeta. apply C1_new_transaction_dropped.
  right; right; right. reflexivity.
Defined.

(** The handler when a fetch for the id is in flight: the peer joins the
    fan-out set, and nothing else happens. *)
Lemma new_transaction_fan_in (env : Env) (transaction : NewTransaction)
    (peer token : bytes32) (st : FullNodeStore) :
  sync_mode env = false -> synced env = true ->
  seen env (transaction_id transaction) = false ->
  is_fee_enough env (fees transaction) (cost transaction) = true ->
  is_Some (pending_tx_request st !! transaction_id transaction) ->
  new_transaction env transaction peer token st
    = mkEffects (Returned None)
        (set_peers (insert (transaction_id transaction)
           (default ∅ (peers_with_tx st !! transaction_id transaction) ∪ {[peer]}))
           st)
        [] [].
Proof.
  intros Hs1 Hs2 Hseen Hfee [q Hq]. unfold new_transaction.
  rewrite Hs1, Hs2, Hseen, Hfee, Hq. cbn [negb].
  destruct (peers_with_tx st !! transaction_id transaction) as [cur|] eqn:E;
    cbn [default].
  - destruct (bool_decide_reflect (peer ∈ cur)) as [Hin|Hnin]; [|reflexivity].
    f_equal. destruct st as [pe pw tk]. unfold set_peers; cbn in *. f_equal.
    replace (cur ∪ {[peer]}) with cur by set_solver.
    symmetry. apply insert_id. exact E.
  - f_equal. f_equal. f_equal. set_solver.
Qed.

(** ** The single-flight invariant *)

Lemma count_tx_app (id : bytes32) (l1 l2 : list Task) :
  count_tx id (l1 ++ l2) = count_tx id l1 + count_tx id l2.
Proof. induction l1 as [|a l1 IH]; cbn; [reflexivity|]. rewrite IH. lia. Qed.

Lemma count_tx_insert (id : bytes32) (l : list Task) (i : nat) (t t' : Task) :
  l !! i = Some t -> task_tx t' = task_tx t ->
  count_tx id (<[i := t']> l) = count_tx id l.
Proof.
  revert i. induction l as [|a l IH]; intros [|i] Hl Htx; simpl in *;
    try discriminate.
  - injection Hl as ->. rewrite Htx. reflexivity.
  - rewrite (IH i Hl Htx). reflexivity.
Qed.

Lemma count_tx_delete (id : bytes32) (l : list Task) (i : nat) (t : Task) :
  l !! i = Some t ->
  count_tx id l
  = count_tx id (delete i l) + (if N.eqb (task_tx t) id then 1 else 0).
Proof.
  revert i. induction l as [|a l IH]; intros [|i] Hl; simpl in *;
    try discriminate.
  - injection Hl as ->. lia.
  - rewrite (IH i Hl). lia.
Qed.

(** At most one fetch task is in flight for [id], and when one is, [id]
    has its marker in [pending_tx_request]. *)
Definition single_flight (id : bytes32) (node : Node) : Prop :=
  in_flight id node <= 1 /\
  (0 < in_flight id node -> is_Some (pending_tx_request (store node) !! id)).

Lemma single_flight_initial (id : bytes32) : single_flight id initial_node.
Proof. unfold single_flight, in_flight; cbn. split; lia. Qed.

Lemma single_flight_step (id : bytes32) (ev : Event) (node : Node) :
  not_respond_for id ev = true ->
  single_flight id node -> single_flight id (step ev node).
Proof.
  intros Hev Inv. destruct ev as [env tx peer token|spend_name|env i o].
  - (* new_transaction *)
    clear Hev. cbn [step]. unfold new_transaction.
    assert (Hsame : single_flight id
              (mkNode (store node) (running node ++ []) (outbox node ++ []))).
    { rewrite !app_nil_r. destruct node; exact Inv. }
    destruct (sync_mode env); [exact Hsame|].
    destruct (negb (synced env)); [exact Hsame|].
    destruct (seen env (transaction_id tx)); [exact Hsame|].
    destruct (is_fee_enough env (fees tx) (cost tx)); [|exact Hsame].
    assert (Hpeers : forall f, single_flight id
              (mkNode (set_peers f (store node)) (running node ++ [])
                      (outbox node ++ []))).
    { intros f. unfold single_flight, in_flight in *; cbn.
      rewrite !app_nil_r. exact Inv. }
    destruct (pending_tx_request (store node) !! transaction_id tx) eqn:E.
    + destruct (peers_with_tx (store node) !! transaction_id tx).
      * destruct (bool_decide (peer ∈ g)); [exact Hsame|apply Hpeers].
      * apply Hpeers.
    + cbn. destruct Inv as [I1 I2].
      unfold single_flight, in_flight in *; cbn. rewrite count_tx_app. cbn.
      destruct (N.eqb_spec (transaction_id tx) id) as [<-|Hne].
      * rewrite lookup_insert_eq. split; [|eauto].
        destruct (decide (0 < count_tx (transaction_id tx) (running node)))
          as [Hpos|]; [|lia].
        apply I2 in Hpos. rewrite E in Hpos. destruct Hpos; discriminate.
      * rewrite lookup_insert_ne by assumption. split; [lia|].
        intros H. apply I2. lia.
  - (* respond_transaction for another id *)
    cbn in Hev. apply negb_true_iff, N.eqb_neq in Hev.
    destruct Inv as [I1 I2]. unfold single_flight, in_flight in *; cbn.
    rewrite lookup_delete_ne by assumption. split; assumption.
  - (* a task runs *)
    clear Hev. cbn [step].
    destruct (running node !! i) as [t|] eqn:Ei; [|exact Inv].
    destruct (resume env o t (store node)) as [[[status st'] out]|] eqn:Er;
      [|exact Inv].
    destruct Inv as [I1 I2]. unfold single_flight, in_flight in *.
    apply resume_ok in Er as [Er|(_ & _ & e & Er)].
    + destruct status as [t'|res]; cbn in Er.
      * destruct Er as (_ & Htx & Hp & _). cbn.
        rewrite (count_tx_insert id _ i t t' Ei Htx), Hp. split; assumption.
      * destruct Er as (Hp & _ & _ & _). cbn. rewrite Hp.
        pose proof (count_tx_delete id _ i t Ei) as Hd.
        destruct (N.eqb_spec (task_tx t) id) as [<-|Hne].
        -- split; [lia|]. intros H. lia.
        -- rewrite lookup_delete_ne by assumption. split; [lia|].
           intros H. apply I2. lia.
    + assert (status = Finished (Raised e) /\ st' = store node)
        as [-> ->] by (split; congruence). cbn.
      pose proof (count_tx_delete id _ i t Ei) as Hd.
      split; [lia|]. intros H. apply I2. lia.
Qed.

Lemma single_flight_run (id : bytes32) (trace : list Event) (node : Node) :
  forallb (not_respond_for id) trace = true ->
  single_flight id node -> single_flight id (run trace node).
Proof.
  revert node. induction trace as [|ev trace IH]; intros node Ht Inv;
    [exact Inv|].
  cbn in Ht. apply andb_true_iff in Ht as [H1 H2].
  cbn. apply IH; [exact H2|]. apply single_flight_step; assumption.
Qed.

(** ** Bounds on one task *)

(** The number of requests that a task can still send, and the number of
    resumptions after which it has finished at the latest. *)
Definition budget (t : Task) : nat :=
  match pc t with
  | Created => 10
  | AwaitSend _ => 10 - counter t
  | AwaitSleep => 10 - S (counter t)
  end.

Definition rank (t : Task) : nat :=
  match pc t with
  | Created => 21
  | AwaitSend _ => 2 * (10 - counter t)
  | AwaitSleep => 2 * (10 - counter t) - 1
  end.

(** A task waits in an [await] only while [counter] is below 10. *)
Definition valid (t : Task) : Prop :=
  match pc t with
  | Created => True
  | _ => counter t < 10
  end.

Definition requests_for (id : bytes32) (out : list Sent) : Prop :=
  Forall (fun m => m.2 = request_transaction id) out.

Lemma resume_progress (env : Env) (o : AwaitOutcome) (t t' : Task)
    (st st' : FullNodeStore) (out : list Sent) :
  valid t -> resume env o t st = Some (Suspended t', st', out) ->
  valid t' /\ length out + budget t' <= budget t /\ rank t' < rank t /\
  requests_for (task_tx t) out /\ pc t' <> Created.
Proof.
  unfold valid, budget, rank, resume, finish, requests_for.
  destruct t as [tid tx c p]; cbn [pc counter task_id task_tx].
  destruct p as [|peer|]; intros Hv H.
  - destruct o; try discriminate.
    apply fetch_loop_ok in H. destruct H as [_ (Hc & Hn & [q Hq] & ->)].
    cbn in Hc, Hn. rewrite Hq, Hc. cbn.
    repeat split; try lia; try discriminate. constructor.
  - destruct o; try discriminate. injection H as <- <- <-. cbn.
    repeat split; try lia; try discriminate. repeat constructor.
  - destruct o; try discriminate. destruct (seen env tx); [discriminate|].
    apply fetch_loop_ok in H. destruct H as [_ (Hc & Hn & [q Hq] & ->)].
    cbn in Hc, Hn. rewrite Hq, Hc. cbn.
    repeat split; try lia; try discriminate. constructor.
Qed.

Lemma rank_pos (t : Task) : valid t -> 0 < rank t.
Proof. unfold valid, rank. destruct (pc t); lia. Qed.

(** The first step of the schedule is one that a task which has not
    started can take: it starts its body. *)
Definition starts (sched : list Resumption) (t : Task) : Prop :=
  match pc t, sched with
  | Created, r :: _ => r_outcome r = Resumed
  | _, _ => True
  end.

Lemma run_task_spec (sched : list Resumption) (t : Task) (st : FullNodeStore) :
  valid t ->
  exists status st' out,
    run_task sched t st = Some (status, st', out) /\
    length out <= budget t /\
    requests_for (task_tx t) out /\
    (rank t <= length sched -> exists result, status = Finished result) /\
    (starts sched t ->
     forall result, status = Finished result ->
       peers_with_tx st' !! task_tx t = None /\
       pending_tx_request st' !! task_tx t = None /\
       tx_fetch_tasks st' !! task_id t = None).
Proof.
  revert t st. induction sched as [|r sched IH]; intros t st Hv.
  - exists (Suspended t), st, []. cbn. repeat split; try lia; try constructor.
    + pose proof (rank_pos t Hv). lia.
    + discriminate.
    + discriminate.
    + discriminate.
  - cbn [run_task].
    destruct (resume_total (r_env r) (r_outcome r) t (r_others r st))
      as [[[status st1] out1] Hr].
    rewrite Hr. pose proof (resume_ok _ _ _ _ _ Hr) as Hok.
    destruct status as [t'|res].
    + destruct (resume_progress _ _ _ _ _ _ _ Hv Hr)
        as (Hv' & Hb & Hrk & Hm & Hpc).
      destruct Hok as [Hok|(_ & _ & e & Hok)]; [|discriminate]. cbn in Hok.
      destruct Hok as (Hid & Htx & _ & _).
      destruct (IH t' st1 Hv') as (status & st2 & out2 & E & Hlen & Hm2 & Hfin & Habs).
      rewrite E. exists status, st2, (out1 ++ out2).
      split; [reflexivity|]. split; [rewrite length_app; lia|].
      split; [apply Forall_app; split; [exact Hm | rewrite <- Htx; exact Hm2]|].
      split; [intros Hlen'; apply Hfin; cbn in Hlen'; lia|].
      intros _. rewrite <- Htx, <- Hid. apply Habs.
      unfold starts. destruct (pc t'); [contradiction|exact I|exact I].
    + exists (Finished res), st1, out1. split; [reflexivity|].
      assert (Hout : out1 = []).
      { destruct Hok as [Hok|(_ & _ & e & Hok)]; [apply Hok|congruence]. }
      subst out1. split; [cbn; lia|]. split; [constructor|]. split; [eauto|].
      intros Hs ? _.
      destruct Hok as [Hok|(Hc & Ho & _)].
      * destruct Hok as (Hp & Ht & Hpe & _).
        rewrite Hp, Ht, !lookup_delete_eq. auto.
      * exfalso. apply Ho. unfold starts in Hs. rewrite Hc in Hs. exact Hs.
Qed.

(** C2 (amended): when the id of a NewTransaction that passes the checks
    already has its [pending_tx_request] marker, the handler only puts
    the peer into the fan-out set of the id: it returns [None], leaves
    the marker and the tasks alone, starts no fetch task and sends
    nothing.  Hence, for every id, in every run of the node in which no
    [respond_transaction] handler runs for this id (NewTransaction
    handlers, steps of fetch tasks, and [respond_transaction] for other
    ids, in any order), at most one fetch task is in flight for it. *)
Theorem C2_single_flight_fan_in :
  (forall (env : Env) (transaction : NewTransaction) (peer token : bytes32)
          (st : FullNodeStore),
     sync_mode env = false -> synced env = true ->
     seen env (transaction_id transaction) = false ->
     is_fee_enough env (fees transaction) (cost transaction) = true ->
     is_Some (pending_tx_request st !! transaction_id transaction) ->
     new_transaction env transaction peer token st
       = mkEffects (Returned None)
           (set_peers (insert (transaction_id transaction)
              (default ∅ (peers_with_tx st !! transaction_id transaction)
               ∪ {[peer]})) st)
           [] []) /\
  (forall (id : bytes32) (trace : list Event),
     forallb (not_respond_for id) trace = true ->
     in_flight id (run trace initial_node) <= 1).
Proof.
  split.
  - apply new_transaction_fan_in.
  - intros id trace Ht.
    apply (single_flight_run id trace initial_node Ht
             (single_flight_initial id)).
Qed.

Definition env_example : Env :=
  mkEnv false true (fun _ => false) (fun _ _ => true) true {[1%N; 2%N]}
        (fun _ => 0).

(** Peers 1 and 2 advertise transaction 9 one after the other: one task,
    and peer 2 in the fan-out set. *)
Lemma C2_single_flight_fan_in_witness :
  let transaction := mkNewTransaction 9%N 1000 5 in
  let st := store_after
              (new_transaction env_example transaction 1%N 100%N (mkStore ∅ ∅ ∅)) in
  new_transaction env_example transaction 2%N 101%N st
    = mkEffects (Returned None)
        (set_peers (insert 9%N (default ∅ (peers_with_tx st !! 9%N) ∪ {[2%N]})) st)
        [] [] /\
  in_flight 9%N
    (run [ev_new_transaction env_example transaction 1%N 100%N;
          ev_new_transaction env_example transaction 2%N 101%N] initial_node) <= 1.
Proof.
  cbv zeta. split.
  - apply (proj1 C2_single_flight_fan_in); try reflexivity.
    eexists. vm_compute. reflexivity.
  - apply (proj2 C2_single_flight_fan_in). reflexivity.
Defined.

(** C2, as stated, fails: peer 1 advertises transaction 9, the fetch task
    sends its request and sleeps; the answer of peer 1 arrives and
    [respond_transaction] removes the marker (the bundle is not admitted,
    so the mempool has still not seen it); peer 2 advertises the same
    transaction, and a second fetch task is created while the first one
    still sleeps. *)
Lemma C2_second_task_after_respond :
  let transaction := mkNewTransaction 9%N 1000 5 in
  let trace :=
    [ev_new_transaction env_example transaction 1%N 100%N;
     ev_resume env_example 0 Resumed;
     ev_resume env_example 0 Resumed;
     ev_respond_transaction 9%N;
     ev_new_transaction env_example transaction 2%N 101%N] in
  running (run trace initial_node)
    = [mkTask 100%N 9%N 0 AwaitSleep; mkTask 101%N 9%N 0 Created] /\
  in_flight 9%N (run trace initial_node) = 2 /\
  ~ in_flight 9%N (run trace initial_node) <= 1.
Proof.
  cbv zeta.
  assert (E : forall tr, tr = run
      [ev_new_transaction env_example (mkNewTransaction 9%N 1000 5) 1%N 100%N;
       ev_resume env_example 0 Resumed;
       ev_resume env_example 0 Resumed;
       ev_respond_transaction 9%N;
       ev_new_transaction env_example (mkNewTransaction 9%N 1000 5) 2%N 101%N]
      initial_node ->
      running tr = [mkTask 100%N 9%N 0 AwaitSleep; mkTask 101%N 9%N 0 Created]).
  { intros tr ->. vm_compute. reflexivity. }
  unfold in_flight. rewrite (E _ eq_refl). cbn.
  split; [reflexivity|]. split; [reflexivity|]. lia.
Qed.

(** A fetch task sends at most 10 requests, all of them for its
    transaction; it finishes after 21 resumptions at the latest; it ends
    as soon as it wakes up and the mempool has seen the transaction, and
    as soon as it reaches the head of its loop with no fan-out set or an
    empty one; and once its body has started, however it ends (the loop
    is left, an [await] is cancelled or raises, the assertion fails), the
    store it leaves has no [peers_with_tx] and no [pending_tx_request]
    entry for its transaction and no [tx_fetch_tasks] entry for its task
    id.  The store may be changed by the rest of the node whenever the
    task is suspended. *)
Theorem fetch_task_bounded_and_clean :
  (forall (sched : list Resumption) (tid txid : bytes32) (st : FullNodeStore),
     exists status st' out,
       run_task sched (mkTask tid txid 0 Created) st = Some (status, st', out) /\
       length out <= 10 /\
       requests_for txid out /\
       (21 <= length sched -> exists result, status = Finished result) /\
       (starts sched (mkTask tid txid 0 Created) ->
        forall result, status = Finished result ->
          peers_with_tx st' !! txid = None /\
          pending_tx_request st' !! txid = None /\
          tx_fetch_tasks st' !! tid = None)) /\
  (forall (env : Env) (tid txid : bytes32) (c : nat) (st : FullNodeStore),
     seen env txid = true ->
     resume env Resumed (mkTask tid txid c AwaitSleep) st
       = Some (Finished (Returned tt),
               cleanup (mkTask tid txid c AwaitSleep) st, [])) /\
  (forall (env : Env) (tid txid : bytes32) (c : nat) (st : FullNodeStore),
     default ∅ (peers_with_tx st !! txid) = ∅ ->
     resume env Resumed (mkTask tid txid 0 Created) st
       = Some (Finished (Returned tt), cleanup (mkTask tid txid 0 Created) st, [])
     /\
     (seen env txid = false ->
      resume env Resumed (mkTask tid txid c AwaitSleep) st
        = Some (Finished (Returned tt),
                cleanup (mkTask tid txid c AwaitSleep) st, []))).
Proof.
  split; [|split].
  - intros sched tid txid st.
    apply (run_task_spec sched (mkTask tid txid 0 Created) st). exact I.
  - intros env tid txid c st Hseen. unfold resume. cbn. rewrite Hseen.
    reflexivity.
  - intros env tid txid c st Hempty.
    assert (Hloop : forall t, task_tx t = txid ->
              fetch_loop (loop_bound t st) env t st
              = Some (finish t (Returned tt) st)).
    { intros t Ht. unfold loop_bound. cbn [fetch_loop].
      destruct (Nat.eqb (counter t) 10); [reflexivity|]. rewrite Ht.
      destruct (peers_with_tx st !! txid) as [peers|]; [|reflexivity].
      cbn in Hempty. rewrite Hempty. unfold set_pop.
      rewrite elements_empty. reflexivity. }
    split.
    + unfold resume. cbn [pc task_id task_tx]. rewrite Hloop by reflexivity.
      reflexivity.
    + intros Hseen. unfold resume. cbn [pc task_id task_tx counter].
      rewrite Hseen, Hloop by reflexivity. reflexivity.
Qed.

(** The task of the first advertisement of transaction 9 by peer 1: it
    starts, sends its request, sleeps, finds the fan-out set empty and
    ends, leaving a clean store. *)
Definition store_example : FullNodeStore :=
  mkStore {[ 9%N := 1%N ]} {[ 9%N := {[ 1%N ]} ]} {[ 100%N := 9%N ]}.

Definition sched_example : list Resumption :=
  [mkResumption env_example Resumed (fun st => st);
   mkResumption env_example Resumed (fun st => st);
   mkResumption env_example Resumed (fun st => st)].

Example run_task_example :
  run_task sched_example (mkTask 100 9 0 Created) store_example
  = Some (Finished (Returned tt), mkStore ∅ ∅ ∅, [(1%N, request_transaction 9)]).
Proof. vm_compute. reflexivity. Qed.

(** C3: the claim fails on a path that the [try] of the task misses.
    Peer 1 advertises transaction 9 and the handler creates the fetch
    task 100; the task is cancelled before it has taken its first step.
    It ends with [CancelledError], the body with its [finally] ("Always
    Cleanup") is never entered, and the entries of the transaction in
    [peers_with_tx] and [pending_tx_request] and the entry of the task in
    [tx_fetch_tasks] are still there when the task has finished. With the
    marker left behind, a later advertisement of the transaction by peer
    2 starts no fetch task. *)
Theorem C3_cancelled_before_first_step :
  let transaction := mkNewTransaction 9%N 1000 5 in
  let node :=
    run [ev_new_transaction env_example transaction 1%N 100%N;
         ev_resume env_example 0 Cancelled] initial_node in
  run_task [mkResumption env_example Cancelled (fun st => st)]
           (mkTask 100 9 0 Created) store_example
  = Some (Finished (Raised CancelledError), store_example, []) /\
  store node = store_example /\ running node = [] /\ outbox node = [] /\
  peers_with_tx (store node) !! 9%N = Some {[ 1%N ]} /\
  pending_tx_request (store node) !! 9%N = Some 1%N /\
  tx_fetch_tasks (store node) !! 100%N = Some 9%N /\
  spawned (new_transaction env_example transaction 2%N 101%N (store node)) = [].
Proof.
  cbv zeta.
  assert (E : run [ev_new_transaction env_example (mkNewTransaction 9%N 1000 5)
                     1%N 100%N;
                   ev_resume env_example 0 Cancelled] initial_node
              = mkNode store_example [] []).
  { vm_compute. reflexivity. }
  rewrite E. cbn [store running outbox].
  split; [reflexivity|]. split; [reflexivity|]. split; [reflexivity|].
  split; [reflexivity|]. split; [vm_compute; reflexivity|].
  split; [vm_compute; reflexivity|]. split; [vm_compute; reflexivity|].
  vm_compute. reflexivity.
Qed.

End TxGossip.

(** * Sub-slot catch-up: [new_signage_point_or_end_of_sub_slot] *)

Module SubSlotBackfill.
Local Open Scope Z_scope.

(** The fields of the protocol types that the handler reads. *)
Record VDFInfo := mkVDFInfo {
  challenge : bytes32;
  number_of_iterations : Z
}.

Record ChallengeChainSubSlot := mkChallengeChainSubSlot {
  challenge_chain_end_of_slot_vdf : VDFInfo
}.

Record RewardChainSubSlot := mkRewardChainSubSlot {
  end_of_slot_vdf : VDFInfo
}.

Record EndOfSubSlotBundle := mkEndOfSubSlotBundle {
  challenge_chain : ChallengeChainSubSlot;
  reward_chain : RewardChainSubSlot
}.

Record NewSignagePointOrEndOfSubSlot := mkNewSignagePointOrEndOfSubSlot {
  prev_challenge_hash : option bytes32;
  challenge_hash : bytes32;
  index_from_challenge : Z;
  last_rc_infusion : bytes32
}.

Record RequestSignagePointOrEndOfSubSlot := mkRequest {
  req_challenge_hash : bytes32;
  req_index_from_challenge : Z;
  req_last_rc_infusion : bytes32
}.

(** What [peer.request_signage_point_or_end_of_sub_slot] gives back: a
    [RespondEndOfSubSlot], or anything else (another message, [None]). *)
Inductive Response : Type :=
  | RespondEndOfSubSlot (end_of_slot_bundle : EndOfSubSlotBundle)
  | OtherResponse.

(** [make_msg(ProtocolMessageTypes.request_signage_point_or_end_of_sub_slot, r)]. *)
Inductive Message : Type :=
  | request_signage_point_or_end_of_sub_slot (r : RequestSignagePointOrEndOfSubSlot).

Inductive LogLine : Type :=
  | log_diverged            (* "Diverged from peer. Don't have the same blocks" *)
  | log_invalid_response    (* "Invalid response for slot ..." *)
  | log_failed_to_catch_up. (* "Failed to catch up in sub-slots" *)

(** The node and the peer as the handler meets them. The answer of the
    peer may depend on how many requests it has had before. *)
Record Env := mkEnv {
  sync_mode : bool;
  get_signage_point_by_index : bytes32 -> Z -> bytes32 -> bool;  (* is not None *)
  have_newer_signage_point : bytes32 -> Z -> bytes32 -> bool;
  get_sub_slot : bytes32 -> bool;                                  (* is not None *)
  GENESIS_CHALLENGE : bytes32;
  peer_response : nat -> RequestSignagePointOrEndOfSubSlot -> Response;
  respond_end_of_sub_slot : EndOfSubSlotBundle -> Outcome unit
}.

(** What a call of the handler has done when it ends: its result, the
    requests it made to the peer, the final value of [collected_eos], the
    bundles it passed to [respond_end_of_sub_slot], and what it logged. *)
Record Effects := mkEffects {
  reply : Outcome (option Message);
  requested : list RequestSignagePointOrEndOfSubSlot;
  collected_eos : list EndOfSubSlotBundle;
  replayed : list EndOfSubSlotBundle;
  logged : list LogLine
}.

Definition cc_challenge (eos : EndOfSubSlotBundle) : bytes32 :=
  challenge (challenge_chain_end_of_slot_vdf (challenge_chain eos)).

Definition rc_challenge (eos : EndOfSubSlotBundle) : bytes32 :=
  challenge (end_of_slot_vdf (reward_chain eos)).

(** A sub-slot with a block in it: the two chains have run for a
    different number of iterations. *)
Definition non_empty (eos : EndOfSubSlotBundle) : bool :=
  negb (number_of_iterations (challenge_chain_end_of_slot_vdf (challenge_chain eos))
        =? number_of_iterations (end_of_slot_vdf (reward_chain eos))).

(** The walk has reached a sub-slot of the store or the genesis. *)
Definition reconverged (env : Env) (eos : EndOfSubSlotBundle) : bool :=
  get_sub_slot env (cc_challenge eos)
  || N.eqb (cc_challenge eos) (GENESIS_CHALLENGE env).

(** [for eos in reversed(collected_eos): await self.respond_end_of_sub_slot(eos, peer)];
    [todo] is the reversed list. An exception ends the replay. *)
Fixpoint replay (env : Env) (todo : list EndOfSubSlotBundle)
    : Outcome (option Message) * list EndOfSubSlotBundle :=
  match todo with
  | [] => (Returned None, [])
  | eos :: todo' =>
      match respond_end_of_sub_slot env eos with
      | Raised e => (Raised e, [eos])
      | Returned _ =>
          let '(r, done) := replay env todo' in (r, eos :: done)
      end
  end.

(** The loop [for _ in range(30)], with [n] passes to go after [i]
    requests. *)
Fixpoint backfill (n i : nat) (env : Env)
    (requests : list RequestSignagePointOrEndOfSubSlot)
    (collected : list EndOfSubSlotBundle)
    (challenge_hash_to_request last_rc : bytes32)
    (num_non_empty_sub_slots_seen : nat) : Effects :=
  match n with
  | O => mkEffects (Returned None) requests collected [] [log_failed_to_catch_up]
  | S n' =>
      if (3 <=? num_non_empty_sub_slots_seen)%nat then
        mkEffects (Returned None) requests collected [] [log_diverged]
      else
        let full_node_request := mkRequest challenge_hash_to_request 0 last_rc in
        match peer_response env i full_node_request with
        | OtherResponse =>
            mkEffects (Returned None) (requests ++ [full_node_request])
                      collected [] [log_invalid_response]
        | RespondEndOfSubSlot eos =>
            let collected' := collected ++ [eos] in
            if reconverged env eos then
              let '(r, done) := replay env (rev collected') in
              mkEffects r (requests ++ [full_node_request]) collected' done []
            else
              backfill n' (S i) env (requests ++ [full_node_request]) collected'
                (cc_challenge eos) (rc_challenge eos)
                (if non_empty eos then S num_non_empty_sub_slots_seen
                 else num_non_empty_sub_slots_seen)
        end
  end.

Definition new_signage_point_or_end_of_sub_slot (env : Env)
    (new_sp : NewSignagePointOrEndOfSubSlot) : Effects :=
  let answer m := mkEffects (Returned m) [] [] [] [] in
  if sync_mode env then answer None
  else if get_signage_point_by_index env (challenge_hash new_sp)
            (index_from_challenge new_sp) (last_rc_infusion new_sp)
  then answer None
  else if have_newer_signage_point env (challenge_hash new_sp)
            (index_from_challenge new_sp) (last_rc_infusion new_sp)
  then answer None
  else
    let rest :=
      if (0 <? index_from_challenge new_sp)
         && negb (N.eqb (challenge_hash new_sp) (GENESIS_CHALLENGE env))
         && negb (get_sub_slot env (challenge_hash new_sp))
      then
        answer (Some (request_signage_point_or_end_of_sub_slot
                        (mkRequest (challenge_hash new_sp) 0 (last_rc_infusion new_sp))))
      else
        answer (Some (request_signage_point_or_end_of_sub_slot
                        (mkRequest (challenge_hash new_sp) (index_from_challenge new_sp)
                                   (last_rc_infusion new_sp))))
    in
    match index_from_challenge new_sp =? 0, prev_challenge_hash new_sp with
    | true, Some prev =>
        if get_sub_slot env prev then rest
        else backfill 30 0 env [] [] (challenge_hash new_sp)
                      (last_rc_infusion new_sp) 0
    | _, _ => rest
    end.

(** The number of non-empty sub-slots among [l]. *)
Fixpoint count_non_empty (l : list EndOfSubSlotBundle) : nat :=
  match l with
  | [] => 0
  | eos :: l' => (if non_empty eos then 1 else 0) + count_non_empty l'
  end.

Lemma count_non_empty_app (l1 l2 : list EndOfSubSlotBundle) :
  count_non_empty (l1 ++ l2) = (count_non_empty l1 + count_non_empty l2)%nat.
Proof. induction l1 as [|a l1 IH]; simpl; [reflexivity|]. rewrite IH. lia. Qed.

Lemma replay_all (env : Env) (todo : list EndOfSubSlotBundle) :
  (forall eos, exists u, respond_end_of_sub_slot env eos = Returned u) ->
  replay env todo = (Returned None, todo).
Proof.
  intros Hok. induction todo as [|eos todo IH]; simpl; [reflexivity|].
  destruct (Hok eos) as [u ->]. rewrite IH. reflexivity.
Qed.

(** What the loop has done when it ends, whatever the peer answers. *)
Definition backfill_result (env : Env) (n : nat)
    (requests : list RequestSignagePointOrEndOfSubSlot)
    (collected : list EndOfSubSlotBundle) (eff : Effects) : Prop :=
  reply eff = Returned None /\
  (exists more, requested eff = requests ++ more /\ (length more <= n)%nat /\
                Forall (fun r => req_index_from_challenge r = 0) more) /\
  (replayed eff = [] \/ replayed eff = rev (collected_eos eff)) /\
  (replayed eff <> [] ->
     exists c last, collected_eos eff = c ++ [last] /\
       reconverged env last = true /\ (count_non_empty c < 3)%nat) /\
  (forall c last, collected_eos eff = c ++ [last] ->
     reconverged env last = true -> replayed eff = rev (collected_eos eff)).

Lemma backfill_spec (env : Env) (n i : nat)
    (requests : list RequestSignagePointOrEndOfSubSlot)
    (collected : list EndOfSubSlotBundle) (ch rc : bytes32) (num : nat) :
  (forall eos, exists u, respond_end_of_sub_slot env eos = Returned u) ->
  num = count_non_empty collected ->
  Forall (fun eos => reconverged env eos = false) collected ->
  backfill_result env n requests collected
    (backfill n i env requests collected ch rc num).
Proof.
  intros Hok. revert i requests collected ch rc num.
  assert (Hstop : forall m requests more collected lg,
            (length more <= m)%nat ->
            Forall (fun r => req_index_from_challenge r = 0) more ->
            Forall (fun eos => reconverged env eos = false) collected ->
            backfill_result env m requests collected
              (mkEffects (Returned None) (requests ++ more) collected [] lg)).
  { intros m requests more collected lg Hlen Hidx Hnone.
    unfold backfill_result; simpl. split; [reflexivity|].
    split; [exists more; auto|]. split; [left; reflexivity|].
    split; [congruence|]. intros c last -> Hr.
    apply Forall_app in Hnone as [_ Hlast].
    apply Forall_cons in Hlast as [Hlast _]. congruence. }
  assert (Hstop0 : forall m requests collected lg,
            Forall (fun eos => reconverged env eos = false) collected ->
            backfill_result env m requests collected
              (mkEffects (Returned None) requests collected [] lg)).
  { intros m requests collected lg Hnone.
    pose proof (Hstop m requests [] collected lg) as H.
    rewrite app_nil_r in H. apply H; [simpl; lia | constructor | exact Hnone]. }
  induction n as [|n IH]; intros i requests collected ch rc num Hnum Hnone.
  - cbn [backfill]. apply Hstop0, Hnone.
  - cbn [backfill]. destruct (Nat.leb_spec 3 num) as [Hge|Hlt].
    + apply Hstop0, Hnone.
    + cbv zeta. destruct (peer_response env i (mkRequest ch 0 rc)) as [eos|].
      2:{ apply Hstop; [simpl; lia | repeat constructor | exact Hnone]. }
      destruct (reconverged env eos) eqn:Hrec.
      * rewrite replay_all by exact Hok.
        unfold backfill_result; simpl. split; [reflexivity|].
        split; [exists [mkRequest ch 0 rc]; simpl; repeat split;
                [lia | repeat constructor]|].
        split; [right; reflexivity|].
        split; [intros _; exists collected, eos; repeat split; [exact Hrec | lia]|].
        intros; reflexivity.
      * specialize (IH (S i) (requests ++ [mkRequest ch 0 rc])
                       (collected ++ [eos]) (cc_challenge eos) (rc_challenge eos)
                       (if non_empty eos then S num else num)).
        destruct IH as (R1 & (more & R2 & R2' & R2'') & R3 & R4 & R5).
        { rewrite count_non_empty_app; simpl. destruct (non_empty eos); lia. }
        { apply Forall_app; split; [exact Hnone | repeat constructor; exact Hrec]. }
        unfold backfill_result. split; [exact R1|].
        split; [|auto].
        exists (mkRequest ch 0 rc :: more). rewrite R2, <- app_assoc. simpl.
        repeat split; [lia|]. constructor; [reflexivity | exact R2''].
Qed.

(** How the requests [reqs] and the bundles [col] of a walk hang
    together with the answers of the peer: the walk has [n] passes left,
    the peer had [i] requests before, [num] non-empty sub-slots were seen
    before, and the next request is for [ch] and [rc]. *)
Definition walk_trace (env : Env) (n i num : nat) (ch rc : bytes32)
    (reqs : list RequestSignagePointOrEndOfSubSlot)
    (col : list EndOfSubSlotBundle) (replayed : list EndOfSubSlotBundle)
    : Prop :=
  ((n = 0 \/ 3 <= num)%nat -> reqs = [] /\ col = []) /\
  ((0 < n /\ num < 3)%nat -> exists rest, reqs = mkRequest ch 0 rc :: rest) /\
  (forall j e, col !! j = Some e ->
     exists r, reqs !! j = Some r /\
       peer_response env (i + j) r = RespondEndOfSubSlot e /\
       forall r', reqs !! S j = Some r' ->
         r' = mkRequest (cc_challenge e) 0 (rc_challenge e)) /\
  (length col <= length reqs <= S (length col))%nat /\
  (forall r, reqs !! length col = Some r ->
     peer_response env (i + length col) r = OtherResponse /\ replayed = []) /\
  (forall j e, col !! j = Some e -> (S j < length reqs)%nat ->
     reconverged env e = false /\
     (num + count_non_empty (take (S j) col) < 3)%nat) /\
  (length reqs = length col -> col <> [] ->
     exists c last, col = c ++ [last] /\
       (reconverged env last = true \/
        (3 <= num + count_non_empty col)%nat \/ length col = n)).

Lemma walk_trace_nil (env : Env) (n i num : nat) (ch rc : bytes32)
    (replayed : list EndOfSubSlotBundle) :
  (n = 0 \/ 3 <= num)%nat -> walk_trace env n i num ch rc [] [] replayed.
Proof.
  intros Hstop. unfold walk_trace.
  split; [intros _; split; reflexivity|].
  split; [intros [H1 H2]; lia|].
  split; [intros j e H; rewrite lookup_nil in H; discriminate|].
  split; [cbn; lia|].
  split; [intros r H; rewrite lookup_nil in H; discriminate|].
  split; [intros j e H; rewrite lookup_nil in H; discriminate|].
  intros _ H. contradiction.
Qed.

Lemma backfill_trace (env : Env) (n : nat) :
  forall i requests collected ch rc num,
    exists reqs col,
      requested (backfill n i env requests collected ch rc num)
      = requests ++ reqs /\
      collected_eos (backfill n i env requests collected ch rc num)
      = collected ++ col /\
      walk_trace env n i num ch rc reqs col
        (replayed (backfill n i env requests collected ch rc num)).
Proof.
  induction n as [|n IH]; intros i requests collected ch rc num.
  - exists [], []. cbn. rewrite !app_nil_r.
    split; [reflexivity|]. split; [reflexivity|].
    apply walk_trace_nil. now left.
  - cbn [backfill]. destruct (Nat.leb_spec 3 num) as [Hge|Hlt].
    { exists [], []. cbn. rewrite !app_nil_r.
      split; [reflexivity|]. split; [reflexivity|].
      apply walk_trace_nil. now right. }
    cbv zeta.
    destruct (peer_response env i (mkRequest ch 0 rc)) as [eos|] eqn:Ep.
    2:{ exists [mkRequest ch 0 rc], []. cbn. rewrite app_nil_r.
        split; [reflexivity|]. split; [reflexivity|]. unfold walk_trace.
        split; [intros [H|H]; [discriminate|lia]|].
        split; [intros _; eauto|].
        split; [intros j e H; try rewrite lookup_nil in H; discriminate|].
        split; [cbn; lia|].
        split; [intros r H; cbn in H; injection H as <-;
                rewrite Nat.add_0_r; split; [exact Ep|reflexivity]|].
        split; [intros j e H; try rewrite lookup_nil in H; discriminate|].
        intros H. cbn in H. discriminate. }
    destruct (reconverged env eos) eqn:Hrec.
    + destruct (replay env (rev (collected ++ [eos]))) as [r done].
      exists [mkRequest ch 0 rc], [eos]. cbn.
      split; [reflexivity|]. split; [reflexivity|]. unfold walk_trace.
      split; [intros [H|H]; [discriminate|lia]|].
      split; [intros _; eauto|].
      split.
      { intros [|j] e H; cbn in H; [|try rewrite lookup_nil in H; discriminate].
        injection H as <-. exists (mkRequest ch 0 rc).
        rewrite Nat.add_0_r. split; [reflexivity|]. split; [exact Ep|].
        intros r' H'. cbn in H'. try rewrite lookup_nil in H'. discriminate. }
      split; [cbn; lia|].
      split; [intros r' H; cbn in H; try rewrite lookup_nil in H; discriminate|].
      split; [intros j e _ H; cbn in H; lia|].
      intros _ _. exists [], eos. split; [reflexivity|]. left. exact Hrec.
    + destruct (IH (S i) (requests ++ [mkRequest ch 0 rc])
                   (collected ++ [eos]) (cc_challenge eos) (rc_challenge eos)
                   (if non_empty eos then S num else num))
        as (reqs & col & R1 & R2 & W).
      exists (mkRequest ch 0 rc :: reqs), (eos :: col).
      rewrite R1, R2, <- !app_assoc.
      split; [reflexivity|]. split; [reflexivity|].
      revert W.
      generalize (replayed
                    (backfill n (S i) env (requests ++ [mkRequest ch 0 rc])
                       (collected ++ [eos]) (cc_challenge eos)
                       (rc_challenge eos)
                       (if non_empty eos then S num else num))).
      intros rp (W1 & W2 & W3 & W4 & W5 & W6 & W7).
      set (num' := if non_empty eos then S num else num) in *.
      assert (Hnum : num' = (num + (if non_empty eos then 1 else 0))%nat)
        by (subst num'; destruct (non_empty eos); lia).
      assert (Hgo : reqs <> [] -> (0 < n /\ num' < 3)%nat).
      { intros Hne. destruct (Nat.eq_dec n 0%nat) as [Hn|Hn].
        - destruct (W1 (or_introl Hn)). contradiction.
        - destruct (Nat.le_gt_cases 3%nat num') as [Hn'|Hn']; [|lia].
          destruct (W1 (or_intror Hn')). contradiction. }
      unfold walk_trace.
      split; [intros [H|H]; [discriminate|lia]|].
      split; [intros _; eauto|].
      split.
      { intros [|j] e H; cbn in H.
        - injection H as <-. exists (mkRequest ch 0 rc).
          rewrite Nat.add_0_r. split; [reflexivity|]. split; [exact Ep|].
          intros r' H'. cbn in H'.
          destruct reqs as [|r0 reqs']; [discriminate|].
          destruct (W2 (Hgo ltac:(discriminate))) as [rest Hrest].
          cbn in H'. congruence.
        - destruct (W3 j e H) as (r & Hr & Hp & Hnext).
          exists r. split; [exact Hr|]. split; [|exact Hnext].
          replace (i + S j)%nat with (S i + j)%nat by lia. exact Hp. }
      split; [cbn; lia|].
      split.
      { intros r H. cbn in H.
        replace (i + length (eos :: col))%nat with (S i + length col)%nat
          by (cbn; lia).
        apply W5, H. }
      split.
      { intros [|j] e H Hlen; cbn in H.
        - injection H as <-. split; [exact Hrec|].
          cbn in Hlen. assert (Hne : reqs <> [])
            by (destruct reqs; [cbn in Hlen; lia|discriminate]).
          destruct (Hgo Hne) as [_ Hlt']. cbn [take count_non_empty].
          rewrite take_0. cbn [count_non_empty]. lia.
        - cbn in Hlen. destruct (W6 j e H ltac:(lia)) as [Hr Hc].
          split; [exact Hr|]. cbn [take count_non_empty]. lia. }
      intros Hlen _. cbn in Hlen.
      assert (Hlen' : length reqs = length col) by lia.
      destruct col as [|e0 col'].
      * destruct reqs; [|discriminate].
        exists [], eos. split; [reflexivity|]. right.
        destruct (Nat.eq_dec n 0%nat) as [Hn|Hn]; [right; cbn; lia|].
        left. cbn [count_non_empty].
        assert (Hgo' : ~ (0 < n /\ num' < 3)%nat).
        { intros Hc. destruct (W2 Hc) as [rest Hrest]. discriminate. }
        lia.
      * destruct (W7 Hlen' ltac:(discriminate)) as (c & last & Hc & Hreason).
        exists (eos :: c), last. rewrite Hc. split; [reflexivity|].
        rewrite <- Hc.
        destruct Hreason as [H|[H|H]]; [left; exact H| |].
        -- right. left. cbn [count_non_empty] in *. lia.
        -- right. right. cbn [length] in *. lia.
Qed.

(** The handler has ended at one of its first three checks. *)
Ltac split_and_drop Hdrop :=
  destruct (Hdrop _ eq_refl) as (D1 & D2 & D3 & D4 & D5 & D6 & D7);
  repeat (split; [assumption|]); intros; discriminate.

(** C4: a NewSignagePointOrEndOfSubSlot with index 0 whose previous
    challenge has no sub-slot in the store makes the handler walk back
    with the peer (unless one of the first three checks ends it at once).
    It sends at most 30 requests, all with index 0; it returns [None],
    never a request for the original message; the bundles it hands to
    [respond_end_of_sub_slot] are either none or all the collected ones,
    last collected (oldest) first; it replays exactly when the last
    bundle it received has reached the store or the genesis, and never
    when 3 or more non-empty sub-slots were seen before that bundle.
    When the three checks pass, the walk is this one: the first request
    is for the challenge and the reward chain hash of the message, and
    every further one for those of the bundle received last; the
    collected bundles are the answers of the peer to the requests, in
    order; an answer that is no bundle ends the handler with nothing
    replayed; the handler asks again only after a bundle that has not
    reached the store or the genesis and with fewer than 3 non-empty
    sub-slots seen; and it stops after a bundle only when that bundle
    has reached the store or the genesis, or 3 non-empty sub-slots have
    been seen, or 30 requests have been made. *)
Theorem C4_backfill_loop (env : Env) (new_sp : NewSignagePointOrEndOfSubSlot)
    (prev : bytes32) :
  index_from_challenge new_sp = 0 ->
  prev_challenge_hash new_sp = Some prev ->
  get_sub_slot env prev = false ->
  (forall eos, exists u, respond_end_of_sub_slot env eos = Returned u) ->
  let eff := new_signage_point_or_end_of_sub_slot env new_sp in
  reply eff = Returned None /\
  (length (requested eff) <= 30)%nat /\
  Forall (fun r => req_index_from_challenge r = 0) (requested eff) /\
  (replayed eff = [] \/ replayed eff = rev (collected_eos eff)) /\
  (replayed eff <> [] ->
     exists c last, collected_eos eff = c ++ [last] /\
       reconverged env last = true /\ (count_non_empty c < 3)%nat) /\
  ((3 <= count_non_empty (removelast (collected_eos eff)))%nat ->
     replayed eff = []) /\
  (forall c last, collected_eos eff = c ++ [last] ->
     reconverged env last = true -> replayed eff = rev (collected_eos eff)) /\
  (sync_mode env = false ->
   get_signage_point_by_index env (challenge_hash new_sp)
     (index_from_challenge new_sp) (last_rc_infusion new_sp) = false ->
   have_newer_signage_point env (challenge_hash new_sp)
     (index_from_challenge new_sp) (last_rc_infusion new_sp) = false ->
   (exists rest,
      requested eff
      = mkRequest (challenge_hash new_sp) 0 (last_rc_infusion new_sp) :: rest) /\
   (forall j e, collected_eos eff !! j = Some e ->
      exists r, requested eff !! j = Some r /\
        peer_response env j r = RespondEndOfSubSlot e /\
        forall r', requested eff !! S j = Some r' ->
          r' = mkRequest (cc_challenge e) 0 (rc_challenge e)) /\
   (length (collected_eos eff) <= length (requested eff)
    <= S (length (collected_eos eff)))%nat /\
   (forall r, requested eff !! length (collected_eos eff) = Some r ->
      peer_response env (length (collected_eos eff)) r = OtherResponse /\
      replayed eff = []) /\
   (forall j e, collected_eos eff !! j = Some e ->
      (S j < length (requested eff))%nat ->
      reconverged env e = false /\
      (count_non_empty (take (S j) (collected_eos eff)) < 3)%nat) /\
   (length (requested eff) = length (collected_eos eff) ->
      exists c last, collected_eos eff = c ++ [last] /\
        (reconverged env last = true \/
         (3 <= count_non_empty (collected_eos eff))%nat \/
         length (collected_eos eff) = 30%nat))).
Proof.
  intros Hidx Hprev Hslot Hok eff.
  assert (Hdrop : forall e, e = mkEffects (Returned None) [] [] [] [] ->
            reply e = Returned None /\
            (length (requested e) <= 30)%nat /\
            Forall (fun r => req_index_from_challenge r = 0) (requested e) /\
            (replayed e = [] \/ replayed e = rev (collected_eos e)) /\
            (replayed e <> [] ->
               exists c last, collected_eos e = c ++ [last] /\
                 reconverged env last = true /\ (count_non_empty c < 3)%nat) /\
            ((3 <= count_non_empty (removelast (collected_eos e)))%nat ->
               replayed e = []) /\
            (forall c last, collected_eos e = c ++ [last] ->
               reconverged env last = true -> replayed e = rev (collected_eos e))).
  { intros e ->. simpl. repeat split; try (left; reflexivity);
      try constructor; try lia; try congruence. }
  subst eff. unfold new_signage_point_or_end_of_sub_slot.
  destruct (sync_mode env);
    [split_and_drop Hdrop|].
  destruct (get_signage_point_by_index env _ _ _);
    [split_and_drop Hdrop|].
  destruct (have_newer_signage_point env _ _ _);
    [split_and_drop Hdrop|].
  rewrite Hidx, Hprev, Hslot. simpl (0 =? 0). cbv iota beta.
  destruct (backfill_spec env 30 0 [] [] (challenge_hash new_sp)
              (last_rc_infusion new_sp) 0 Hok eq_refl ltac:(constructor))
    as (R1 & (more & R2 & R2' & R2'') & R3 & R4 & R5).
  destruct (backfill_trace env 30 0 [] [] (challenge_hash new_sp)
              (last_rc_infusion new_sp) 0)
    as (reqs & col & T1 & T2 & W1 & W2 & W3 & W4 & W5 & W6 & W7).
  change ([] ++ reqs) with reqs in T1. change ([] ++ col) with col in T2.
  split; [exact R1|].
  split; [rewrite R2; change ([] ++ more) with more; exact R2'|].
  split; [rewrite R2; change ([] ++ more) with more; exact R2''|].
  split; [exact R3|]. split; [exact R4|].
  split.
  { intros Hcount.
    destruct (replayed (backfill 30 0 env [] [] (challenge_hash new_sp)
                          (last_rc_infusion new_sp) 0)) eqn:E; [reflexivity|].
    destruct R4 as (c & last & Hc & _ & Hlt); [discriminate|].
    rewrite Hc, removelast_last in Hcount. lia. }
  split; [exact R5|].
  intros _ _ _. rewrite T1, T2.
  split; [apply W2; split; lia|].
  split; [exact W3|]. split; [exact W4|]. split; [exact W5|].
  split; [exact W6|].
  intros Hlen.
  assert (Hne : col <> []).
  { destruct (W2 ltac:(split; lia)) as [rest Hrest].
    intros ->. rewrite Hrest in Hlen. cbn in Hlen. discriminate. }
  exact (W7 Hlen Hne).
Qed.

(** A peer whose first bundle is new and whose second bundle ends at
    challenge 50, which the store has. *)
Definition eos_example (cc_ch rc_ch : bytes32) (cc_iters rc_iters : Z)
    : EndOfSubSlotBundle :=
  mkEndOfSubSlotBundle
    (mkChallengeChainSubSlot (mkVDFInfo cc_ch cc_iters))
    (mkRewardChainSubSlot (mkVDFInfo rc_ch rc_iters)).

Definition env_example : Env :=
  mkEnv false (fun _ _ _ => false) (fun _ _ _ => false)
        (fun h => N.eqb h 50) 0%N
        (fun i _ => match i with
                    | O => RespondEndOfSubSlot (eos_example 60 61 100 100)
                    | _ => RespondEndOfSubSlot (eos_example 50 51 100 70)
                    end)
        (fun _ => Returned tt).

Definition new_sp_example : NewSignagePointOrEndOfSubSlot :=
  mkNewSignagePointOrEndOfSubSlot (Some 70%N) 80%N 0 81%N.

Example backfill_example :
  new_signage_point_or_end_of_sub_slot env_example new_sp_example
  = mkEffects (Returned None)
      [mkRequest 80 0 81; mkRequest 60 0 61]
      [eos_example 60 61 100 100; eos_example 50 51 100 70]
      [eos_example 50 51 100 70; eos_example 60 61 100 100]
      [].
Proof. reflexivity. Qed.

Lemma C4_backfill_loop_witness :
  let new_sp := new_sp_example in
  let eff := new_signage_point_or_end_of_sub_slot env_example new_sp in
  reply eff = Returned None /\
  (length (requested eff) <= 30)%nat /\
  Forall (fun r => req_index_from_challenge r = 0) (requested eff) /\
  (replayed eff = [] \/ replayed eff = rev (collected_eos eff)) /\
  (replayed eff <> [] ->
     exists c last, collected_eos eff = c ++ [last] /\
       reconverged env_example last = true /\ (count_non_empty c < 3)%nat) /\
  ((3 <= count_non_empty (removelast (collected_eos eff)))%nat ->
     replayed eff = []) /\
  (forall c last, collected_eos eff = c ++ [last] ->
     reconverged env_example last = true -> replayed eff = rev (collected_eos eff)) /\
  (sync_mode env_example = false ->
   get_signage_point_by_index env_example (challenge_hash new_sp)
     (index_from_challenge new_sp) (last_rc_infusion new_sp) = false ->
   have_newer_signage_point env_example (challenge_hash new_sp)
     (index_from_challenge new_sp) (last_rc_infusion new_sp) = false ->
   (exists rest,
      requested eff
      = mkRequest (challenge_hash new_sp) 0 (last_rc_infusion new_sp) :: rest) /\
   (forall j e, collected_eos eff !! j = Some e ->
      exists r, requested eff !! j = Some r /\
        peer_response env_example j r = RespondEndOfSubSlot e /\
        forall r', requested eff !! S j = Some r' ->
          r' = mkRequest (cc_challenge e) 0 (rc_challenge e)) /\
   (length (collected_eos eff) <= length (requested eff)
    <= S (length (collected_eos eff)))%nat /\
   (forall r, requested eff !! length (collected_eos eff) = Some r ->
      peer_response env_example (length (collected_eos eff)) r = OtherResponse /\
      replayed eff = []) /\
   (forall j e, collected_eos eff !! j = Some e ->
      (S j < length (requested eff))%nat ->
      reconverged env_example e = false /\
      (count_non_empty (take (S j) (collected_eos eff)) < 3)%nat) /\
   (length (requested eff) = length (collected_eos eff) ->
      exists c last, collected_eos eff = c ++ [last] /\
        (reconverged env_example last = true \/
         (3 <= count_non_empty (collected_eos eff))%nat \/
         length (collected_eos eff) = 30%nat))).
Proof.
  apply (C4_backfill_loop env_example new_sp_example 70%N);
    try reflexivity.
  intros eos. exists tt. reflexivity.
Defined.

(** A peer on another chain: every bundle is non-empty and unknown. The
    handler gives up after the third one, with nothing replayed. *)
Example backfill_diverged :
  let env := mkEnv false (fun _ _ _ => false) (fun _ _ _ => false)
               (fun _ => false) 0%N
               (fun i _ => RespondEndOfSubSlot
                             (eos_example (N.of_nat i + 100) 7 100 70))
               (fun _ => Returned tt) in
  let eff := new_signage_point_or_end_of_sub_slot env new_sp_example in
  reply eff = Returned None /\ length (requested eff) = 3%nat /\
  replayed eff = [] /\ logged eff = [log_diverged].
Proof. cbv zeta. repeat split; reflexivity. Qed.

(** A peer that keeps sending empty unknown sub-slots is asked 30 times. *)
Example backfill_exhausted :
  let env := mkEnv false (fun _ _ _ => false) (fun _ _ _ => false)
               (fun _ => false) 0%N
               (fun i _ => RespondEndOfSubSlot
                             (eos_example (N.of_nat i + 100) 7 100 100))
               (fun _ => Returned tt) in
  let eff := new_signage_point_or_end_of_sub_slot env new_sp_example in
  reply eff = Returned None /\ length (requested eff) = 30%nat /\
  replayed eff = [] /\ logged eff = [log_failed_to_catch_up].
Proof. cbv zeta. repeat split; vm_compute; reflexivity. Qed.

End SubSlotBackfill.

(** * Candidate blocks: [declare_proof_of_space] and [signed_values] *)

Module CandidateBlocks.
Local Open Scope Z_scope.

(** ** Data *)

(** Opaque values (signatures, keys, coins, generators) are represented
    by a number; [G2Element()] is the default signature. *)
Abbreviation G2Element := N (only parsing).
Definition G2Element_default : G2Element := 0%N.
Abbreviation Coin := N (only parsing).
Abbreviation BlockGenerator := N (only parsing).

(** [VDFInfo]; [output_hash] is [output.get_hash()]. *)
Record VDFInfo := mkVDFInfo {
  challenge : bytes32;
  output_hash : bytes32
}.

(** [SignagePoint]: the two VDF infos (the proofs are not read here). *)
Record SignagePoint := mkSignagePoint {
  cc_vdf : option VDFInfo;
  rc_vdf : option VDFInfo
}.

(** [EndOfSubSlotBundle], with the paths the handler follows:
    [reward_chain.end_of_slot_vdf.challenge], [reward_chain.get_hash()],
    [challenge_chain.new_difficulty], [challenge_chain.new_sub_slot_iters]. *)
Record EndOfSubSlotBundle := mkEndOfSubSlotBundle {
  rc_end_of_slot_challenge : bytes32;
  reward_chain_hash : bytes32;
  new_difficulty : option Z;
  new_sub_slot_iters : option Z
}.

#[export] Instance EndOfSubSlotBundle_eq_dec : EqDecision EndOfSubSlotBundle.
Proof. solve_decision. Defined.

Record BlockRecord := mkBlockRecord {
  header_hash : bytes32;
  prev_hash : bytes32;
  height : Z;
  weight : Z;
  br_sub_slot_iters : Z;
  is_transaction_block : bool;
  br_timestamp : option Z;
  reward_infusion_new_challenge : bytes32;
  finished_reward_slot_hashes : option (list bytes32)
}.

Record PoolTarget := mkPoolTarget {
  puzzle_hash : bytes32;
  max_height : Z
}.

Record ProofOfSpace := mkProofOfSpace {
  size : Z;
  pool_contract_puzzle_hash : option bytes32;
  plot_public_key : N
}.

Record SpendBundle := mkSpendBundle {
  bundle_id : N;
  aggregated_signature : G2Element
}.

(** [farmer_protocol.DeclareProofOfSpace]. *)
Record DeclareProofOfSpace := mkDeclareProofOfSpace {
  challenge_hash : bytes32;
  challenge_chain_sp : bytes32;
  signage_point_index : Z;
  reward_chain_sp : bytes32;
  proof_of_space : ProofOfSpace;
  challenge_chain_sp_signature : G2Element;
  reward_chain_sp_signature : G2Element;
  farmer_puzzle_hash : bytes32;
  pool_target : option PoolTarget;
  pool_signature : option G2Element
}.

(** [farmer_protocol.SignedValues]. *)
Record SignedValues := mkSignedValues {
  sv_quality_string : bytes32;
  sv_foliage_block_data_signature : G2Element;
  sv_foliage_transaction_block_signature : G2Element
}.

(** The arguments of [create_unfinished_block] that vary from call to
    call. [signatures_of] stands for the two closures [get_plot_sig] and
    [get_pool_sig], which read the signatures of the request. *)
Record BlockArgs := mkBlockArgs {
  a_total_iters_pos_slot : Z;
  a_sub_slot_iters : Z;
  a_signage_point_index : Z;
  a_sp_iters : Z;
  a_ip_iters : Z;
  a_proof_of_space : ProofOfSpace;
  a_cc_challenge_hash : bytes32;
  a_farmer_ph : bytes32;
  a_pool_target : PoolTarget;
  a_signatures_of : DeclareProofOfSpace;
  a_sp_vdfs : SignagePoint;
  a_timestamp : Z;
  a_block_generator : option BlockGenerator;
  a_aggregate_signature : G2Element;
  a_additions : option (list Coin);
  a_removals : option (list Coin);
  a_prev_b : option BlockRecord;
  a_finished_sub_slots : list EndOfSubSlotBundle
}.

(** [UnfinishedBlock], with what the two handlers read and replace:
    [is_transaction_block()], [transactions_generator],
    [foliage.foliage_block_data.get_hash()],
    [foliage.foliage_transaction_block_hash], the two signatures of the
    foliage and [reward_chain_block.proof_of_space.plot_public_key]. *)
Record UnfinishedBlock := mkUnfinishedBlock {
  ub_is_transaction_block : bool;
  transactions_generator : option BlockGenerator;
  foliage_block_data_hash : bytes32;
  foliage_transaction_block_hash : option bytes32;
  foliage_block_data_signature : G2Element;
  foliage_transaction_block_signature : option G2Element;
  ub_plot_public_key : N
}.

(** [farmer_protocol.RequestSignedValues], the only message sent. *)
Record RequestSignedValues := mkRequestSignedValues {
  rsv_quality_string : bytes32;
  rsv_foliage_block_data_hash : bytes32;
  rsv_foliage_transaction_block_hash : option bytes32
}.

Inductive Message : Type :=
  | request_signed_values (m : RequestSignedValues).

(** ** The candidate store *)

(** Modelled from the spec: the methods [add_candidate_block] and
    [get_candidate_block] of [full_node_store] are not among the sources.
    The specification keeps the candidates "keyed by quality string, with
    backup-block fallback", the height being stored with the block; that
    is one dictionary for the primary candidates and one for the backups,
    from the quality string to the pair of height and block. *)
Record CandidateStore := mkCandidateStore {
  candidate_blocks : gmap bytes32 (Z * UnfinishedBlock);
  candidate_backup_blocks : gmap bytes32 (Z * UnfinishedBlock)
}.

Definition add_candidate_block (quality_string : bytes32) (height : Z)
    (unfinished_block : UnfinishedBlock) (backup : bool) (st : CandidateStore)
    : CandidateStore :=
  if backup then
    mkCandidateStore (candidate_blocks st)
      (<[quality_string := (height, unfinished_block)]> (candidate_backup_blocks st))
  else
    mkCandidateStore
      (<[quality_string := (height, unfinished_block)]> (candidate_blocks st))
      (candidate_backup_blocks st).

Definition get_candidate_block (quality_string : bytes32) (backup : bool)
    (st : CandidateStore) : option (Z * UnfinishedBlock) :=
  if backup then candidate_backup_blocks st !! quality_string
  else candidate_blocks st !! quality_string.

(** ** The node around the handlers *)

Record Env := mkEnv {
  sync_mode : bool;
  get_signage_point : bytes32 -> option SignagePoint;
  get_sub_slot : bytes32 -> option (EndOfSubSlotBundle * Z * Z);
  finished_sub_slots : list (option EndOfSubSlotBundle);
  get_finished_sub_slots :
    option BlockRecord -> bytes32 -> Outcome (option (list EndOfSubSlotBundle));
  previous_generator : option N;
  (* the chain *)
  get_peak : option BlockRecord;
  try_block_record : bytes32 -> option BlockRecord;
  (* the constants *)
  GENESIS_CHALLENGE : bytes32;
  MAX_SUB_SLOT_BLOCKS : Z;
  DIFFICULTY_STARTING : Z;
  SUB_SLOT_ITERS_STARTING : Z;
  DIFFICULTY_CONSTANT_FACTOR : Z;
  GENESIS_PRE_FARM_POOL_PUZZLE_HASH : bytes32;
  GENESIS_PRE_FARM_FARMER_PUZZLE_HASH : bytes32;
  (* collaborators *)
  verify_and_get_quality_string :
    ProofOfSpace -> bytes32 -> bytes32 -> option bytes32;
  create_bundle_from_mempool :
    bytes32 -> Outcome (option (SpendBundle * list Coin * list Coin));
  best_solution_generator_from_template : N -> SpendBundle -> BlockGenerator;
  simple_solution_generator : SpendBundle -> BlockGenerator;
  calculate_iterations_quality : Z -> bytes32 -> Z -> Z -> bytes32 -> Outcome Z;
  calculate_sp_iters : Z -> Z -> Outcome Z;
  calculate_ip_iters : Z -> Z -> Z -> Outcome Z;
  now : Z;                                        (* int(time.time()) *)
  create_unfinished_block : BlockArgs -> Outcome UnfinishedBlock;
  AugSchemeMPL_verify : N -> bytes32 -> G2Element -> bool;
  has_valid_pool_sig : UnfinishedBlock -> bool;
  respond_unfinished_block : UnfinishedBlock -> Outcome unit
}.

(** ** Control flow of a handler body *)

(** A piece of a handler goes on with a value, ends the handler (with a
    [return] or an exception), or has not finished within the fuel of
    its [while] loops. *)
Inductive Flow (A : Type) : Type :=
  | Go (a : A)
  | Ret (r : Outcome (option Message))
  | OutOfFuel.
Arguments Go {A} a.
Arguments Ret {A} r.
Arguments OutOfFuel {A}.

#[export] Instance Flow_bind : MBind Flow := fun A B f m =>
  match m with
  | Go a => f a
  | Ret r => Ret r
  | OutOfFuel => OutOfFuel
  end.

Definition return_none {A : Type} : Flow A := Ret (Returned None).
Definition raise {A : Type} (e : exn) : Flow A := Ret (Raised e).

Definition assert (b : bool) : Flow unit :=
  if b then Go tt else raise AssertionError.

(** [assert x is not None], then [x]. *)
Definition assert_some {A : Type} (x : option A) : Flow A :=
  match x with Some a => Go a | None => raise AssertionError end.

(** A call that may raise. *)
Definition call {A : Type} (o : Outcome A) : Flow A :=
  match o with Returned a => Go a | Raised e => raise e end.

(** [uint32(v)], [uint64(v)]: the constructors check the range. *)
Definition uint_checked (bits : Z) (v : Z) : Outcome Z :=
  if (0 <=? v) && (v <? 2 ^ bits) then Returned v else Raised ValueError.

Definition uint (bits : Z) (v : Z) : Flow Z := call (uint_checked bits v).

(** [blockchain.block_record(h)] raises [KeyError] where
    [try_block_record(h)] is [None]. *)
Definition block_record (env : Env) (h : bytes32) : Flow BlockRecord :=
  match try_block_record env h with
  | Some b => Go b
  | None => raise KeyError
  end.

(** [except Exception] catches everything but a cancellation. *)
Definition is_Exception (e : exn) : bool :=
  match e with CancelledError => false | _ => true end.

(** ** [declare_proof_of_space] *)

(** What the first part of the handler has found out. *)
Record Resolved := mkResolved {
  r_sp_vdfs : SignagePoint;
  r_cc_challenge_hash : bytes32;
  r_pos_sub_slot : option (EndOfSubSlotBundle * Z * Z);
  r_total_iters_pos_slot : Z;
  r_quality_string : bytes32
}.

(** From [get_signage_point] to the assertion on the quality string. *)
Definition resolve_signage_point (env : Env) (request : DeclareProofOfSpace)
    : Flow Resolved :=
  match get_signage_point env (challenge_chain_sp request) with
  | None => return_none
  | Some sp_vdfs =>
      _ ← (if 0 <? signage_point_index request then
             rc ← assert_some (rc_vdf sp_vdfs);
             if N.eqb (output_hash rc) (reward_chain_sp request)
             then Go tt else return_none
           else Go tt);
      cc_challenge_hash ←
        (if signage_point_index request =? 0 then Go (challenge_chain_sp request)
         else cc ← assert_some (cc_vdf sp_vdfs); Go (challenge cc));
      slot ←
        (if negb (N.eqb (challenge_hash request) (GENESIS_CHALLENGE env)) then
           match get_sub_slot env cc_challenge_hash with
           | None => return_none
           | Some pos_sub_slot => Go (Some pos_sub_slot, pos_sub_slot.2)
           end
         else Go (None, 0));
      _ ← assert (N.eqb cc_challenge_hash (challenge_hash request));
      quality_string ←
        assert_some (verify_and_get_quality_string env (proof_of_space request)
                       cc_challenge_hash (challenge_chain_sp request));
      Go (mkResolved sp_vdfs cc_challenge_hash slot.1 slot.2 quality_string)
  end.

(** [while not curr_l_tb.is_transaction_block:
       curr_l_tb = self.full_node.blockchain.block_record(curr_l_tb.prev_hash)]. *)
Fixpoint last_transaction_block (fuel : nat) (env : Env) (curr_l_tb : BlockRecord)
    : Flow BlockRecord :=
  match fuel with
  | O => OutOfFuel
  | S fuel' =>
      if is_transaction_block curr_l_tb then Go curr_l_tb
      else
        b ← block_record env (prev_hash curr_l_tb);
        last_transaction_block fuel' env b
  end.

(** The bundle of the mempool for the peak: the aggregate signature, the
    generator, the additions and the removals. *)
Record Bundle := mkBundle {
  b_aggregate_signature : G2Element;
  b_block_generator : option BlockGenerator;
  b_additions : option (list Coin);
  b_removals : option (list Coin)
}.

Definition empty_bundle : Bundle :=
  mkBundle G2Element_default None (Some []) (Some []).

Definition best_bundle (fuel : nat) (env : Env) : Flow Bundle :=
  match get_peak env with
  | None => Go empty_bundle
  | Some peak =>
      curr_l_tb ← last_transaction_block fuel env peak;
      mempool_bundle ←
        match create_bundle_from_mempool env (header_hash curr_l_tb) with
        | Returned b => Go b
        | Raised e => if is_Exception e then Go None else raise e
        end;
      match mempool_bundle with
      | None => Go empty_bundle
      | Some (spend_bundle, additions, removals) =>
          Go (mkBundle (aggregated_signature spend_bundle)
                (Some match previous_generator env with
                      | Some g => best_solution_generator_from_template env g spend_bundle
                      | None => simple_solution_generator env spend_bundle
                      end)
                (Some additions) (Some removals))
      end
  end.

(** [for eos, _, _ in reversed(finished_sub_slots): ...]: the challenge
    moves back through the sub-slots whose reward chain hashes to it. *)
Definition backtrack_empty_sub_slots (env : Env) (rc_challenge : bytes32)
    : bytes32 :=
  fold_left
    (fun rc eos =>
       match eos with
       | Some e => if N.eqb (reward_chain_hash e) rc
                   then rc_end_of_slot_challenge e else rc
       | None => rc
       end)
    (rev (finished_sub_slots env)) rc_challenge.

(** [finished_reward_slot_hashes[-1] == rc_challenge], for a list that is
    there and not empty. *)
Definition ends_with (hashes : option (list bytes32)) (rc_challenge : bytes32)
    : bool :=
  match hashes with
  | Some l => match last l with
              | Some h => N.eqb h rc_challenge
              | None => false
              end
  | None => false
  end.

(** [while prev_b is not None and attempts < 10], with [budget] equal to
    [10 - attempts]. Returns [found], [prev_b] and the hashes given to
    [try_block_record], in the order of the calls. *)
Fixpoint find_prev_block (env : Env) (rc_challenge : bytes32) (budget : nat)
    (prev_b : option BlockRecord) : bool * option BlockRecord * list bytes32 :=
  match budget with
  | O => (false, prev_b, [])
  | S budget' =>
      match prev_b with
      | None => (false, None, [])
      | Some b =>
          if N.eqb (reward_infusion_new_challenge b) rc_challenge then
            (true, Some b, [])
          else if ends_with (finished_reward_slot_hashes b) rc_challenge then
            (true, try_block_record env (prev_hash b), [prev_hash b])
          else
            let '(found, prev_b', looked) :=
              find_prev_block env rc_challenge budget'
                (try_block_record env (prev_hash b)) in
            (found, prev_b', prev_hash b :: looked)
      end
  end.

(** The reward chain challenge that the signage point starts from. *)
Definition sp_rc_challenge (request : DeclareProofOfSpace) (r : Resolved)
    : Flow bytes32 :=
  if signage_point_index request =? 0 then
    match r_pos_sub_slot r with
    | None => return_none
    | Some pos_sub_slot => Go (rc_end_of_slot_challenge pos_sub_slot.1.1)
    end
  else
    rc ← assert_some (rc_vdf (r_sp_vdfs r)); Go (challenge rc).

(** From [prev_b = get_peak()] to [if not found: return None]. *)
Definition previous_block (env : Env) (request : DeclareProofOfSpace)
    (r : Resolved) : Flow (option BlockRecord) :=
  match get_peak env with
  | None => Go None
  | Some peak =>
      rc_challenge ← sp_rc_challenge request r;
      let '(found, prev_b, _) :=
        find_prev_block env (backtrack_empty_sub_slots env rc_challenge) 10
                        (Some peak) in
      if found then Go prev_b else return_none
  end.

(** The [try] block around [get_finished_sub_slots]: a [ValueError], a
    missing list, or a last sub-slot other than the one of the proof
    ends the handler with [None]. *)
Definition finished_sub_slots_for (env : Env) (prev_b : option BlockRecord)
    (r : Resolved) : Flow (list EndOfSubSlotBundle) :=
  match get_finished_sub_slots env prev_b (r_cc_challenge_hash r) with
  | Raised ValueError => return_none
  | Raised e => raise e
  | Returned None => return_none
  | Returned (Some finished) =>
      match last finished, r_pos_sub_slot r with
      | Some l, Some pos_sub_slot =>
          if bool_decide (l = pos_sub_slot.1.1) then Go finished else return_none
      | _, _ => Go finished
      end
  end.

(** The pool target and the farmer puzzle hash. *)
Definition targets (env : Env) (request : DeclareProofOfSpace)
    (prev_b : option BlockRecord) : Flow (PoolTarget * bytes32) :=
  match prev_b with
  | None =>
      Go (mkPoolTarget (GENESIS_PRE_FARM_POOL_PUZZLE_HASH env) 0,
          GENESIS_PRE_FARM_FARMER_PUZZLE_HASH env)
  | Some _ =>
      match pool_contract_puzzle_hash (proof_of_space request) with
      | Some ph => Go (mkPoolTarget ph 0, farmer_puzzle_hash request)
      | None =>
          pt ← assert_some (pool_target request);
          Go (pt, farmer_puzzle_hash request)
      end
  end.

(** The difficulty and the sub-slot iterations for the new block. *)
Definition difficulty_and_iters (env : Env)
    (finished : list EndOfSubSlotBundle) : Flow (Z * Z) :=
  match get_peak env with
  | None => Go (DIFFICULTY_STARTING env, SUB_SLOT_ITERS_STARTING env)
  | Some peak =>
      if height peak <=? MAX_SUB_SLOT_BLOCKS env then
        Go (DIFFICULTY_STARTING env, SUB_SLOT_ITERS_STARTING env)
      else
        prev ← block_record env (prev_hash peak);
        difficulty ← uint 64 (weight peak - weight prev);
        Go (fold_left
              (fun acc sub_slot =>
                 (default acc.1 (new_difficulty sub_slot),
                  default acc.2 (new_sub_slot_iters sub_slot)))
              finished (difficulty, br_sub_slot_iters peak))
  end.

(** [while curr is not None and not curr.is_transaction_block
       and curr.height != 0:
       curr = self.full_node.blockchain.try_block_record(curr.prev_hash)]. *)
Fixpoint walk_to_transaction_block (fuel : nat) (env : Env)
    (curr : option BlockRecord) : Flow (option BlockRecord) :=
  match fuel with
  | O => OutOfFuel
  | S fuel' =>
      match curr with
      | None => Go None
      | Some c =>
          if negb (is_transaction_block c) && negb (height c =? 0) then
            walk_to_transaction_block fuel' env
              (try_block_record env (prev_hash c))
          else Go (Some c)
      end
  end.

(** The timestamp of the new block. *)
Definition block_timestamp (fuel : nat) (env : Env)
    (prev_b : option BlockRecord) : Flow Z :=
  timestamp ← uint 64 (now env);
  curr ← walk_to_transaction_block fuel env prev_b;
  match curr with
  | None => Go timestamp
  | Some c =>
      t ← assert_some (br_timestamp c);
      if timestamp <=? t then uint 64 (t + 1) else Go timestamp
  end.

(** What the handler has ready when it starts to make the block. *)
Record Prepared := mkPrepared {
  p_quality_string : bytes32;
  p_args : BlockArgs
}.

(** The handler inside the timelord lock, up to the log line "Starting
    to make the unfinished block". Nothing is stored or sent here. *)
Definition prepare (fuel : nat) (env : Env) (request : DeclareProofOfSpace)
    : Flow Prepared :=
  r ← resolve_signage_point env request;
  bundle ← best_bundle fuel env;
  prev_b ← previous_block env request r;
  finished ← finished_sub_slots_for env prev_b r;
  tg ← targets env request prev_b;
  di ← difficulty_and_iters env finished;
  required_iters ←
    call (calculate_iterations_quality env (DIFFICULTY_CONSTANT_FACTOR env)
            (r_quality_string r) (size (proof_of_space request)) di.1
            (challenge_chain_sp request));
  sp_iters ← call (calculate_sp_iters env di.2 (signage_point_index request));
  ip_iters ← call (calculate_ip_iters env di.2 (signage_point_index request)
                     required_iters);
  timestamp ← block_timestamp fuel env prev_b;
  Go (mkPrepared (r_quality_string r)
        (mkBlockArgs (r_total_iters_pos_slot r) di.2
           (signage_point_index request) sp_iters ip_iters
           (proof_of_space request) (r_cc_challenge_hash r) tg.2 tg.1 request
           (r_sp_vdfs r) timestamp (b_block_generator bundle)
           (b_aggregate_signature bundle) (b_additions bundle)
           (b_removals bundle) prev_b finished)).

(** The arguments of the second call of [create_unfinished_block]: no
    generator, the default signature, no additions and no removals. *)
Definition backup_args (a : BlockArgs) : BlockArgs :=
  mkBlockArgs (a_total_iters_pos_slot a) (a_sub_slot_iters a)
    (a_signage_point_index a) (a_sp_iters a) (a_ip_iters a)
    (a_proof_of_space a) (a_cc_challenge_hash a) (a_farmer_ph a)
    (a_pool_target a) (a_signatures_of a) (a_sp_vdfs a) (a_timestamp a)
    None G2Element_default None None (a_prev_b a) (a_finished_sub_slots a).

(** What a handler leaves: its result, the store and the messages sent
    to the farmer. *)
Abbreviation Result :=
  (Outcome (option Message) * CandidateStore * list Message)%type (only parsing).

(** [bytes([0] * 32)]. *)
Definition zero_hash : bytes32 := 0%N.

(** [uint32(prev_b.height + 1)], or [uint32(0)] without a previous block. *)
Definition candidate_height (prev_b : option BlockRecord) : Outcome Z :=
  match prev_b with
  | Some b => uint_checked 32 (height b + 1)
  | None => Returned 0
  end.

(** From the first [create_unfinished_block] to the end of the handler. *)
Definition store_and_request (env : Env) (p : Prepared) (st : CandidateStore)
    : Result :=
  match create_unfinished_block env (p_args p) with
  | Raised e => (Raised e, st, [])
  | Returned unfinished_block =>
      match candidate_height (a_prev_b (p_args p)) with
      | Raised e => (Raised e, st, [])
      | Returned height =>
          let st1 :=
            add_candidate_block (p_quality_string p) height unfinished_block
                                false st in
          let message :=
            request_signed_values
              (mkRequestSignedValues (p_quality_string p)
                 (foliage_block_data_hash unfinished_block)
                 (if ub_is_transaction_block unfinished_block
                  then foliage_transaction_block_hash unfinished_block
                  else Some zero_hash)) in
          if ub_is_transaction_block unfinished_block
             && bool_decide (is_Some (transactions_generator unfinished_block))
          then
            match create_unfinished_block env (backup_args (p_args p)) with
            | Raised e => (Raised e, st1, [message])
            | Returned unfinished_block_backup =>
                (Returned None,
                 add_candidate_block (p_quality_string p) height
                                     unfinished_block_backup true st1,
                 [message])
            end
          else (Returned None, st1, [message])
      end
  end.

(** [declare_proof_of_space(request, peer)]; [None] when the fuel does not
    suffice for a [while] loop. *)
Definition declare_proof_of_space (fuel : nat) (env : Env)
    (request : DeclareProofOfSpace) (st : CandidateStore) : option Result :=
  if sync_mode env then Some (Returned None, st, [])
  else
    match prepare fuel env request with
    | Go p => Some (store_and_request env p st)
    | Ret r => Some (r, st, [])
    | OutOfFuel => None
    end.

(** ** [signed_values] *)

(** [dataclasses.replace] of the two signatures in the foliage of the
    candidate; the second one only on a transaction block. *)
Definition with_signatures (candidate : UnfinishedBlock)
    (farmer_request : SignedValues) : UnfinishedBlock :=
  mkUnfinishedBlock
    (ub_is_transaction_block candidate)
    (transactions_generator candidate)
    (foliage_block_data_hash candidate)
    (foliage_transaction_block_hash candidate)
    (sv_foliage_block_data_signature farmer_request)
    (if ub_is_transaction_block candidate
     then Some (sv_foliage_transaction_block_signature farmer_request)
     else foliage_transaction_block_signature candidate)
    (ub_plot_public_key candidate).

(** The [except Exception] branch: the backup, if there is one, becomes
    the candidate and its signatures are requested. *)
Definition fall_back (farmer_request : SignedValues) (st : CandidateStore)
    : Result :=
  match get_candidate_block (sv_quality_string farmer_request) true st with
  | Some (height, unfinished_block) =>
      (Returned None,
       add_candidate_block (sv_quality_string farmer_request) height
                           unfinished_block false st,
       [request_signed_values
          (mkRequestSignedValues (sv_quality_string farmer_request)
             (foliage_block_data_hash unfinished_block)
             (foliage_transaction_block_hash unfinished_block))])
  | None => (Returned None, st, [])
  end.

Definition signed_values (env : Env) (farmer_request : SignedValues)
    (st : CandidateStore) : Result :=
  match get_candidate_block (sv_quality_string farmer_request) false st with
  | None => (Returned None, st, [])
  | Some (height, candidate) =>
      if negb (AugSchemeMPL_verify env (ub_plot_public_key candidate)
                 (foliage_block_data_hash candidate)
                 (sv_foliage_block_data_signature farmer_request))
      then (Returned None, st, [])
      else
        let new_candidate := with_signatures candidate farmer_request in
        if negb (has_valid_pool_sig env new_candidate) then (Returned None, st, [])
        else
          match respond_unfinished_block env new_candidate with
          | Returned _ => (Returned None, st, [])
          | Raised e =>
              if is_Exception e then fall_back farmer_request st
              else (Raised e, st, [])
          end
  end.

(** ** Properties *)

Lemma bind_Go {A B : Type} (m : Flow A) (f : A -> Flow B) (b : B) :
  m ≫= f = Go b -> exists a, m = Go a /\ f a = Go b.
Proof. destruct m as [a|r|]; cbn; [eauto | discriminate | discriminate]. Qed.

Lemma bind_return_none {A B : Type} (f : A -> Flow B) :
  @return_none A ≫= f = return_none.
Proof. reflexivity. Qed.

Lemma find_prev_block_hops (env : Env) (rc : bytes32) (budget : nat)
    (prev_b : option BlockRecord) :
  (length (find_prev_block env rc budget prev_b).2 <= budget)%nat.
Proof.
  revert prev_b. induction budget as [|budget IH]; intros prev_b; simpl;
    [lia|].
  destruct prev_b as [b|]; simpl; [|lia].
  destruct (N.eqb (reward_infusion_new_challenge b) rc); simpl; [lia|].
  destruct (ends_with (finished_reward_slot_hashes b) rc); simpl; [lia|].
  specialize (IH (try_block_record env (prev_hash b))).
  destruct (find_prev_block env rc budget (try_block_record env (prev_hash b)))
    as [[found prev_b'] looked]; simpl in *. lia.
Qed.

(** C7: a DeclareProofOfSpace whose [challenge_chain_sp] is not a stored
    signage point, or whose index is positive while the hash of the
    output of the stored reward-chain VDF is not its [reward_chain_sp],
    is answered with [None]: the candidate store is left as it was and
    nothing is sent to the farmer. *)
Theorem C7_unknown_or_stale_signage_point (fuel : nat) (env : Env)
    (request : DeclareProofOfSpace) (st : CandidateStore) :
  get_signage_point env (challenge_chain_sp request) = None \/
  (0 < signage_point_index request /\
   exists sp v,
     get_signage_point env (challenge_chain_sp request) = Some sp /\
     rc_vdf sp = Some v /\ output_hash v <> reward_chain_sp request) ->
  declare_proof_of_space fuel env request st = Some (Returned None, st, []).
Proof.
  intros H. unfold declare_proof_of_space.
  destruct (sync_mode env); [reflexivity|].
  assert (E : resolve_signage_point env request = return_none).
  { unfold resolve_signage_point.
    destruct H as [-> | (Hidx & sp & v & -> & Hrc & Hne)]; [reflexivity|].
    apply Z.ltb_lt in Hidx. rewrite Hidx, Hrc. cbn.
    destruct (N.eqb_spec (output_hash v) (reward_chain_sp request));
      [contradiction|reflexivity]. }
  unfold prepare. rewrite E. reflexivity.
Qed.

(** C5: with a peak, the search for the previous block gives at most 10
    hashes to [try_block_record]; and when it ends without a block whose
    [reward_infusion_new_challenge] or last finished reward slot hash is
    the challenge looked for, the handler returns [None], with the
    candidate store as it was and nothing sent. *)
Theorem C5_previous_block_search (fuel : nat) (env : Env)
    (request : DeclareProofOfSpace) (st : CandidateStore)
    (r : Resolved) (bundle : Bundle) (peak : BlockRecord) (rc : bytes32) :
  resolve_signage_point env request = Go r ->
  best_bundle fuel env = Go bundle ->
  get_peak env = Some peak ->
  sp_rc_challenge request r = Go rc ->
  let search :=
    find_prev_block env (backtrack_empty_sub_slots env rc) 10 (Some peak) in
  (length search.2 <= 10)%nat /\
  (search.1.1 = false ->
   declare_proof_of_space fuel env request st = Some (Returned None, st, [])).
Proof.
  intros Hr Hb Hpeak Hrc search. split; [apply find_prev_block_hops|].
  intros Hnot. unfold declare_proof_of_space.
  destruct (sync_mode env); [reflexivity|].
  unfold prepare. rewrite Hr. cbn [mbind Flow_bind]. rewrite Hb.
  cbn [mbind Flow_bind]. unfold previous_block. rewrite Hpeak, Hrc.
  cbn [mbind Flow_bind]. fold search.
  destruct search as [[found prev_b] looked]. cbn in Hnot. subst found.
  reflexivity.
Qed.








(** The message that asks the farmer for the signatures of a candidate
    made by [declare_proof_of_space]. *)
Definition signature_request (quality_string : bytes32)
    (unfinished_block : UnfinishedBlock) : Message :=
  request_signed_values
    (mkRequestSignedValues quality_string
       (foliage_block_data_hash unfinished_block)
       (if ub_is_transaction_block unfinished_block
        then foliage_transaction_block_hash unfinished_block
        else Some zero_hash)).

(** C8: once the first block is made, [declare_proof_of_space] stores
    it, asks for its signatures, and stores a backup exactly when the
    block is a transaction block with a generator; the backup is made
    from the same arguments with no generator, the default signature, no
    additions and no removals, and goes under the same quality string and
    height.  In [signed_values], an exception from
    [respond_unfinished_block] makes the backup, if there is one, the
    candidate of the quality string and sends a RequestSignedValues for
    it; with no backup nothing is stored or sent. Both return [None]. *)
Theorem C8_backup_candidate :
  (forall (fuel : nat) (env : Env) (request : DeclareProofOfSpace)
          (st : CandidateStore) (p : Prepared) (ub : UnfinishedBlock) (h : Z),
     sync_mode env = false ->
     prepare fuel env request = Go p ->
     create_unfinished_block env (p_args p) = Returned ub ->
     candidate_height (a_prev_b (p_args p)) = Returned h ->
     let q := p_quality_string p in
     let st1 := add_candidate_block q h ub false st in
     (ub_is_transaction_block ub = true /\ is_Some (transactions_generator ub) ->
      forall backup,
        create_unfinished_block env (backup_args (p_args p)) = Returned backup ->
        declare_proof_of_space fuel env request st
        = Some (Returned None, add_candidate_block q h backup true st1,
                [signature_request q ub])) /\
     (~ (ub_is_transaction_block ub = true /\ is_Some (transactions_generator ub)) ->
      declare_proof_of_space fuel env request st
      = Some (Returned None, st1, [signature_request q ub]) /\
      candidate_backup_blocks st1 = candidate_backup_blocks st)) /\
  (forall a : BlockArgs,
     a_block_generator (backup_args a) = None /\
     a_aggregate_signature (backup_args a) = G2Element_default /\
     a_additions (backup_args a) = None /\
     a_removals (backup_args a) = None) /\
  (forall (env : Env) (farmer_request : SignedValues) (st : CandidateStore)
          (h : Z) (candidate : UnfinishedBlock) (e : exn),
     let q := sv_quality_string farmer_request in
     get_candidate_block q false st = Some (h, candidate) ->
     AugSchemeMPL_verify env (ub_plot_public_key candidate)
       (foliage_block_data_hash candidate)
       (sv_foliage_block_data_signature farmer_request) = true ->
     has_valid_pool_sig env (with_signatures candidate farmer_request) = true ->
     respond_unfinished_block env (with_signatures candidate farmer_request)
       = Raised e ->
     is_Exception e = true ->
     (forall hb backup,
        get_candidate_block q true st = Some (hb, backup) ->
        signed_values env farmer_request st
        = (Returned None, add_candidate_block q hb backup false st,
           [request_signed_values
              (mkRequestSignedValues q (foliage_block_data_hash backup)
                 (foliage_transaction_block_hash backup))])) /\
     (get_candidate_block q true st = None ->
      signed_values env farmer_request st = (Returned None, st, []))).
Proof.
  split; [|split].
  - intros fuel env request st p ub h Hsync Hp Hub Hh q st1.
    unfold declare_proof_of_space. rewrite Hsync, Hp.
    unfold store_and_request. rewrite Hub, Hh. fold q. fold st1.
    split.
    + intros [Htx Hgen] backup Hbackup.
      rewrite Htx, Hbackup, bool_decide_eq_true_2 by exact Hgen.
      unfold signature_request. rewrite Htx. reflexivity.
    + intros Hnot. split; [|reflexivity].
      destruct (ub_is_transaction_block ub) eqn:Htx; cbn [andb];
        [|unfold signature_request; rewrite Htx; reflexivity].
      rewrite bool_decide_eq_false_2 by tauto.
      unfold signature_request. rewrite Htx. reflexivity.
  - intros a. repeat split.
  - intros env farmer_request st h candidate e q Hget Hver Hpool Hraise Hexc.
    unfold signed_values. fold q. rewrite Hget, Hver, Hpool, Hraise, Hexc.
    cbn [negb]. unfold fall_back. fold q.
    split.
    + intros hb backup ->. reflexivity.
    + intros ->. reflexivity.
Qed.

(** ** A small chain to run the handlers on *)

(** Blocks 100 to 130, each on top of the one before; every fourth one
    is a transaction block, stamped 1000 + its number; block [h] infuses
    the reward challenge 2000 + [h]. *)
Definition block_example (h : N) : BlockRecord :=
  mkBlockRecord h (h - 1)%N (Z.of_N h - 100) (10 * (Z.of_N h - 100)) 1000
    (N.eqb (h mod 4) 0)
    (if N.eqb (h mod 4) 0 then Some (1000 + Z.of_N h) else None)
    (2000 + h)%N None.

Definition args_block (a : BlockArgs) : UnfinishedBlock :=
  mkUnfinishedBlock true (a_block_generator a) 555%N (Some 888%N) 0%N None
    (plot_public_key (a_proof_of_space a)).

(** A node whose peak is block [peak], which knows the signage point 25
    of the sub-slot with challenge 20, on the reward challenge 2108. *)
Definition env_example (peak : N) : Env :=
  {| sync_mode := false;
     get_signage_point := fun h =>
       if N.eqb h 25
       then Some (mkSignagePoint (Some (mkVDFInfo 20 25)) (Some (mkVDFInfo 2108 26)))
       else None;
     get_sub_slot := fun h =>
       if N.eqb h 20 then Some (mkEndOfSubSlotBundle 2100 2101 None None, 0, 5000)
       else None;
     finished_sub_slots := [];
     get_finished_sub_slots := fun _ _ => Returned (Some []);
     previous_generator := None;
     get_peak := Some (block_example peak);
     try_block_record := fun h =>
       if (N.leb 100 h && N.leb h 130)%bool then Some (block_example h) else None;
     GENESIS_CHALLENGE := 1%N;
     MAX_SUB_SLOT_BLOCKS := 5;
     DIFFICULTY_STARTING := 7;
     SUB_SLOT_ITERS_STARTING := 1024;
     DIFFICULTY_CONSTANT_FACTOR := 2;
     GENESIS_PRE_FARM_POOL_PUZZLE_HASH := 2%N;
     GENESIS_PRE_FARM_FARMER_PUZZLE_HASH := 3%N;
     verify_and_get_quality_string := fun _ _ _ => Some 77%N;
     create_bundle_from_mempool := fun _ =>
       Returned (Some (mkSpendBundle 5 9, [1%N; 2%N], [3%N]));
     best_solution_generator_from_template := fun g sb => (g + bundle_id sb)%N;
     simple_solution_generator := fun sb => (1000 + bundle_id sb)%N;
     calculate_iterations_quality := fun _ _ _ _ _ => Returned 300;
     calculate_sp_iters := fun _ _ => Returned 64;
     calculate_ip_iters := fun _ _ _ => Returned 364;
     now := 500;
     create_unfinished_block := fun a => Returned (args_block a);
     AugSchemeMPL_verify := fun _ _ _ => true;
     has_valid_pool_sig := fun _ => true;
     respond_unfinished_block := fun _ => Raised (OtherError 1) |}.

Definition request_example : DeclareProofOfSpace :=
  mkDeclareProofOfSpace 20 25 2 26 (mkProofOfSpace 32 (Some 40%N) 41) 0 0 42
    None None.

Definition store_example : CandidateStore := mkCandidateStore ∅ ∅.

(** The arguments with which the example makes its block on top of block
    108: the timestamp is one more than that of block 108. *)
Definition args_example : BlockArgs :=
  mkBlockArgs 5000 1000 2 64 364 (mkProofOfSpace 32 (Some 40%N) 41) 20 42
    (mkPoolTarget 40 0) request_example
    (mkSignagePoint (Some (mkVDFInfo 20 25)) (Some (mkVDFInfo 2108 26)))
    1109 (Some 1005%N) 9%N (Some [1%N; 2%N]) (Some [3%N])
    (Some (block_example 108)) [].

Example prepare_example :
  prepare 20 (env_example 110) request_example
  = Go (mkPrepared 77 args_example).
Proof. vm_compute. reflexivity. Qed.

Lemma C7_unknown_or_stale_signage_point_witness :
  declare_proof_of_space 20 (env_example 110)
    (mkDeclareProofOfSpace 20 99 2 26 (mkProofOfSpace 32 None 41) 0 0 42
       None None) store_example
  = Some (Returned None, store_example, []).
Proof. apply C7_unknown_or_stale_signage_point. left. reflexivity. Defined.

(** The reward challenge 2108 is infused by block 108, 17 blocks below
    the peak 125: the search gives up after 10 lookups. *)
Lemma C5_previous_block_search_witness :
  (length (find_prev_block (env_example 125) 2108 10
             (Some (block_example 125))).2 <= 10)%nat /\
  declare_proof_of_space 20 (env_example 125) request_example store_example
  = Some (Returned None, store_example, []).
Proof.
  pose proof (C5_previous_block_search 20 (env_example 125) request_example
    store_example
    (mkResolved
       (mkSignagePoint (Some (mkVDFInfo 20 25)) (Some (mkVDFInfo 2108 26)))
       20 (Some (mkEndOfSubSlotBundle 2100 2101 None None, 0, 5000)) 5000 77)
    (mkBundle 9%N (Some 1005%N) (Some [1%N; 2%N]) (Some [3%N]))
    (block_example 125) 2108%N
    ltac:(vm_compute; reflexivity) ltac:(vm_compute; reflexivity)
    eq_refl eq_refl) as [H1 H2].
  split; [exact H1 | apply H2; vm_compute; reflexivity].
Defined.





(** The store after the example: the candidate and its backup, both at
    height 9 under the quality string 77. *)
Definition store_after_example : CandidateStore :=
  mkCandidateStore
    {[ 77%N := (9, args_block args_example) ]}
    {[ 77%N := (9, args_block (backup_args args_example)) ]}.

Lemma C8_backup_candidate_witness :
  declare_proof_of_space 20 (env_example 110) request_example store_example
  = Some (Returned None, store_after_example,
          [signature_request 77 (args_block args_example)]) /\
  signed_values (env_example 110) (mkSignedValues 77 1 2) store_after_example
  = (Returned None,
     add_candidate_block 77 9 (args_block (backup_args args_example)) false
       store_after_example,
     [request_signed_values (mkRequestSignedValues 77 555%N (Some 888%N))]).
Proof.
  destruct C8_backup_candidate as (Hdeclare & _ & Hsigned). split.
  - apply (proj1 (Hdeclare 20%nat (env_example 110) request_example store_example
                    (mkPrepared 77 args_example) (args_block args_example) 9
                    eq_refl prepare_example eq_refl eq_refl)).
    + split; [reflexivity | eexists; reflexivity].
    + reflexivity.
  - apply (proj1 (Hsigned (env_example 110) (mkSignedValues 77 1 2)
                    store_after_example 9
                    (args_block args_example) (OtherError 1)
                    eq_refl eq_refl eq_refl eq_refl eq_refl)).
    reflexivity.
Defined.

End CandidateBlocks.

(** * More on the ranking of mempool items *)

Module MempoolOrdering.
Import MempoolItemModel.
Local Open Scope Z_scope.

(** The rank of an item with positive cost: its double, in units of
    [2 ^ (- guard_bits)]. *)
Lemma lt_by_rank (a : MempoolItem) :
  well_formed a -> 0 < cost a ->
  exists x, fee_per_cost a = Some x /\ - guard_bits <= expo x.
Proof.
  intros Wa Pa. destruct (fee_per_cost_defined a Pa) as [x Hx].
  exists x. split; [exact Hx|].
  destruct Wa as [Hf Hc]. unfold uint64 in *.
  destruct (scaled_true_divide_mono (fee a) (cost a) (fee a) (cost a) x x)
    as (E & _ & _); try assumption; lia.
Qed.

(** [<] on mempool items with positive cost is a strict weak order: no
    item is below itself, [a < b] excludes [b < a], [<] is transitive,
    and so is being incomparable. *)
Theorem lt_strict_weak_order (a b c : MempoolItem) :
  well_formed a -> well_formed b -> well_formed c ->
  0 < cost a -> 0 < cost b -> 0 < cost c ->
  lt a a = Some false /\
  (lt a b = Some true -> lt b a = Some false) /\
  (lt a b = Some true -> lt b c = Some true -> lt a c = Some true) /\
  (lt a b = Some false -> lt b a = Some false ->
   lt b c = Some false -> lt c b = Some false ->
   lt a c = Some false /\ lt c a = Some false).
Proof.
  intros Wa Wb Wc Pa Pb Pc.
  destruct (lt_by_rank a Wa Pa) as (x & Hx & Ex).
  destruct (lt_by_rank b Wb Pb) as (y & Hy & Ey).
  destruct (lt_by_rank c Wc Pc) as (z & Hz & Ez).
  unfold lt. rewrite Hx, Hy, Hz.
  rewrite !float_ltb_scaled by assumption.
  generalize (scaled x) (scaled y) (scaled z). intros u v w.
  repeat split; intros;
    repeat match goal with
           | H : Some _ = Some _ |- _ => injection H as H
           | H : (_ <? _) = true |- _ => apply Z.ltb_lt in H
           | H : (_ <? _) = false |- _ => apply Z.ltb_ge in H
           end;
    f_equal; first [apply Z.ltb_lt; lia | apply Z.ltb_ge; lia].
Qed.

Lemma lt_strict_weak_order_witness :
  let a := mkMempoolItem 1 3 0 in
  let b := mkMempoolItem 2 5 1 in
  let c := mkMempoolItem 7 2 2 in
  lt a a = Some false /\
  (lt a b = Some true -> lt b a = Some false) /\
  (lt a b = Some true -> lt b c = Some true -> lt a c = Some true) /\
  (lt a b = Some false -> lt b a = Some false ->
   lt b c = Some false -> lt c b = Some false ->
   lt a c = Some false /\ lt c a = Some false).
Proof.
  cbv zeta. apply lt_strict_weak_order;
    unfold well_formed, uint64; cbn [fee cost]; lia.
Defined.

(** The comparison raises ([ZeroDivisionError]) exactly when one of the
    two items has cost zero. *)
Theorem lt_raises_iff_zero_cost (a b : MempoolItem) :
  lt a b = None <-> cost a = 0 \/ cost b = 0.
Proof.
  assert (D : forall i, fee_per_cost i = None <-> cost i = 0).
  { intros i. unfold fee_per_cost, true_divide.
    destruct (Z.eqb_spec (cost i) 0) as [E|E].
    - tauto.
    - destruct (fee i =? 0); split; intros H; try discriminate; contradiction. }
  unfold lt. destruct (fee_per_cost a) as [x|] eqn:Ha.
  - destruct (fee_per_cost b) as [y|] eqn:Hb.
    + split; [discriminate|]. intros [H|H].
      * apply D in H. congruence.
      * apply D in H. congruence.
    + split; [intros _; right; apply D, Hb | reflexivity].
  - split; [intros _; left; apply D, Ha | reflexivity].
Qed.

(** The rounded quotient is within half a unit of the exact one. *)
Lemma round_half_even_error (n d : Z) :
  0 < d -> - d <= 2 * (n - round_half_even n d * d) <= d.
Proof.
  intros Hd. unfold round_half_even.
  pose proof (Z.div_mod n d ltac:(lia)) as E.
  pose proof (Z.mod_pos_bound n d Hd) as B.
  set (q := n / d) in *. set (r := n mod d) in *.
  destruct (Z.ltb_spec (2 * r) d), (Z.ltb_spec d (2 * r)), (Z.even q); nia.
Qed.

(** Two ratios that differ are told apart by their doubles when the
    larger fee times the smaller item's cost is at most [2 ^ 52]. *)
Lemma scaled_true_divide_strict (a1 b1 a2 b2 : Z) (x y : float) :
  0 <= a1 -> 0 < a2 -> 0 < b1 < 2 ^ 64 -> 0 < b2 < 2 ^ 64 ->
  true_divide a1 b1 = Some x -> true_divide a2 b2 = Some y ->
  a1 * b2 < a2 * b1 -> a2 * b1 <= 2 ^ 52 ->
  scaled x < scaled y.
Proof.
  intros Ha1 Ha2 Hb1 Hb2 Hx Hy Hlt Hsmall.
  destruct (true_divide_pos a2 b2 Ha2 Hb2) as (s2 & Hs2 & E2 & R2).
  rewrite E2 in Hy. injection Hy as <-.
  assert (P2 : 0 < 2 ^ s2) by (apply Z.pow_pos_nonneg; lia).
  pose proof (round_half_even_bounds _ (b2 * 2 ^ s2) (2 ^ 52) (2 ^ 53)
                ltac:(nia) R2) as M2.
  destruct (Z.eq_dec a1 0) as [-> | Hn1].
  - unfold true_divide in Hx. destruct (Z.eqb_spec b1 0); [lia|].
    cbn in Hx. injection Hx as <-. unfold scaled; cbn [mant expo].
    replace (s2 - guard_bits + guard_bits) with s2 by lia. nia.
  - assert (Hp1 : 0 < a1) by lia.
    destruct (true_divide_pos a1 b1 Hp1 Hb1) as (s1 & Hs1 & E1 & R1).
    rewrite E1 in Hx. injection Hx as <-. unfold scaled; cbn [mant expo].
    replace (s1 - guard_bits + guard_bits) with s1 by lia.
    replace (s2 - guard_bits + guard_bits) with s2 by lia.
    assert (P1 : 0 < 2 ^ s1) by (apply Z.pow_pos_nonneg; lia).
    pose proof (round_half_even_error (a1 * 2 ^ guard_bits) (b1 * 2 ^ s1)
                  ltac:(nia)) as Er1.
    pose proof (round_half_even_error (a2 * 2 ^ guard_bits) (b2 * 2 ^ s2)
                  ltac:(nia)) as Er2.
    set (m1 := round_half_even (a1 * 2 ^ guard_bits) (b1 * 2 ^ s1)) in *.
    set (m2 := round_half_even (a2 * 2 ^ guard_bits) (b2 * 2 ^ s2)) in *.
    set (G := 2 ^ guard_bits) in *. set (p1 := 2 ^ s1) in *.
    set (p2 := 2 ^ s2) in *.
    assert (HG : 0 < G) by (unfold G, guard_bits; lia).
    destruct (Z.lt_ge_cases (m1 * p1) (m2 * p2)) as [|Hge]; [assumption|exfalso].
    clearbody m1 m2 G p1 p2. set (T := 2 ^ 52) in *.
    assert (HT : 0 < T) by (unfold T; lia). clearbody T.
    (* the two rounding errors, brought to the denominator b1 * b2 *)
    assert (F1 : 2 * (a2 * G - m2 * (b2 * p2)) * b1 <= b2 * p2 * b1) by nia.
    assert (F2 : 2 * (m1 * (b1 * p1) - a1 * G) * b2 <= b1 * p1 * b2) by nia.
    assert (F3 : m2 * p2 * (b1 * b2) <= m1 * p1 * (b1 * b2)) by nia.
    assert (F4 : 2 * (a2 * b1 - a1 * b2) * G <= b1 * b2 * (p1 + p2)) by nia.
    assert (F5 : 2 * G <= b1 * b2 * (p1 + p2)) by nia.
    (* the two exponents, brought to the same denominator *)
    assert (F6 : T * (b1 * p1) * b2 <= a1 * G * b2) by nia.
    assert (F7 : T * (b2 * p2) * b1 <= a2 * G * b1) by nia.
    assert (F8 : a1 * b2 * G < a2 * b1 * G) by nia.
    assert (F9 : a2 * b1 * G <= T * G) by nia.
    assert (F10 : T * (b1 * b2 * (p1 + p2)) < 2 * (T * G)) by nia.
    nia.
Qed.

(** When both cross products of fee and cost are at most [2 ^ 52], the
    ranking is exact: [a < b] holds precisely when the exact ratio of [a]
    is below that of [b]. *)
Theorem lt_exact_for_small_products (a b : MempoolItem) :
  well_formed a -> well_formed b -> 0 < cost a -> 0 < cost b ->
  fee a * cost b <= 2 ^ 52 -> fee b * cost a <= 2 ^ 52 ->
  (lt a b = Some true <-> (exact_ratio a < exact_ratio b)%Q).
Proof.
  intros Wa Wb Pa Pb Sa Sb.
  destruct (lt_by_rank a Wa Pa) as (x & Hx & Ex).
  destruct (lt_by_rank b Wb Pb) as (y & Hy & Ey).
  rewrite exact_ratio_lt by assumption.
  unfold lt. rewrite Hx, Hy. split.
  - intros H.
    destruct (Z.lt_ge_cases (fee a * cost b) (fee b * cost a)) as [|Hge];
      [assumption|].
    rewrite (fee_per_cost_mono b a y x) in H by (assumption || lia).
    discriminate.
  - intros Hlt. f_equal. rewrite float_ltb_scaled by assumption.
    apply Z.ltb_lt. destruct Wa as [Hfa Hca], Wb as [Hfb Hcb].
    unfold uint64 in *.
    apply (scaled_true_divide_strict (fee a) (cost a) (fee b) (cost b));
      try assumption; try lia; try nia.
Qed.

Lemma lt_exact_for_small_products_witness :
  let a := mkMempoolItem 1000000 1000000001 0 in
  let b := mkMempoolItem 1000000 1000000000 1 in
  lt a b = Some true <-> (exact_ratio a < exact_ratio b)%Q.
Proof.
  cbv zeta. apply lt_exact_for_small_products;
    unfold well_formed, uint64; cbn [fee cost]; lia.
Defined.

End MempoolOrdering.

(** * More on the transaction gossip *)

Module TxGossipMore.
Import TxGossip.

Lemma set_pop_singleton (c : list bytes32 -> nat) (p : bytes32) :
  set_pop c {[ p ]} = Some (p, ∅).
Proof.
  unfold set_pop. rewrite elements_singleton. cbv zeta.
  assert (E : pick c p [] = p).
  { unfold pick. cbn [length]. rewrite Nat.mod_1_r. reflexivity. }
  rewrite E. f_equal. f_equal. set_solver.
Qed.

(** The loop on a fan-out set with one connected peer: the peer is
    popped and the task waits for its message to be sent. *)
Lemma fetch_loop_singleton (n : nat) (env : Env) (t : Task)
    (st : FullNodeStore) (peer : bytes32) :
  counter t <> 10 ->
  peers_with_tx st !! task_tx t = Some {[ peer ]} ->
  server_present env = true -> peer ∈ all_connections env ->
  fetch_loop (S n) env t st
  = Some (Suspended (mkTask (task_id t) (task_tx t) (counter t) (AwaitSend peer)),
          set_peers (insert (task_tx t) ∅) st, []).
Proof.
  intros Hc Hp Hs Hconn. cbn [fetch_loop].
  destruct (Nat.eqb_spec (counter t) 10) as [|_]; [contradiction|].
  rewrite Hp, set_pop_singleton, Hs. cbn [negb].
  rewrite bool_decide_eq_true_2 by exact Hconn. reflexivity.
Qed.

(** A task that the loop suspends waits to send to a peer that it has
    popped from the fan-out set of its transaction and that is connected. *)
Lemma fetch_loop_peer (fuel : nat) (env : Env) (t t' : Task)
    (st st' : FullNodeStore) (out : list Sent) :
  fetch_loop fuel env t st = Some (Suspended t', st', out) ->
  exists p, t' = mkTask (task_id t) (task_tx t) (counter t) (AwaitSend p) /\
    p ∈ default ∅ (peers_with_tx st !! task_tx t) /\
    p ∈ all_connections env /\ out = [].
Proof.
  revert st. induction fuel as [|fuel IH]; intros st; [discriminate|].
  cbn [fetch_loop]. unfold finish.
  destruct (Nat.eqb (counter t) 10); [discriminate|].
  destruct (peers_with_tx st !! task_tx t) as [peers|] eqn:Ep; [|discriminate].
  destruct (set_pop (choice env) peers) as [[peer_id rest]|] eqn:Epop;
    [|discriminate].
  apply set_pop_Some in Epop as (Hin & Hrest & _).
  destruct (negb (server_present env)); [discriminate|].
  destruct (bool_decide_reflect (peer_id ∈ all_connections env)) as [Hc|Hc].
  - intros H. exists peer_id.
    assert (t' = mkTask (task_id t) (task_tx t) (counter t) (AwaitSend peer_id)
            /\ out = []) as [-> ->] by (split; congruence).
    cbn. repeat split; assumption.
  - intros H. apply IH in H as (p & Ht & Hp & Hconn & Hout).
    exists p. split; [exact Ht|]. split; [|split; assumption].
    cbn in Hp. rewrite lookup_insert_eq in Hp. cbn in *. set_solver.
Qed.

(** When the checks of the handler pass and no fetch is in flight for
    the id, the handler creates one task and sets the three entries.
    Whatever the rest of the node does to the store before the task
    takes its first step, the task then sends at most one request before
    it sleeps, to a connected peer of the fan-out set as it is at that
    first step. When nothing has touched the store in between and the
    advertising peer is still connected, the request goes to that peer,
    whatever element [set.pop()] prefers. *)
Theorem first_request_goes_to_advertiser (env env1 env2 : Env)
    (transaction : NewTransaction) (peer token : bytes32) (st : FullNodeStore) :
  sync_mode env = false -> synced env = true ->
  seen env (transaction_id transaction) = false ->
  is_fee_enough env (fees transaction) (cost transaction) = true ->
  pending_tx_request st !! transaction_id transaction = None ->
  let id := transaction_id transaction in
  let eff := new_transaction env transaction peer token st in
  (reply eff = Returned None /\ sent eff = [] /\
   spawned eff = [mkTask token id 0 Created] /\
   pending_tx_request (store_after eff) !! id = Some peer /\
   peers_with_tx (store_after eff) !! id = Some {[ peer ]} /\
   tx_fetch_tasks (store_after eff) !! token = Some id) /\
  (forall (others others2 : FullNodeStore -> FullNodeStore) status st' out,
     run_task [mkResumption env1 Resumed others;
               mkResumption env2 Resumed others2]
              (mkTask token id 0 Created) (store_after eff)
     = Some (status, st', out) ->
     out = [] \/
     exists p, out = [(p, request_transaction id)] /\
       p ∈ default ∅ (peers_with_tx (others (store_after eff)) !! id) /\
       p ∈ all_connections env1) /\
  (server_present env1 = true -> peer ∈ all_connections env1 ->
   forall others2 : FullNodeStore -> FullNodeStore,
     run_task [mkResumption env1 Resumed (fun s => s);
               mkResumption env2 Resumed others2]
              (mkTask token id 0 Created) (store_after eff)
     = Some (Suspended (mkTask token id 0 AwaitSleep),
             others2 (set_peers (insert id ∅) (store_after eff)),
             [(peer, request_transaction id)])).
Proof.
  intros Hs1 Hs2 Hseen Hfee Hpend id eff.
  assert (E : eff = mkEffects (Returned None)
                (set_tasks (insert token id)
                   (set_peers (insert id {[ peer ]})
                      (set_pending (insert id peer) st)))
                [mkTask token id 0 Created] []).
  { subst eff id. unfold new_transaction.
    rewrite Hs1, Hs2, Hseen, Hfee, Hpend. reflexivity. }
  rewrite E. cbn [reply sent spawned store_after].
  split; [|split].
  - split; [reflexivity|]. split; [reflexivity|]. split; [reflexivity|].
    split; [cbn; apply lookup_insert_eq|].
    split; [cbn; apply lookup_insert_eq|].
    cbn; apply lookup_insert_eq.
  - intros others others2 status st' out.
    cbn [run_task r_env r_outcome r_others]. unfold resume at 1.
    cbn [pc task_id task_tx].
    destruct (fetch_loop _ env1 _ _) as [[[status1 st1] out1]|] eqn:El;
      [|discriminate].
    destruct status1 as [t1|res].
    + apply fetch_loop_peer in El as (p & -> & Hp & Hconn & ->).
      cbn [task_id task_tx counter] in *.
      cbn [resume pc task_id task_tx counter run_task r_env r_outcome
           r_others app].
      intros H. right. exists p.
      assert (out = [(p, request_transaction id)]) as -> by congruence.
      repeat split; assumption.
    + apply fetch_loop_ok in El as [El _]. cbn in El.
      destruct El as (_ & _ & _ & ->). intros H. left. congruence.
  - intros Hserver Hconn others2.
    cbn [run_task r_env r_outcome r_others]. unfold resume at 1.
    cbn [pc task_id task_tx]. unfold loop_bound.
    rewrite (fetch_loop_singleton _ env1 _ _ peer); try assumption;
      [| discriminate | cbn; apply lookup_insert_eq].
    cbn [resume pc task_id task_tx counter run_task r_env r_outcome r_others
         app].
    reflexivity.
Qed.

Lemma first_request_goes_to_advertiser_witness :
  run_task [mkResumption env_example Resumed (fun s => s);
            mkResumption env_example Resumed (fun s => s)]
           (mkTask 100 9 0 Created)
           (store_after (new_transaction env_example
                           (mkNewTransaction 9 1000 5) 1%N 100%N (mkStore ∅ ∅ ∅)))
  = Some (Suspended (mkTask 100 9 0 AwaitSleep),
          set_peers (insert 9%N ∅)
            (store_after (new_transaction env_example
                            (mkNewTransaction 9 1000 5) 1%N 100%N (mkStore ∅ ∅ ∅))),
          [(1%N, request_transaction 9)]).
Proof.
  assert (P : pending_tx_request (mkStore ∅ ∅ ∅)
              !! transaction_id (mkNewTransaction 9 1000 5) = None)
    by (vm_compute; reflexivity).
  assert (C : 1%N ∈ all_connections env_example)
    by (apply (bool_decide_unpack (1%N ∈ ({[ 1%N; 2%N ]} : gset N)));
        vm_compute; exact I).
  destruct (first_request_goes_to_advertiser env_example env_example
              env_example (mkNewTransaction 9 1000 5) 1%N 100%N
              (mkStore ∅ ∅ ∅) eq_refl eq_refl eq_refl eq_refl P)
    as (_ & _ & H).
  exact (H eq_refl C (fun s => s)).
Defined.

(** Once [respond_transaction] has taken the markers of an id away, a
    fetch task for that id that wakes from its sleep (resumed, cancelled
    or with an exception), or that takes its first step, ends at once
    through its cleanup: it sends no further request. *)
Theorem task_ends_after_respond_transaction (env : Env) (tid id : bytes32)
    (c : nat) (o : AwaitOutcome) (st : FullNodeStore) :
  resume env o (mkTask tid id c AwaitSleep) (respond_transaction id st)
    = Some (finish (mkTask tid id c AwaitSleep)
              (match o with Failed e => Raised e | _ => Returned tt end)
              (respond_transaction id st)) /\
  resume env Resumed (mkTask tid id c Created) (respond_transaction id st)
    = Some (finish (mkTask tid id c Created) (Returned tt)
              (respond_transaction id st)).
Proof.
  assert (Hloop : forall t, task_tx t = id ->
            fetch_loop (loop_bound t (respond_transaction id st)) env t
                       (respond_transaction id st)
            = Some (finish t (Returned tt) (respond_transaction id st))).
  { intros t Ht. unfold loop_bound. cbn [fetch_loop].
    destruct (Nat.eqb (counter t) 10); [reflexivity|]. rewrite Ht.
    cbn [respond_transaction set_peers set_pending peers_with_tx].
    rewrite lookup_delete_eq. reflexivity. }
  split.
  - unfold resume. cbn [pc task_id task_tx counter].
    destruct o; try reflexivity.
    destruct (seen env id); [reflexivity|].
    rewrite Hloop by reflexivity. reflexivity.
  - unfold resume. cbn [pc task_id task_tx]. rewrite Hloop by reflexivity.
    reflexivity.
Qed.

End TxGossipMore.

(** * Unfinished block gossip: [new_unfinished_block] *)

Module UnfinishedBlockGossip.

(** [make_msg(ProtocolMessageTypes.request_unfinished_block,
    RequestUnfinishedBlock(block_hash))]. *)
Inductive Message : Type :=
  | request_unfinished_block (unfinished_reward_hash : bytes32).

Record Env := mkEnv {
  sync_mode : bool;
  get_unfinished_block : bytes32 -> bool   (* is not None *)
}.

(** What the handler does: its reply, the set
    [requesting_unfinished_blocks] after it, and the hashes for which it
    has started an [eventually_clear] task. *)
Definition new_unfinished_block (env : Env) (block_hash : bytes32)
    (requesting : gset bytes32)
    : option Message * gset bytes32 * list bytes32 :=
  if sync_mode env then (None, requesting, [])
  else if get_unfinished_block env block_hash then (None, requesting, [])
  else if bool_decide (block_hash ∈ requesting) then (None, requesting, [])
  else (Some (request_unfinished_block block_hash),
        requesting ∪ {[ block_hash ]}, [block_hash]).

(** [eventually_clear], after its sleep of 5 seconds. *)
Definition eventually_clear (block_hash : bytes32) (requesting : gset bytes32)
    : gset bytes32 :=
  if bool_decide (block_hash ∈ requesting) then requesting ∖ {[ block_hash ]}
  else requesting.

(** What happens at the node: a peer announces a block, or the timer of
    an [eventually_clear] task fires. *)
Inductive Event : Type :=
  | announce (env : Env) (block_hash : bytes32)
  | timer (block_hash : bytes32).

(** Runs the events; returns the final set and the requests sent. *)
Fixpoint run (trace : list Event) (requesting : gset bytes32)
    : gset bytes32 * list Message :=
  match trace with
  | [] => (requesting, [])
  | announce env h :: trace' =>
      let '(m, requesting', _) := new_unfinished_block env h requesting in
      let '(final, out) := run trace' requesting' in
      (final, match m with Some msg => msg :: out | None => out end)
  | timer h :: trace' => run trace' (eventually_clear h requesting)
  end.

Fixpoint timers_for (h : bytes32) (trace : list Event) : nat :=
  match trace with
  | [] => 0
  | timer h' :: trace' => (if N.eqb h' h then 1 else 0) + timers_for h trace'
  | _ :: trace' => timers_for h trace'
  end.

Fixpoint requests_for (h : bytes32) (out : list Message) : nat :=
  match out with
  | [] => 0
  | request_unfinished_block h' :: out' =>
      (if N.eqb h' h then 1 else 0) + requests_for h out'
  end.

Definition marked (h : bytes32) (requesting : gset bytes32) : nat :=
  if bool_decide (h ∈ requesting) then 1 else 0.

Lemma marked_union_same (h : bytes32) (s : gset bytes32) :
  marked h (s ∪ {[ h ]}) = 1.
Proof. unfold marked. rewrite bool_decide_eq_true_2 by set_solver. reflexivity. Qed.

Lemma marked_union_other (h h' : bytes32) (s : gset bytes32) :
  h' <> h -> marked h (s ∪ {[ h' ]}) = marked h s.
Proof.
  intros Hne. unfold marked.
  destruct (bool_decide_reflect (h ∈ s)).
  - rewrite bool_decide_eq_true_2 by set_solver. reflexivity.
  - rewrite bool_decide_eq_false_2 by set_solver. reflexivity.
Qed.

Lemma marked_clear (h h' : bytes32) (s : gset bytes32) :
  marked h s <= marked h (eventually_clear h' s) + (if N.eqb h' h then 1 else 0).
Proof.
  unfold eventually_clear, marked.
  destruct (N.eqb_spec h' h) as [->|Hne].
  - destruct (bool_decide (h ∈ s)); lia.
  - destruct (bool_decide_reflect (h' ∈ s)); [|lia].
    destruct (bool_decide_reflect (h ∈ s)).
    + rewrite bool_decide_eq_true_2 by set_solver. lia.
    + lia.
Qed.

(** The balance of requests and timers for a hash: every request for it
    puts its mark, and only its timer takes the mark away. *)
Lemma run_balance (h : bytes32) (trace : list Event) (requesting : gset bytes32) :
  requests_for h (run trace requesting).2 + marked h requesting
  <= timers_for h trace + marked h (run trace requesting).1.
Proof.
  revert requesting. induction trace as [|ev trace IH]; intros requesting.
  - simpl. lia.
  - destruct ev as [env h'|h']; simpl.
    + unfold new_unfinished_block.
      destruct (sync_mode env); [|destruct (get_unfinished_block env h');
        [|destruct (bool_decide_reflect (h' ∈ requesting))]];
        try (specialize (IH requesting);
             destruct (run trace requesting) as [final out]; simpl in *; lia).
      specialize (IH (requesting ∪ {[ h' ]})).
      destruct (run trace (requesting ∪ {[ h' ]})) as [final out]. simpl in *.
      destruct (N.eqb_spec h' h) as [->|Hne].
      * rewrite marked_union_same in IH.
        unfold marked at 1. rewrite bool_decide_eq_false_2 by assumption. lia.
      * rewrite marked_union_other in IH by assumption. lia.
    + specialize (IH (eventually_clear h' requesting)).
      pose proof (marked_clear h h' requesting).
      destruct (run trace (eventually_clear h' requesting)) as [final out].
      simpl in *. lia.
Qed.

(** In every run of announcements and timers, whatever the peers and the
    node's state, the requests sent for one unfinished block hash are at
    most one more than the timers that have fired for it: between two
    requests for the same hash its [eventually_clear] has run. *)
Theorem one_request_per_window (h : bytes32) (trace : list Event)
    (requesting : gset bytes32) :
  requests_for h (run trace requesting).2 <= S (timers_for h trace).
Proof.
  pose proof (run_balance h trace requesting) as H.
  assert (marked h (run trace requesting).1 <= 1)
    by (unfold marked; destruct (bool_decide _); lia).
  lia.
Qed.

(** A fresh announcement is answered with one request and marks the
    hash; a repeated one gets nothing; and the timer of the first one
    puts the set back to what it was. *)
Theorem announce_then_clear (env env' : Env) (h : bytes32)
    (requesting : gset bytes32) :
  sync_mode env = false -> get_unfinished_block env h = false ->
  h ∉ requesting ->
  let '(m, requesting', tasks) := new_unfinished_block env h requesting in
  m = Some (request_unfinished_block h) /\ tasks = [h] /\
  h ∈ requesting' /\
  new_unfinished_block env' h requesting' = (None, requesting', []) /\
  eventually_clear h requesting' = requesting.
Proof.
  intros Hs Hk Hn. unfold new_unfinished_block at 1.
  rewrite Hs, Hk, bool_decide_eq_false_2 by assumption.
  split; [reflexivity|]. split; [reflexivity|]. split; [set_solver|].
  split.
  - unfold new_unfinished_block.
    rewrite (bool_decide_eq_true_2 (h ∈ requesting ∪ {[ h ]})) by set_solver.
    destruct (sync_mode env'), (get_unfinished_block env' h); reflexivity.
  - unfold eventually_clear. rewrite bool_decide_eq_true_2 by set_solver.
    set_solver.
Qed.

Lemma announce_then_clear_witness :
  let env := mkEnv false (fun _ => false) in
  let '(m, requesting', tasks) := new_unfinished_block env 7%N {[ 3%N ]} in
  m = Some (request_unfinished_block 7) /\ tasks = [7%N] /\
  7%N ∈ requesting' /\
  new_unfinished_block env 7%N requesting' = (None, requesting', []) /\
  eventually_clear 7%N requesting' = {[ 3%N ]}.
Proof.
  cbv zeta.
  apply (announce_then_clear (mkEnv false (fun _ => false))
           (mkEnv false (fun _ => false)) 7%N {[ 3%N ]});
    [reflexivity | reflexivity | apply (bool_decide_unpack (7%N ∉ ({[ 3%N ]} : gset N))); vm_compute; exact I].
Defined.

End UnfinishedBlockGossip.

(** * Block requests: [request_block], [request_blocks],
      [request_header_blocks] *)

Module BlockRequests.
Local Open Scope Z_scope.

(** [FullBlock]: what the handlers read and replace; [fb_rest] stands for
    all the other fields. *)
Record FullBlock := mkFullBlock {
  fb_height : Z;
  fb_transactions_generator : option N;
  fb_rest : N
}.

(** [dataclasses.replace(block, transactions_generator=None)]. *)
Definition without_generator (block : FullBlock) : FullBlock :=
  mkFullBlock (fb_height block) None (fb_rest block).

Inductive Message : Type :=
  | reject_block (height : Z)
  | respond_block (block : FullBlock)
  | reject_blocks (start_height end_height : Z)
  | respond_blocks (start_height end_height : Z) (blocks : list FullBlock)
  | respond_blocks_streamed (bytes : list Byte.byte)
  | reject_header_blocks (start_height end_height : Z).

(** The chain and the block store. [height_to_hash] may have no hash for
    a height, and the stores are asked with whatever it gives. *)
Record Env := mkEnv {
  contains_height : Z -> bool;
  height_to_hash : Z -> option bytes32;
  get_full_block : option bytes32 -> option FullBlock;
  get_full_block_bytes : option bytes32 -> option (list Byte.byte)
}.

Definition request_block (env : Env) (height : Z)
    (include_transaction_block : bool) : option Message :=
  if negb (contains_height env height) then Some (reject_block height)
  else
    match get_full_block env (height_to_hash env height) with
    | Some block =>
        Some (respond_block
                (if negb include_transaction_block
                    && bool_decide (is_Some (fb_transactions_generator block))
                 then without_generator block else block))
    | None => Some (reject_block height)
    end.

(** [range(start_height, end_height + 1)]. *)
Definition heights (start_height end_height : Z) : list Z :=
  seqZ start_height (end_height - start_height + 1).

(** The loop that collects the blocks without their generators; [None]
    when the store lacks one. *)
Fixpoint collect_blocks (env : Env) (hs : list Z) : option (list FullBlock) :=
  match hs with
  | [] => Some []
  | i :: hs' =>
      match get_full_block env (height_to_hash env i) with
      | None => None
      | Some block =>
          option_map (cons (without_generator block)) (collect_blocks env hs')
      end
  end.

(** The loop that collects the serialized blocks. *)
Fixpoint collect_bytes (env : Env) (hs : list Z) : option (list (list Byte.byte)) :=
  match hs with
  | [] => Some []
  | i :: hs' =>
      match get_full_block_bytes env (height_to_hash env i) with
      | None => None
      | Some block_bytes => option_map (cons block_bytes) (collect_bytes env hs')
      end
  end.

(** [bytes(uint32(v))] and [n.to_bytes(4, "big", signed=False)]: four
    bytes, most significant first. *)
Definition be32 (v : Z) : list Byte.byte := rev (le_split 4 v).

Definition request_blocks (env : Env) (start_height end_height : Z)
    (include_transaction_block : bool) : option Message :=
  let reject := Some (reject_blocks start_height end_height) in
  if (end_height <? start_height) || (32 <? end_height - start_height) then reject
  else if negb (forallb (contains_height env) (heights start_height end_height))
  then reject
  else if negb include_transaction_block then
    match collect_blocks env (heights start_height end_height) with
    | None => reject
    | Some blocks => Some (respond_blocks start_height end_height blocks)
    end
  else
    match collect_bytes env (heights start_height end_height) with
    | None => reject
    | Some blocks_bytes =>
        Some (respond_blocks_streamed
                (be32 start_height ++ be32 end_height
                 ++ be32 (Z.of_nat (length blocks_bytes))
                 ++ concat blocks_bytes))
    end.

(** The front part of [request_header_blocks], up to the list of header
    hashes that goes to [get_blocks_by_hash]: [inl] is the reply that
    ends the handler. *)
Definition header_hashes (env : Env) (start_height end_height : Z)
    : option Message + list (option bytes32) :=
  if (end_height <? start_height) || (32 <? end_height - start_height)
  then inl None
  else if negb (forallb (contains_height env) (heights start_height end_height))
  then inl (Some (reject_header_blocks start_height end_height))
  else inr (map (height_to_hash env) (heights start_height end_height)).

(** Reads a [be32] back. *)
Definition be32_value (bs : list Byte.byte) : Z := le_combine (rev bs).

(** [request_block] always answers. When the height is in the chain and
    the store has the block of its hash, the answer is a [respond_block]
    with the stored block, without its generator when the peer did not
    ask for transactions and as it is stored otherwise; the answer is a
    [reject_block] for the height exactly when the height is not in the
    chain or the store has no block for it. *)
Theorem request_block_answer (env : Env) (height : Z) (include : bool) :
  exists m, request_block env height include = Some m /\
    (forall stored,
       contains_height env height = true ->
       get_full_block env (height_to_hash env height) = Some stored ->
       exists b, m = respond_block b /\
         fb_height b = fb_height stored /\ fb_rest b = fb_rest stored /\
         fb_transactions_generator b
           = (if include then fb_transactions_generator stored else None)) /\
    (forall b, m = respond_block b ->
       contains_height env height = true /\
       exists stored, get_full_block env (height_to_hash env height) = Some stored /\
         fb_height b = fb_height stored /\ fb_rest b = fb_rest stored /\
         fb_transactions_generator b
           = (if include then fb_transactions_generator stored else None)) /\
    (m = reject_block height <->
       contains_height env height = false \/
       get_full_block env (height_to_hash env height) = None).
Proof.
  unfold request_block.
  destruct (contains_height env height); cbn [negb].
  2:{ eexists. split; [reflexivity|]. split; [discriminate|].
      split; [discriminate|]. tauto. }
  destruct (get_full_block env (height_to_hash env height)) as [stored|].
  2:{ eexists. split; [reflexivity|]. split; [discriminate|].
      split; [discriminate|]. tauto. }
  assert (Hb : let b := if negb include
                           && bool_decide (is_Some (fb_transactions_generator stored))
                        then without_generator stored else stored in
               fb_height b = fb_height stored /\ fb_rest b = fb_rest stored /\
               fb_transactions_generator b
               = (if include then fb_transactions_generator stored else None)).
  { destruct include; cbn [negb andb]; [repeat split|].
    destruct (fb_transactions_generator stored) as [g|] eqn:E.
    - rewrite bool_decide_eq_true_2 by eauto. repeat split.
    - rewrite bool_decide_eq_false_2 by (intros [? ?]; discriminate).
      repeat split. exact E. }
  cbv zeta in Hb.
  eexists. split; [reflexivity|]. split; [|split].
  - intros stored' _ E. assert (stored' = stored) by congruence. subst stored'.
    eexists. split; [reflexivity|]. exact Hb.
  - intros b E. injection E as <-. split; [reflexivity|].
    exists stored. split; [reflexivity|]. exact Hb.
  - split; [discriminate | intros [H|H]; discriminate].
Qed.

Lemma collect_blocks_Some (env : Env) (hs : list Z) (blocks : list FullBlock) :
  collect_blocks env hs = Some blocks ->
  length blocks = length hs /\
  forall k i, hs !! k = Some i ->
    exists stored, get_full_block env (height_to_hash env i) = Some stored /\
      blocks !! k = Some (without_generator stored).
Proof.
  revert blocks. induction hs as [|i hs IH]; intros blocks; simpl.
  - intros H. injection H as <-. split; [reflexivity|]. intros k j H. discriminate.
  - destruct (get_full_block env (height_to_hash env i)) as [stored|] eqn:E;
      [|discriminate].
    destruct (collect_blocks env hs) as [rest|]; [|discriminate].
    intros H. injection H as <-. destruct (IH rest eq_refl) as [Hlen Hk].
    split; [simpl; lia|]. intros [|k] j Hj; simpl in *.
    + injection Hj as <-. eauto.
    + apply Hk, Hj.
Qed.

Lemma collect_blocks_None (env : Env) (hs : list Z) :
  collect_blocks env hs = None ->
  exists i, i ∈ hs /\ get_full_block env (height_to_hash env i) = None.
Proof.
  induction hs as [|i hs IH]; simpl; [discriminate|].
  destruct (get_full_block env (height_to_hash env i)) as [stored|] eqn:E.
  - destruct (collect_blocks env hs) as [rest|]; [discriminate|].
    intros _. destruct (IH eq_refl) as (j & Hj & Hn). exists j.
    split; [right; exact Hj | exact Hn].
  - intros _. exists i. split; [left | exact E].
Qed.

Lemma heights_lookup (s e : Z) (k : nat) (i : Z) :
  heights s e !! k = Some i -> i = s + Z.of_nat k /\ s <= i <= e.
Proof.
  unfold heights. intros H. apply lookup_seqZ in H. lia.
Qed.

Lemma heights_elem (s e i : Z) : i ∈ heights s e <-> s <= i <= e.
Proof. unfold heights. rewrite elem_of_seqZ. lia. Qed.

Lemma heights_length (s e : Z) :
  s <= e -> Z.of_nat (length (heights s e)) = e - s + 1.
Proof. intros H. unfold heights. rewrite length_seqZ. lia. Qed.

(** [request_blocks] for a peer that did not ask for generators: the
    answer is a reject, or the blocks of exactly the heights from
    [start_height] to [end_height], in this order, at most 33 of them,
    each the stored block without its generator; and it is such a list
    only if the range is well formed and every height is in the chain. *)
Theorem request_blocks_answer (env : Env) (s e : Z) :
  exists m, request_blocks env s e false = Some m /\
    (m = reject_blocks s e \/
     exists blocks,
       m = respond_blocks s e blocks /\
       s <= e /\ Z.of_nat (length blocks) = e - s + 1 /\
       (length blocks <= 33)%nat /\
       (forall i, s <= i <= e -> contains_height env i = true) /\
       (forall k b, blocks !! k = Some b ->
          fb_transactions_generator b = None /\
          exists stored,
            get_full_block env (height_to_hash env (s + Z.of_nat k)) = Some stored /\
            b = without_generator stored)).
Proof.
  unfold request_blocks.
  destruct (Z.ltb_spec e s) as [H1|H1]; cbn [orb];
    [eexists; split; [reflexivity | left; reflexivity]|].
  destruct (Z.ltb_spec 32 (e - s)) as [H2|H2];
    [eexists; split; [reflexivity | left; reflexivity]|].
  destruct (forallb (contains_height env) (heights s e)) eqn:Hall; cbn [negb];
    [|eexists; split; [reflexivity | left; reflexivity]].
  destruct (collect_blocks env (heights s e)) as [blocks|] eqn:Hc;
    [|eexists; split; [reflexivity | left; reflexivity]].
  eexists. split; [reflexivity|]. right. exists blocks.
  apply collect_blocks_Some in Hc as [Hlen Hk].
  pose proof (heights_length s e H1) as HL.
  split; [reflexivity|]. split; [assumption|]. split; [lia|]. split; [lia|].
  split.
  - intros i Hi. rewrite forallb_forall in Hall. apply Hall.
    apply list_elem_of_In, heights_elem, Hi.
  - intros k b Hb.
    assert (Hlt : (k < length (heights s e))%nat).
    { rewrite <- Hlen. apply lookup_lt_Some in Hb. exact Hb. }
    destruct (lookup_lt_is_Some_2 _ _ Hlt) as [i Hi].
    destruct (Hk k i Hi) as (stored & Hs & Hb').
    apply heights_lookup in Hi as [-> _].
    rewrite Hb in Hb'. injection Hb' as ->.
    split; [reflexivity|]. eauto.
Qed.

Lemma be32_value_be32 (v : Z) : 0 <= v < 2 ^ 32 -> be32_value (be32 v) = v.
Proof.
  intros H. unfold be32_value, be32. rewrite rev_involutive, le_combine_split.
  apply Z.mod_small. exact H.
Qed.

Lemma be32_length (v : Z) : length (be32 v) = 4%nat.
Proof. unfold be32. rewrite length_rev. apply length_le_split. Qed.

Lemma collect_bytes_Some (env : Env) (hs : list Z) (bl : list (list Byte.byte)) :
  collect_bytes env hs = Some bl ->
  length bl = length hs /\
  forall k i, hs !! k = Some i ->
    get_full_block_bytes env (height_to_hash env i) = bl !! k.
Proof.
  revert bl. induction hs as [|i hs IH]; intros bl; simpl.
  - intros H. injection H as <-. split; [reflexivity|]. intros k j H. discriminate.
  - destruct (get_full_block_bytes env (height_to_hash env i)) as [bs|] eqn:E;
      [|discriminate].
    destruct (collect_bytes env hs) as [rest|]; [|discriminate].
    intros H. injection H as <-. destruct (IH rest eq_refl) as [Hlen Hk].
    split; [simpl; lia|]. intros [|k] j Hj; simpl in *.
    + injection Hj as <-. exact E.
    + apply Hk, Hj.
Qed.

(** The hand-made stream of [request_blocks]: for heights that are
    [uint32], the first three groups of four bytes read back as the start
    height, the end height and the number of blocks, which is
    [end_height - start_height + 1]; the rest is the serialized blocks of
    the heights in order, one after the other. *)
Theorem request_blocks_stream_layout (env : Env) (s e : Z) (bytes : list Byte.byte) :
  0 <= s -> e < 2 ^ 32 ->
  request_blocks env s e true = Some (respond_blocks_streamed bytes) ->
  be32_value (take 4 bytes) = s /\
  be32_value (take 4 (drop 4 bytes)) = e /\
  be32_value (take 4 (drop 8 bytes)) = e - s + 1 /\
  exists blocks_bytes,
    drop 12 bytes = concat blocks_bytes /\
    Z.of_nat (length blocks_bytes) = e - s + 1 /\
    forall k, (k < length blocks_bytes)%nat ->
      get_full_block_bytes env (height_to_hash env (s + Z.of_nat k))
      = blocks_bytes !! k.
Proof.
  intros Hs He. unfold request_blocks.
  destruct (Z.ltb_spec e s) as [H1|H1]; cbn [orb]; [discriminate|].
  destruct (Z.ltb_spec 32 (e - s)) as [H2|H2]; [discriminate|].
  destruct (forallb (contains_height env) (heights s e)); cbn [negb];
    [|discriminate].
  destruct (collect_bytes env (heights s e)) as [bl|] eqn:Hc; [|discriminate].
  intros H.
  assert (Hb : bytes = be32 s ++ be32 e ++ be32 (Z.of_nat (length bl)) ++ concat bl)
    by congruence.
  clear H. subst bytes.
  apply collect_bytes_Some in Hc as [Hlen Hk].
  pose proof (heights_length s e H1) as HL. rewrite <- Hlen in HL.
  rewrite HL.
  assert (T : forall (a rest : list Byte.byte), length a = 4%nat ->
            take 4 (a ++ rest) = a /\ drop 4 (a ++ rest) = rest).
  { intros a rest Ha. split.
    - rewrite take_app_le by lia. apply firstn_all2. lia.
    - rewrite drop_app_ge by lia. rewrite Ha. reflexivity. }
  destruct (T (be32 s) (be32 e ++ be32 (e - s + 1) ++ concat bl) (be32_length _))
    as [T1 D1].
  destruct (T (be32 e) (be32 (e - s + 1) ++ concat bl) (be32_length _))
    as [T2 D2].
  destruct (T (be32 (e - s + 1)) (concat bl) (be32_length _)) as [T3 D3].
  assert (D8 : drop 8 (be32 s ++ be32 e ++ be32 (e - s + 1) ++ concat bl)
               = be32 (e - s + 1) ++ concat bl).
  { change 8%nat with (4 + 4)%nat. rewrite <- drop_drop, D1, D2. reflexivity. }
  assert (D12 : drop 12 (be32 s ++ be32 e ++ be32 (e - s + 1) ++ concat bl)
                = concat bl).
  { change 12%nat with (8 + 4)%nat. rewrite <- drop_drop, D8, D3. reflexivity. }
  rewrite D12, D8, D1, T1, T2, T3.
  rewrite !be32_value_be32 by lia.
  repeat split. exists bl. split; [reflexivity|]. split; [exact HL|].
  intros k Hlt.
  assert (Hi : heights s e !! k = Some (s + Z.of_nat k)).
  { unfold heights. apply lookup_seqZ. split; [reflexivity|]. lia. }
  apply (Hk k _ Hi).
Qed.

Definition env_example : Env :=
  mkEnv (fun h => (h <=? 20)) (fun h => Some (Z.to_N h))
        (fun hash => match hash with
                     | Some h => Some (mkFullBlock (Z.of_N h) (Some 7%N) h)
                     | None => None
                     end)
        (fun hash => match hash with
                     | Some h => Some [Byte.x01; Byte.x02]
                     | None => None
                     end).

Lemma request_blocks_stream_layout_witness :
  be32_value (take 4 (drop 8
    (be32 3 ++ be32 5 ++ be32 3
     ++ [Byte.x01; Byte.x02; Byte.x01; Byte.x02; Byte.x01; Byte.x02]))) = 3.
Proof.
  apply (request_blocks_stream_layout env_example 3 5 _ ltac:(lia) ltac:(lia)
           eq_refl).
Defined.

(** The two range requests treat a malformed range (the end before the
    start, or more than 33 heights) differently: [request_blocks] sends a
    reject, [request_header_blocks] gives no answer at all; for a height
    that is not in the chain both reject; and the header hashes that go
    to the block store are those of the heights of the range, in order,
    at most 33. *)
Theorem range_requests (env : Env) (s e : Z) (include : bool) :
  (e < s \/ 32 < e - s ->
   request_blocks env s e include = Some (reject_blocks s e) /\
   header_hashes env s e = inl None) /\
  (forall i, s <= i <= e -> 32 >= e - s -> contains_height env i = false ->
   request_blocks env s e include = Some (reject_blocks s e) /\
   header_hashes env s e = inl (Some (reject_header_blocks s e))) /\
  (forall hs, header_hashes env s e = inr hs ->
   Z.of_nat (length hs) = e - s + 1 /\ (length hs <= 33)%nat /\
   forall k, (k < length hs)%nat ->
     hs !! k = Some (height_to_hash env (s + Z.of_nat k))).
Proof.
  unfold request_blocks, header_hashes. split; [|split].
  - intros H.
    assert (E : (e <? s) || (32 <? e - s) = true).
    { apply orb_true_iff. destruct H; [left; apply Z.ltb_lt | right; apply Z.ltb_lt];
        assumption. }
    rewrite E. split; reflexivity.
  - intros i Hi H32 Hc.
    destruct (Z.ltb_spec e s); [lia|]. destruct (Z.ltb_spec 32 (e - s)); [lia|].
    cbn [orb].
    assert (E : forallb (contains_height env) (heights s e) = false).
    { apply not_true_is_false. intros Hall. rewrite forallb_forall in Hall.
      specialize (Hall i ltac:(apply list_elem_of_In, heights_elem; exact Hi)).
      congruence. }
    rewrite E. split; reflexivity.
  - intros hs.
    destruct (Z.ltb_spec e s) as [|H1]; cbn [orb]; [discriminate|].
    destruct (Z.ltb_spec 32 (e - s)) as [|H2]; [discriminate|].
    destruct (forallb (contains_height env) (heights s e)); cbn [negb];
      [|discriminate].
    intros H. injection H as <-. rewrite length_map.
    pose proof (heights_length s e H1) as HL.
    split; [exact HL|]. split; [lia|].
    intros k Hk. rewrite list_lookup_fmap.
    assert (Hi : heights s e !! k = Some (s + Z.of_nat k)).
    { unfold heights. apply lookup_seqZ. split; [reflexivity|]. lia. }
    rewrite Hi. reflexivity.
Qed.

End BlockRequests.

(** * Wallet subscriptions: [register_interest_in_puzzle_hash] and
      [register_interest_in_coin] *)

Module Subscriptions.
Local Open Scope Z_scope.

(** The five dictionaries of the full node that the two handlers
    update; peers, puzzle hashes and coin ids are all [bytes32]. *)
Record Subs := mkSubs {
  peer_puzzle_hash : gmap bytes32 (gset bytes32);
  peer_coin_ids : gmap bytes32 (gset bytes32);
  ph_subscriptions : gmap bytes32 (gset bytes32);
  coin_subscriptions : gmap bytes32 (gset bytes32);
  peer_sub_counter : gmap bytes32 Z
}.

Definition empty_subs : Subs := mkSubs ∅ ∅ ∅ ∅ ∅.

(** [if k not in d: d[k] = v]. *)
Definition setdefault {V : Type} (k : bytes32) (v : V) (d : gmap bytes32 V)
    : gmap bytes32 V :=
  match d !! k with Some _ => d | None => <[k := v]> d end.

(** [d[k]], for a key that the handler has made sure of. *)
Definition sets_at (d : gmap bytes32 (gset bytes32)) (k : bytes32)
    : gset bytes32 :=
  default ∅ (d !! k).

Definition counter_at (st : Subs) (peer : bytes32) : Z :=
  default 0 (peer_sub_counter st !! peer).

(** The body of the loop of [register_interest_in_puzzle_hash] that
    changes the dictionaries, for one puzzle hash. *)
Definition subscribe_ph (peer puzzle_hash : bytes32) (st : Subs) : Subs :=
  let subs := setdefault puzzle_hash ∅ (ph_subscriptions st) in
  if bool_decide (peer ∉ sets_at subs puzzle_hash)
     && (counter_at st peer <? 100000)
  then
    mkSubs
      (<[peer := sets_at (peer_puzzle_hash st) peer ∪ {[ puzzle_hash ]}]>
         (peer_puzzle_hash st))
      (peer_coin_ids st)
      (<[puzzle_hash := sets_at subs puzzle_hash ∪ {[ peer ]}]> subs)
      (coin_subscriptions st)
      (<[peer := counter_at st peer + 1]> (peer_sub_counter st))
  else
    mkSubs (peer_puzzle_hash st) (peer_coin_ids st) subs
           (coin_subscriptions st) (peer_sub_counter st).

(** The same for one coin id in [register_interest_in_coin]. *)
Definition subscribe_coin (peer coin_id : bytes32) (st : Subs) : Subs :=
  let subs := setdefault coin_id ∅ (coin_subscriptions st) in
  if bool_decide (peer ∉ sets_at subs coin_id)
     && (counter_at st peer <? 100000)
  then
    mkSubs
      (peer_puzzle_hash st)
      (<[peer := sets_at (peer_coin_ids st) peer ∪ {[ coin_id ]}]>
         (peer_coin_ids st))
      (ph_subscriptions st)
      (<[coin_id := sets_at subs coin_id ∪ {[ peer ]}]> subs)
      (<[peer := counter_at st peer + 1]> (peer_sub_counter st))
  else
    mkSubs (peer_puzzle_hash st) (peer_coin_ids st) (ph_subscriptions st)
           subs (peer_sub_counter st).

(** The dictionaries after [register_interest_in_puzzle_hash]: the two
    entries of the peer are made sure of, then the puzzle hashes of the
    request are gone through in order. *)
Definition register_interest_in_puzzle_hash (peer : bytes32)
    (puzzle_hashes : list bytes32) (st : Subs) : Subs :=
  let st0 :=
    mkSubs (setdefault peer ∅ (peer_puzzle_hash st)) (peer_coin_ids st)
           (ph_subscriptions st) (coin_subscriptions st)
           (setdefault peer 0 (peer_sub_counter st)) in
  fold_left (fun s ph => subscribe_ph peer ph s) puzzle_hashes st0.

Definition register_interest_in_coin (peer : bytes32)
    (coin_ids : list bytes32) (st : Subs) : Subs :=
  let st0 :=
    mkSubs (peer_puzzle_hash st) (setdefault peer ∅ (peer_coin_ids st))
           (ph_subscriptions st) (coin_subscriptions st)
           (setdefault peer 0 (peer_sub_counter st)) in
  fold_left (fun s c => subscribe_coin peer c s) coin_ids st0.

(** The reply of [register_interest_in_puzzle_hash]: the states of the
    coins with the puzzle hashes, then those of the hinted coins if there
    are any. [get_coin_ids] is the hint store, the other two the coin
    store, all asked with [min_height]. *)
Record RespondToPhUpdates := mkRespondToPhUpdates {
  r_puzzle_hashes : list bytes32;
  r_min_height : Z;
  r_coin_states : list N
}.

Definition ph_update_reply (get_coin_ids : bytes32 -> list bytes32)
    (get_coin_states_by_puzzle_hashes : list bytes32 -> Z -> list N)
    (get_coin_state_by_ids : list bytes32 -> Z -> list N)
    (puzzle_hashes : list bytes32) (min_height : Z) : RespondToPhUpdates :=
  let hint_coin_ids := concat (map get_coin_ids puzzle_hashes) in
  let states := get_coin_states_by_puzzle_hashes puzzle_hashes min_height in
  mkRespondToPhUpdates puzzle_hashes min_height
    (match hint_coin_ids with
     | [] => states
     | _ => states ++ get_coin_state_by_ids hint_coin_ids min_height
     end).

(** ** Invariants *)

(** A peer is among the subscribers of a puzzle hash (a coin id) exactly
    when the puzzle hash (the coin id) is among those of the peer. *)
Definition consistent (st : Subs) : Prop :=
  (forall ph p, p ∈ sets_at (ph_subscriptions st) ph
                <-> ph ∈ sets_at (peer_puzzle_hash st) p) /\
  (forall c p, p ∈ sets_at (coin_subscriptions st) c
               <-> c ∈ sets_at (peer_coin_ids st) p).

(** The counter of a peer is the number of its subscriptions. *)
Definition counted (st : Subs) : Prop :=
  forall p, counter_at st p
            = Z.of_nat (size (sets_at (peer_puzzle_hash st) p))
              + Z.of_nat (size (sets_at (peer_coin_ids st) p)).

Definition capped (st : Subs) : Prop :=
  forall p, counter_at st p <= 100000.

Definition inv (st : Subs) : Prop := consistent st /\ counted st /\ capped st.

Lemma sets_at_setdefault (d : gmap bytes32 (gset bytes32)) (k k' : bytes32) :
  sets_at (setdefault k ∅ d) k' = sets_at d k'.
Proof.
  unfold sets_at, setdefault. destruct (d !! k) eqn:E; [reflexivity|].
  destruct (decide (k = k')) as [<-|Hne].
  - rewrite lookup_insert_eq, E. reflexivity.
  - rewrite lookup_insert_ne by assumption. reflexivity.
Qed.

Lemma sets_at_insert (d : gmap bytes32 (gset bytes32)) (k k' : bytes32)
    (v : gset bytes32) :
  sets_at (<[k := v]> d) k' = if decide (k = k') then v else sets_at d k'.
Proof.
  unfold sets_at. destruct (decide (k = k')) as [<-|Hne].
  - rewrite lookup_insert_eq. reflexivity.
  - rewrite lookup_insert_ne by assumption. reflexivity.
Qed.

Lemma default_setdefault_0 (d : gmap bytes32 Z) (k k' : bytes32) :
  default 0 (setdefault k 0 d !! k') = default 0 (d !! k').
Proof.
  unfold setdefault. destruct (d !! k) eqn:E; [reflexivity|].
  destruct (decide (k = k')) as [<-|Hne].
  - rewrite lookup_insert_eq, E. reflexivity.
  - rewrite lookup_insert_ne by assumption. reflexivity.
Qed.

Lemma default_insert (d : gmap bytes32 Z) (k k' : bytes32) (v : Z) :
  default 0 (<[k := v]> d !! k') = if decide (k = k') then v else default 0 (d !! k').
Proof.
  destruct (decide (k = k')) as [<-|Hne].
  - rewrite lookup_insert_eq. reflexivity.
  - rewrite lookup_insert_ne by assumption. reflexivity.
Qed.

Lemma inv_setdefault_ph (ph : bytes32) (st : Subs) :
  inv st ->
  inv (mkSubs (peer_puzzle_hash st) (peer_coin_ids st)
              (setdefault ph ∅ (ph_subscriptions st))
              (coin_subscriptions st) (peer_sub_counter st)).
Proof.
  intros ((Cph & Cco) & Cnt & Cap). split; [split|split].
  - intros ph' p. cbn. rewrite sets_at_setdefault. apply Cph.
  - exact Cco.
  - exact Cnt.
  - exact Cap.
Qed.

Lemma subscribe_ph_inv (peer ph : bytes32) (st : Subs) :
  inv st -> inv (subscribe_ph peer ph st).
Proof.
  intros I. pose proof (inv_setdefault_ph ph st I) as Same.
  destruct I as ((Cph & Cco) & Cnt & Cap). unfold subscribe_ph.
  rewrite sets_at_setdefault.
  destruct (bool_decide_reflect (peer ∉ sets_at (ph_subscriptions st) ph))
    as [Hnot|Hin]; cbn [andb]; [|exact Same].
  destruct (Z.ltb_spec (counter_at st peer) 100000) as [Hlt|Hge];
    [|exact Same].
  assert (Hnew : ph ∉ sets_at (peer_puzzle_hash st) peer)
    by (intros H; apply Hnot, Cph, H).
  split; [split|split].
  - intros ph' p. cbn. rewrite !sets_at_insert, !sets_at_setdefault.
    specialize (Cph ph' p).
    destruct (decide (ph = ph')) as [<-|], (decide (peer = p)) as [<-|];
      set_solver.
  - exact Cco.
  - intros p. unfold counter_at. cbn. rewrite default_insert, sets_at_insert.
    specialize (Cnt p). unfold counter_at in Cnt.
    destruct (decide (peer = p)) as [<-|]; [|exact Cnt].
    rewrite size_union by set_solver. rewrite size_singleton.
    unfold counter_at. lia.
  - intros p. unfold counter_at. cbn. rewrite default_insert.
    destruct (decide (peer = p)) as [<-|]; [unfold counter_at in Hlt; lia|].
    apply Cap.
Qed.

(** The same dictionaries with the roles of puzzle hashes and coin ids
    exchanged. *)
Definition swap (st : Subs) : Subs :=
  mkSubs (peer_coin_ids st) (peer_puzzle_hash st) (coin_subscriptions st)
         (ph_subscriptions st) (peer_sub_counter st).

Lemma subscribe_coin_swap (peer c : bytes32) (st : Subs) :
  subscribe_coin peer c st = swap (subscribe_ph peer c (swap st)).
Proof.
  unfold subscribe_coin, subscribe_ph, swap, counter_at. cbn.
  destruct (bool_decide _ && _); reflexivity.
Qed.

Lemma inv_swap (st : Subs) : inv st -> inv (swap st).
Proof.
  intros ((Cph & Cco) & Cnt & Cap). split; [split|split].
  - exact Cco.
  - exact Cph.
  - intros p. specialize (Cnt p). unfold counter_at in *. cbn. lia.
  - exact Cap.
Qed.

Lemma subscribe_coin_inv (peer c : bytes32) (st : Subs) :
  inv st -> inv (subscribe_coin peer c st).
Proof.
  intros H. rewrite subscribe_coin_swap.
  apply (inv_swap (subscribe_ph peer c (swap st))), subscribe_ph_inv, inv_swap, H.
Qed.

Lemma fold_inv (f : bytes32 -> Subs -> Subs) (l : list bytes32) (st : Subs) :
  (forall x s, inv s -> inv (f x s)) -> inv st ->
  inv (fold_left (fun s x => f x s) l st).
Proof.
  intros Hf. revert st. induction l as [|x l IH]; intros st H; simpl;
    [exact H | apply IH, Hf, H].
Qed.

Lemma inv_empty : inv empty_subs.
Proof.
  split; [split|split].
  - intros ph p. unfold sets_at. cbn. rewrite !lookup_empty. reflexivity.
  - intros c p. unfold sets_at. cbn. rewrite !lookup_empty. reflexivity.
  - intros p. unfold counter_at, sets_at. cbn. rewrite !lookup_empty. cbn.
    rewrite size_empty. reflexivity.
  - intros p. unfold counter_at. cbn. rewrite lookup_empty. cbn. lia.
Qed.

(** The two handlers keep the subscriptions consistent, the counter of
    every peer equal to the number of its subscriptions, and that number
    at most 100000. *)
Theorem subscriptions_invariant (peer : bytes32) (l : list bytes32)
    (st : Subs) :
  inv st ->
  inv (register_interest_in_puzzle_hash peer l st) /\
  inv (register_interest_in_coin peer l st) /\
  forall st', st' = register_interest_in_puzzle_hash peer l st \/
              st' = register_interest_in_coin peer l st ->
    forall p, Z.of_nat (size (sets_at (peer_puzzle_hash st') p))
              + Z.of_nat (size (sets_at (peer_coin_ids st') p)) <= 100000.
Proof.
  intros H.
  assert (H1 : inv (register_interest_in_puzzle_hash peer l st)).
  { unfold register_interest_in_puzzle_hash.
    apply (fold_inv (subscribe_ph peer)); [intros; now apply subscribe_ph_inv|].
    destruct H as ((Cph & Cco) & Cnt & Cap). split; [split|split].
    - intros ph p. cbn. rewrite sets_at_setdefault. apply Cph.
    - exact Cco.
    - intros p. unfold counter_at. cbn.
      rewrite default_setdefault_0, sets_at_setdefault. apply Cnt.
    - intros p. unfold counter_at. cbn. rewrite default_setdefault_0. apply Cap. }
  assert (H2 : inv (register_interest_in_coin peer l st)).
  { unfold register_interest_in_coin.
    apply (fold_inv (subscribe_coin peer)); [intros; now apply subscribe_coin_inv|].
    destruct H as ((Cph & Cco) & Cnt & Cap). split; [split|split].
    - exact Cph.
    - intros c p. cbn. rewrite sets_at_setdefault. apply Cco.
    - intros p. unfold counter_at. cbn.
      rewrite default_setdefault_0, sets_at_setdefault. apply Cnt.
    - intros p. unfold counter_at. cbn. rewrite default_setdefault_0. apply Cap. }
  split; [exact H1|]. split; [exact H2|].
  intros st' Hst' p.
  assert (I : inv st') by (destruct Hst' as [->| ->]; assumption).
  destruct I as (_ & Cnt & Cap). specialize (Cnt p). specialize (Cap p). lia.
Qed.

Lemma subscriptions_invariant_witness :
  inv (register_interest_in_puzzle_hash 1%N [10%N; 11%N; 10%N] empty_subs) /\
  inv (register_interest_in_coin 1%N [10%N; 11%N; 10%N] empty_subs) /\
  forall st',
    st' = register_interest_in_puzzle_hash 1%N [10%N; 11%N; 10%N] empty_subs \/
    st' = register_interest_in_coin 1%N [10%N; 11%N; 10%N] empty_subs ->
    forall p, Z.of_nat (size (sets_at (peer_puzzle_hash st') p))
              + Z.of_nat (size (sets_at (peer_coin_ids st') p)) <= 100000.
Proof. apply subscriptions_invariant, inv_empty. Defined.

(** ** Registering again *)

(** Nothing is left to do for [puzzle_hash]: it has its entry, and the
    peer is in it or has used up its subscriptions. *)
Definition settled (peer puzzle_hash : bytes32) (st : Subs) : Prop :=
  is_Some (ph_subscriptions st !! puzzle_hash) /\
  (peer ∈ sets_at (ph_subscriptions st) puzzle_hash \/
   100000 <= counter_at st peer).

(** The peer has its two entries. *)
Definition known (peer : bytes32) (st : Subs) : Prop :=
  is_Some (peer_puzzle_hash st !! peer) /\
  is_Some (peer_sub_counter st !! peer).

Lemma setdefault_present {V : Type} (k : bytes32) (v : V)
    (d : gmap bytes32 V) :
  is_Some (d !! k) -> setdefault k v d = d.
Proof. intros [x E]. unfold setdefault. rewrite E. reflexivity. Qed.

Lemma setdefault_is_Some {V : Type} (k k' : bytes32) (v : V)
    (d : gmap bytes32 V) :
  k = k' \/ is_Some (d !! k') -> is_Some (setdefault k v d !! k').
Proof.
  unfold setdefault. intros H. destruct (d !! k) eqn:E.
  - destruct H as [<-|H]; [rewrite E; eauto | exact H].
  - destruct (decide (k = k')) as [<-|Hne].
    + rewrite lookup_insert_eq. eauto.
    + rewrite lookup_insert_ne by assumption. destruct H; [contradiction|assumption].
Qed.

Lemma insert_is_Some {V : Type} (k k' : bytes32) (v : V)
    (d : gmap bytes32 V) :
  k = k' \/ is_Some (d !! k') -> is_Some (<[k := v]> d !! k').
Proof.
  intros H. destruct (decide (k = k')) as [<-|Hne].
  - rewrite lookup_insert_eq. eauto.
  - rewrite lookup_insert_ne by assumption. destruct H; [contradiction|assumption].
Qed.

Lemma subscribe_ph_settled (peer ph : bytes32) (st : Subs) :
  settled peer ph st -> subscribe_ph peer ph st = st.
Proof.
  intros [Hkey Hdone]. unfold subscribe_ph.
  rewrite (setdefault_present ph ∅ _ Hkey).
  assert (C : bool_decide (peer ∉ sets_at (ph_subscriptions st) ph)
              && (counter_at st peer <? 100000) = false).
  { destruct Hdone as [Hin|Hfull].
    - rewrite bool_decide_eq_false_2 by (intros H; exact (H Hin)). reflexivity.
    - apply andb_false_iff. right. apply Z.ltb_ge, Hfull. }
  rewrite C. destruct st; reflexivity.
Qed.

Lemma subscribe_ph_settles (peer ph : bytes32) (st : Subs) :
  settled peer ph (subscribe_ph peer ph st).
Proof.
  unfold subscribe_ph. rewrite sets_at_setdefault.
  destruct (bool_decide_reflect (peer ∉ sets_at (ph_subscriptions st) ph))
    as [Hnot|Hin]; cbn [andb].
  - destruct (Z.ltb_spec (counter_at st peer) 100000) as [Hlt|Hge].
    + split; cbn.
      * apply insert_is_Some. now left.
      * left. rewrite sets_at_insert. destruct (decide (ph = ph)); set_solver.
    + split; cbn.
      * apply setdefault_is_Some. now left.
      * right. exact Hge.
  - split; cbn.
    + apply setdefault_is_Some. now left.
    + left. rewrite sets_at_setdefault.
      destruct (decide (peer ∈ sets_at (ph_subscriptions st) ph)); [assumption|].
      contradiction.
Qed.

Lemma subscribe_ph_keeps (peer ph ph' : bytes32) (st : Subs) :
  settled peer ph st -> settled peer ph (subscribe_ph peer ph' st).
Proof.
  intros [Hkey Hdone]. unfold subscribe_ph. rewrite sets_at_setdefault.
  destruct (bool_decide (peer ∉ sets_at (ph_subscriptions st) ph')
            && (counter_at st peer <? 100000)).
  - split; cbn.
    + apply insert_is_Some. right. apply setdefault_is_Some. now right.
    + destruct Hdone as [Hin|Hfull].
      * left. rewrite sets_at_insert, sets_at_setdefault.
        destruct (decide (ph' = ph)) as [->|]; set_solver.
      * right. unfold counter_at. cbn. rewrite default_insert.
        destruct (decide (peer = peer)); [|contradiction].
        unfold counter_at in Hfull. lia.
  - split; cbn.
    + apply setdefault_is_Some. now right.
    + rewrite sets_at_setdefault. exact Hdone.
Qed.

Lemma subscribe_ph_known (peer ph : bytes32) (st : Subs) :
  known peer st -> known peer (subscribe_ph peer ph st).
Proof.
  intros [H1 H2]. unfold subscribe_ph.
  destruct (bool_decide _ && _); split; cbn; try assumption;
    apply insert_is_Some; now right.
Qed.

Lemma fold_settled (peer : bytes32) (l : list bytes32) :
  forall st, known peer st ->
    known peer (fold_left (fun s ph => subscribe_ph peer ph s) l st) /\
    forall ph, In ph l \/ settled peer ph st ->
      settled peer ph (fold_left (fun s ph => subscribe_ph peer ph s) l st).
Proof.
  induction l as [|x l IH]; intros st K; simpl.
  - split; [exact K|]. intros ph [[]|H]. exact H.
  - destruct (IH (subscribe_ph peer x st) (subscribe_ph_known peer x st K))
      as [K' S']. split; [exact K'|].
    intros ph [[<-|Hin]|H]; apply S'.
    + right. apply subscribe_ph_settles.
    + now left.
    + right. apply subscribe_ph_keeps, H.
Qed.

Lemma fold_all_settled (peer : bytes32) (l : list bytes32) (st : Subs) :
  (forall ph, In ph l -> settled peer ph st) ->
  fold_left (fun s ph => subscribe_ph peer ph s) l st = st.
Proof.
  induction l as [|x l IH]; intros H; simpl; [reflexivity|].
  rewrite subscribe_ph_settled by (apply H; now left).
  apply IH. intros ph Hin. apply H. now right.
Qed.

Lemma register_ph_twice (peer : bytes32) (l : list bytes32) (st : Subs) :
  register_interest_in_puzzle_hash peer l
    (register_interest_in_puzzle_hash peer l st)
  = register_interest_in_puzzle_hash peer l st.
Proof.
  unfold register_interest_in_puzzle_hash at 2.
  set (st0 := mkSubs _ _ _ _ _).
  assert (K0 : known peer st0)
    by (split; cbn; apply setdefault_is_Some; now left).
  destruct (fold_settled peer l st0 K0) as [[K1 K2] S].
  set (r := fold_left _ l st0) in *.
  unfold register_interest_in_puzzle_hash.
  rewrite (setdefault_present peer ∅ _ K1), (setdefault_present peer 0 _ K2).
  replace (mkSubs (peer_puzzle_hash r) (peer_coin_ids r) (ph_subscriptions r)
                  (coin_subscriptions r) (peer_sub_counter r)) with r
    by (destruct r; reflexivity).
  apply fold_all_settled. intros ph Hin. apply S. now left.
Qed.

Lemma swap_swap (st : Subs) : swap (swap st) = st.
Proof. destruct st; reflexivity. Qed.

Lemma fold_swap (peer : bytes32) (l : list bytes32) :
  forall st,
    fold_left (fun s c => subscribe_coin peer c s) l (swap st)
    = swap (fold_left (fun s ph => subscribe_ph peer ph s) l st).
Proof.
  induction l as [|x l IH]; intros st; simpl; [reflexivity|].
  rewrite subscribe_coin_swap, swap_swap. apply IH.
Qed.

Lemma register_coin_swap (peer : bytes32) (l : list bytes32) (st : Subs) :
  register_interest_in_coin peer l st
  = swap (register_interest_in_puzzle_hash peer l (swap st)).
Proof.
  unfold register_interest_in_coin, register_interest_in_puzzle_hash.
  rewrite <- fold_swap. reflexivity.
Qed.

(** A request that is handled a second time changes nothing: the
    dictionaries and the counters are as after the first time. *)
Theorem registering_twice (peer : bytes32) (l : list bytes32) (st : Subs) :
  register_interest_in_puzzle_hash peer l
    (register_interest_in_puzzle_hash peer l st)
  = register_interest_in_puzzle_hash peer l st /\
  register_interest_in_coin peer l (register_interest_in_coin peer l st)
  = register_interest_in_coin peer l st.
Proof.
  split; [apply register_ph_twice|].
  rewrite !register_coin_swap, swap_swap, register_ph_twice. reflexivity.
Qed.

Lemma register_ph_settled (peer : bytes32) (l : list bytes32) (st : Subs)
    (ph : bytes32) :
  In ph l -> settled peer ph (register_interest_in_puzzle_hash peer l st).
Proof.
  intros Hin. unfold register_interest_in_puzzle_hash.
  set (st0 := mkSubs _ _ _ _ _).
  assert (K0 : known peer st0)
    by (split; cbn; apply setdefault_is_Some; now left).
  destruct (fold_settled peer l st0 K0) as [_ S]. apply S. now left.
Qed.

(** After either handler, the peer is subscribed to everything it asked
    for, unless its counter has reached 100000: what is over the limit is
    dropped without an error. *)
Theorem subscribed_unless_full (peer : bytes32) (l : list bytes32)
    (st : Subs) (x : bytes32) :
  In x l ->
  (let st' := register_interest_in_puzzle_hash peer l st in
   peer ∈ sets_at (ph_subscriptions st') x \/ 100000 <= counter_at st' peer) /\
  (let st' := register_interest_in_coin peer l st in
   peer ∈ sets_at (coin_subscriptions st') x \/ 100000 <= counter_at st' peer).
Proof.
  intros Hin. split.
  - apply (register_ph_settled peer l st x Hin).
  - rewrite register_coin_swap.
    apply (register_ph_settled peer l (swap st) x Hin).
Qed.

Lemma subscribed_unless_full_witness :
  (let st' := register_interest_in_puzzle_hash 1%N [10%N; 11%N] empty_subs in
   1%N ∈ sets_at (ph_subscriptions st') 11%N \/ 100000 <= counter_at st' 1%N) /\
  (let st' := register_interest_in_coin 1%N [10%N; 11%N] empty_subs in
   1%N ∈ sets_at (coin_subscriptions st') 11%N \/ 100000 <= counter_at st' 1%N).
Proof.
  apply (subscribed_unless_full 1%N [10%N; 11%N] empty_subs 11%N).
  simpl. right. left. reflexivity.
Defined.

End Subscriptions.

(** * Sub-epoch summaries for a range of heights

    [request_ses_hashes] of [full_node_api.py]: the handler goes through
    the heights at which sub-epochs start, looks for the sub-epoch that
    holds the first height of the request, and adds the next one when
    the last height of the request is not strictly inside the first. *)

Module SesHashes.
Local Open Scope Z_scope.

Record RespondSESInfo := mkRespondSESInfo {
  reward_chain_hash : list bytes32;
  heights : list (list Z)
}.

Section Handler.

(** [blockchain.get_ses(height).reward_chain_hash]. *)
Variable get_ses : Z -> bytes32.

(** The [for] loop over [enumerate(ses_height)], on the rest of the list
    from the index it has reached: the pair is [ses_reward_hashes] and
    [ses_hash_heights] when the loop is left. *)
Fixpoint scan (ses_height : list Z) (start_height end_height : Z)
    : list bytes32 * list (list Z) :=
  match ses_height with
  | [] => ([], [])
  | ses_start_height :: rest =>
      match rest with
      | [] => ([], [])
      | next_ses_height :: rest' =>
          if (ses_start_height <=? start_height)
             && (start_height <? next_ses_height)
          then
            if (ses_start_height <? end_height)
               && (end_height <? next_ses_height)
            then ([get_ses ses_start_height],
                  [[ses_start_height; next_ses_height]])
            else
              match rest' with
              | [] => ([get_ses ses_start_height],
                       [[ses_start_height; next_ses_height]])
              | next_next_height :: _ =>
                  ([get_ses ses_start_height; get_ses next_ses_height],
                   [[ses_start_height; next_ses_height];
                    [next_ses_height; next_next_height]])
              end
          else scan rest start_height end_height
      end
  end.

Definition request_ses_hashes (ses_height : list Z)
    (start_height end_height : Z) : RespondSESInfo :=
  let '(ses_reward_hashes, ses_hash_heights) :=
    scan ses_height start_height end_height in
  mkRespondSESInfo ses_reward_hashes ses_hash_heights.

(** The heights are increasing, as the keys of the sub-epoch summaries in
    order are. *)
Fixpoint increasing (l : list Z) : Prop :=
  match l with
  | [] => True
  | x :: rest =>
      match rest with
      | [] => True
      | y :: _ => x < y /\ increasing rest
      end
  end.

(** [a] and [b] follow each other in [l]. *)
Definition adjacent (l : list Z) (a b : Z) : Prop :=
  exists pre post, l = pre ++ a :: b :: post.

Lemma adjacent_cons (x : Z) (l : list Z) (a b : Z) :
  adjacent l a b -> adjacent (x :: l) a b.
Proof. intros (pre & post & ->). exists (x :: pre), post. reflexivity. Qed.

Lemma scan_shape (ses_height : list Z) (start_height end_height : Z) :
  let r := scan ses_height start_height end_height in
  r = ([], []) \/
  (exists s n,
      r = ([get_ses s], [[s; n]]) /\
      adjacent ses_height s n /\ s <= start_height < n) \/
  (exists s n nn,
      r = ([get_ses s; get_ses n], [[s; n]; [n; nn]]) /\
      adjacent ses_height s n /\ adjacent ses_height n nn /\
      s <= start_height < n /\ ~ (s < end_height < n)).
Proof.
  induction ses_height as [|s rest IH]; [now left|].
  destruct rest as [|n rest']; [now left|].
  cbn [scan]. cbv zeta in IH.
  destruct ((s <=? start_height) && (start_height <? n)) eqn:Hin.
  - apply andb_true_iff in Hin as [H1 H2].
    apply Z.leb_le in H1. apply Z.ltb_lt in H2.
    destruct ((s <? end_height) && (end_height <? n)) eqn:Hend.
    + right. left. exists s, n. split; [reflexivity|]. split; [|lia].
      exists [], rest'. reflexivity.
    + assert (Hnot : ~ (s < end_height < n)).
      { intros [A B]. apply Z.ltb_lt in A. apply Z.ltb_lt in B.
        rewrite A, B in Hend. discriminate. }
      destruct rest' as [|nn rest''].
      * right. left. exists s, n. split; [reflexivity|]. split; [|lia].
        exists [], []. reflexivity.
      * right. right. exists s, n, nn. split; [reflexivity|].
        split; [exists [], (nn :: rest''); reflexivity|].
        split; [exists [s], rest''; reflexivity|]. split; [lia|exact Hnot].
  - destruct IH as [IH|[(s' & n' & E & A & B)|(s' & n' & nn & E & A1 & A2 & B)]].
    + left. exact IH.
    + right. left. exists s', n'. split; [exact E|]. split; [|exact B].
      apply adjacent_cons, A.
    + right. right. exists s', n', nn. split; [exact E|].
      split; [apply adjacent_cons, A1|]. split; [apply adjacent_cons, A2|exact B].
Qed.

Lemma scan_found (ses_height : list Z) (start_height end_height : Z) :
  increasing ses_height ->
  hd 0 ses_height <= start_height < List.last ses_height 0 ->
  snd (scan ses_height start_height end_height) <> [].
Proof.
  induction ses_height as [|s rest IH]; [cbn; lia|].
  destruct rest as [|n rest']; [cbn; lia|].
  intros [Hlt Hinc] Hrange. cbn [scan].
  destruct ((s <=? start_height) && (start_height <? n)) eqn:Hin.
  - destruct ((s <? end_height) && (end_height <? n)); [cbn; discriminate|].
    destruct rest'; cbn; discriminate.
  - apply IH; [exact Hinc|].
    cbn [hd] in *. change (List.last (s :: n :: rest') 0) with (List.last (n :: rest') 0) in Hrange.
    apply andb_false_iff in Hin as [H|H];
      [apply Z.leb_gt in H | apply Z.ltb_ge in H]; lia.
Qed.

End Handler.

(** The reply holds no, one or two sub-epochs, with one hash for each:
    the first is the sub-epoch of the heights that holds [start_height],
    a second one is the sub-epoch that follows it, and it is there only
    when [end_height] is not strictly between the bounds of the first. *)
Theorem ses_reply_shape (get_ses : Z -> bytes32) (ses_height : list Z)
    (start_height end_height : Z) :
  let r := request_ses_hashes get_ses ses_height start_height end_height in
  (reward_chain_hash r = [] /\ heights r = []) \/
  (exists s n,
      reward_chain_hash r = [get_ses s] /\ heights r = [[s; n]] /\
      adjacent ses_height s n /\ s <= start_height < n) \/
  (exists s n nn,
      reward_chain_hash r = [get_ses s; get_ses n] /\
      heights r = [[s; n]; [n; nn]] /\
      adjacent ses_height s n /\ adjacent ses_height n nn /\
      s <= start_height < n /\ ~ (s < end_height < n)).
Proof.
  cbv zeta. unfold request_ses_hashes.
  destruct (scan_shape get_ses ses_height start_height end_height)
    as [E|[(s & n & E & H)|(s & n & nn & E & H)]]; rewrite E; cbn.
  - left. split; reflexivity.
  - right. left. exists s, n. repeat split; apply H.
  - right. right. exists s, n, nn.
    destruct H as (A1 & A2 & B & C). repeat split; try assumption; apply B.
Qed.

(** With increasing sub-epoch heights, a first height from the first of
    them on and below the last of them is always answered with its
    sub-epoch; in particular a first height in the sub-epoch that is
    still running gets an empty reply. *)
Theorem ses_reply_found (get_ses : Z -> bytes32) (ses_height : list Z)
    (start_height end_height : Z) :
  increasing ses_height ->
  (hd 0 ses_height <= start_height < List.last ses_height 0 ->
   heights (request_ses_hashes get_ses ses_height start_height end_height)
   <> []) /\
  (List.last ses_height 0 <= start_height ->
   heights (request_ses_hashes get_ses ses_height start_height end_height)
   = []).
Proof.
  intros Hinc. split.
  - intros Hrange. unfold request_ses_hashes.
    pose proof (scan_found get_ses ses_height start_height end_height
                  Hinc Hrange) as H.
    destruct (scan get_ses ses_height start_height end_height). exact H.
  - intros Hlast. unfold request_ses_hashes.
    assert (E : snd (scan get_ses ses_height start_height end_height) = []).
    { revert Hinc Hlast.
      induction ses_height as [|s rest IH]; [reflexivity|].
      destruct rest as [|n rest']; [reflexivity|].
      intros [Hlt Hinc] Hlast. cbn [scan].
      change (List.last (s :: n :: rest') 0) with (List.last (n :: rest') 0) in Hlast.
      assert (Hn : n <= List.last (n :: rest') 0).
      { clear - Hinc. revert n Hinc.
        induction rest' as [|m rest'' IH']; intros n Hinc; [cbn; lia|].
        destruct Hinc as [Hnm Hinc].
        change (List.last (n :: m :: rest'') 0) with (List.last (m :: rest'') 0).
        specialize (IH' m Hinc). lia. }
      destruct ((s <=? start_height) && (start_height <? n)) eqn:Hin.
      - apply andb_true_iff in Hin as [_ H2]. apply Z.ltb_lt in H2. lia.
      - apply IH; assumption. }
    destruct (scan get_ses ses_height start_height end_height). exact E.
Qed.

Lemma ses_reply_found_witness :
  (hd 0 [0; 384; 768] <= 400 < List.last [0; 384; 768] 0 ->
   heights (request_ses_hashes (fun h => Z.to_N h) [0; 384; 768] 400 500)
   <> []) /\
  (List.last [0; 384; 768] 0 <= 400 ->
   heights (request_ses_hashes (fun h => Z.to_N h) [0; 384; 768] 400 500)
   = []).
Proof.
  apply (ses_reply_found (fun h => Z.to_N h) [0; 384; 768] 400 500).
  cbn. lia.
Defined.

End SesHashes.

(** * Additions and removals of a block

    [request_additions] and [request_removals] of [full_node_api.py].
    The dictionaries that the handlers build are Python dictionaries,
    which keep their keys in the order of the first insertion: they are
    association lists here. The Merkle set, the hash of a list of coins
    and the name of a coin are those of the node and stay abstract. *)

Module CoinRequests.
Local Open Scope Z_scope.

Definition bytes := list Byte.byte.

Record Coin := mkCoin {
  parent_coin_info : bytes32;
  puzzle_hash : bytes32;
  amount : Z
}.

Record CoinRecord := mkCoinRecord {
  coin : Coin;
  confirmed_block_index : Z;
  spent_block_index : Z;
  spent : bool;
  coinbase : bool;
  timestamp : Z
}.

(** The two roots are what the handlers read of the foliage. *)
Record FoliageTransactionBlock := mkFoliageTransactionBlock {
  additions_root : bytes32;
  removals_root : bytes32
}.

(** What the handlers read of a block; [header_hash] and
    [is_transaction_block] are the values of the property and of the
    method of these names. *)
Record FullBlock := mkFullBlock {
  header_hash : bytes32;
  height : Z;
  is_transaction_block : bool;
  foliage_transaction_block : option FoliageTransactionBlock;
  transactions_generator : option N
}.

Record RequestAdditions := mkRequestAdditions {
  ra_height : Z;
  ra_header_hash : bytes32;
  ra_puzzle_hashes : option (list bytes32)
}.

Record RequestRemovals := mkRequestRemovals {
  rr_height : Z;
  rr_header_hash : bytes32;
  rr_coin_names : option (list bytes32)
}.

Inductive Message :=
  | reject_additions_request (height : Z) (header_hash : bytes32)
  | respond_additions (height : Z) (header_hash : bytes32)
      (coins : list (bytes32 * list Coin))
      (proofs : option (list (bytes32 * bytes * option bytes)))
  | reject_removals_request (height : Z) (header_hash : bytes32)
  | respond_removals (height : Z) (header_hash : bytes32)
      (coins : list (bytes32 * option Coin))
      (proofs : option (list (bytes32 * bytes))).

(** The block store, the blockchain and the coin store. The handlers ask
    [height_to_hash] a second time after they have awaited the coin
    store, when the chain may have changed: [height_to_hash_again]. *)
Record Env := mkEnv {
  get_full_block : bytes32 -> option FullBlock;
  height_to_hash : Z -> option bytes32;
  height_to_hash_again : Z -> option bytes32;
  get_peak_height : option Z;
  get_coins_added_at_height : Z -> list CoinRecord;
  get_coins_removed_at_height : Z -> list CoinRecord
}.

(** ** Dictionaries in insertion order *)

Fixpoint dict_get {V : Type} (k : bytes32) (d : list (bytes32 * V))
    : option V :=
  match d with
  | [] => None
  | (k', v) :: rest => if (k' =? k)%N then Some v else dict_get k rest
  end.

(** [d[k] = v]: a key that is there keeps its place. *)
Fixpoint dict_set {V : Type} (k : bytes32) (v : V) (d : list (bytes32 * V))
    : list (bytes32 * V) :=
  match d with
  | [] => [(k, v)]
  | (k', v') :: rest =>
      if (k' =? k)%N then (k', v) :: rest else (k', v') :: dict_set k v rest
  end.

(** [hash != header_hash] for the optional result of [height_to_hash]. *)
Definition differs (hash : option bytes32) (header_hash : bytes32) : bool :=
  match hash with
  | Some h => negb (h =? header_hash)%N
  | None => true
  end.

Definition TypeError : exn := OtherError 1.

(** One round of the loop that fills [puzzlehash_coins_map]. *)
Definition add_coin (puzzlehash_coins_map : list (bytes32 * list Coin))
    (coin_record : CoinRecord) : list (bytes32 * list Coin) :=
  let c := coin coin_record in
  match dict_get (puzzle_hash c) puzzlehash_coins_map with
  | Some coins => dict_set (puzzle_hash c) (coins ++ [c]) puzzlehash_coins_map
  | None => dict_set (puzzle_hash c) [c] puzzlehash_coins_map
  end.

(** ** What the dictionaries hold *)

(** The keys in the order in which they are seen first. *)
Definition see (acc : list bytes32) (x : bytes32) : list bytes32 :=
  if existsb (N.eqb x) acc then acc else acc ++ [x].

Definition firsts (l : list bytes32) : list bytes32 := fold_left see l [].

Definition with_puzzle_hash (ph : bytes32) (coins : list Coin) : list Coin :=
  List.filter (fun c => (puzzle_hash c =? ph)%N) coins.

Definition keys {V : Type} (d : list (bytes32 * V)) : list bytes32 :=
  map fst d.

Lemma dict_get_set {V : Type} (k k' : bytes32) (v : V)
    (d : list (bytes32 * V)) :
  dict_get k' (dict_set k v d)
  = if (k =? k')%N then Some v else dict_get k' d.
Proof.
  induction d as [|[k0 v0] d IH]; cbn.
  - destruct (k =? k')%N; reflexivity.
  - destruct (k0 =? k)%N eqn:E0.
    + apply N.eqb_eq in E0. subst k0. cbn. destruct (k =? k')%N; reflexivity.
    + cbn. destruct (k0 =? k')%N eqn:E1.
      * destruct (k =? k')%N eqn:E2; [|reflexivity].
        apply N.eqb_eq in E1. apply N.eqb_eq in E2. subst.
        rewrite N.eqb_refl in E0. discriminate.
      * apply IH.
Qed.

Lemma keys_set {V : Type} (k : bytes32) (v : V) (d : list (bytes32 * V)) :
  keys (dict_set k v d) = see (keys d) k.
Proof.
  unfold see, keys. induction d as [|[k0 v0] d IH]; cbn; [reflexivity|].
  rewrite (N.eqb_sym k k0). destruct (k0 =? k)%N; cbn; [reflexivity|].
  rewrite IH. destruct (existsb (N.eqb k) (map fst d)); reflexivity.
Qed.

Lemma existsb_In (x : bytes32) (l : list bytes32) :
  existsb (N.eqb x) l = true <-> In x l.
Proof.
  rewrite existsb_exists. split.
  - intros (y & Hin & E). apply N.eqb_eq in E. subst. exact Hin.
  - intros H. exists x. split; [exact H|apply N.eqb_refl].
Qed.

Lemma firsts_snoc (l : list bytes32) (x : bytes32) :
  firsts (l ++ [x]) = see (firsts l) x.
Proof. unfold firsts. rewrite fold_left_app. reflexivity. Qed.

Lemma firsts_In (l : list bytes32) (x : bytes32) :
  In x (firsts l) <-> In x l.
Proof.
  induction l as [|y l IH] using rev_ind; [reflexivity|].
  rewrite firsts_snoc. unfold see.
  destruct (existsb (N.eqb y) (firsts l)) eqn:E.
  - apply existsb_In in E. rewrite in_app_iff, <- IH. cbn.
    split; [tauto|]. intros [H|[<-|[]]]; assumption.
  - rewrite !in_app_iff, IH. reflexivity.
Qed.

Lemma firsts_NoDup (l : list bytes32) : NoDup (firsts l).
Proof.
  induction l as [|y l IH] using rev_ind; [constructor|].
  rewrite firsts_snoc. unfold see.
  destruct (existsb (N.eqb y) (firsts l)) eqn:E; [exact IH|].
  apply NoDup_app. split; [exact IH|]. split.
  - intros x Hx Hy. apply list_elem_of_In in Hx.
    apply list_elem_of_In in Hy. destruct Hy as [<-|[]].
    apply existsb_In in Hx. congruence.
  - apply NoDup_singleton.
Qed.

Lemma dict_get_keys {V : Type} (k : bytes32) (d : list (bytes32 * V)) :
  dict_get k d = None <-> ~ In k (keys d).
Proof.
  unfold keys. induction d as [|[k0 v0] d IH]; cbn; [tauto|].
  destruct (k0 =? k)%N eqn:E.
  - apply N.eqb_eq in E. split; [discriminate|tauto].
  - apply N.eqb_neq in E. rewrite IH. tauto.
Qed.

Lemma dict_ext {V : Type} (f : bytes32 -> V) (d : list (bytes32 * V)) :
  NoDup (keys d) ->
  (forall k, In k (keys d) -> dict_get k d = Some (f k)) ->
  d = map (fun k => (k, f k)) (keys d).
Proof.
  unfold keys. induction d as [|[k v] d IH]; cbn; intros ND H; [reflexivity|].
  apply NoDup_cons in ND as [Hk ND]. f_equal.
  - specialize (H k (or_introl eq_refl)). rewrite N.eqb_refl in H.
    assert (v = f k) by congruence. subst v. reflexivity.
  - apply IH; [exact ND|]. intros k' Hin.
    specialize (H k' (or_intror Hin)).
    destruct (k =? k')%N eqn:E; [|exact H].
    apply N.eqb_eq in E. subst k'. exfalso. apply Hk.
    apply list_elem_of_In. exact Hin.
Qed.

(** The dictionary of the additions: the puzzle hashes in the order in
    which they are seen first, each with its coins in their order. *)
Lemma additions_dict (additions : list CoinRecord) :
  let d := fold_left add_coin additions [] in
  keys d = firsts (map (fun r => puzzle_hash (coin r)) additions) /\
  forall ph, dict_get ph d
             = match with_puzzle_hash ph (map coin additions) with
               | [] => None
               | coins => Some coins
               end.
Proof.
  cbv zeta. induction additions as [|r l [IHk IHg]] using rev_ind.
  - split; [reflexivity|]. intros ph. reflexivity.
  - rewrite fold_left_app. cbn [fold_left].
    set (d := fold_left add_coin l []) in *.
    set (c := coin r).
    assert (E : add_coin d r
                = dict_set (puzzle_hash c)
                    (with_puzzle_hash (puzzle_hash c) (map coin l) ++ [c]) d).
    { unfold add_coin. fold c. rewrite (IHg (puzzle_hash c)).
      destruct (with_puzzle_hash (puzzle_hash c) (map coin l)); reflexivity. }
    rewrite E. split.
    + rewrite keys_set, IHk, map_app. cbn [map]. rewrite firsts_snoc.
      reflexivity.
    + intros ph. rewrite dict_get_set, IHg, map_app. cbn [map].
      unfold with_puzzle_hash. rewrite !List.filter_app. cbn [List.filter].
      fold c. destruct (puzzle_hash c =? ph)%N eqn:Eph.
      * apply N.eqb_eq in Eph. subst ph.
        destruct (List.filter _ (map coin l)); reflexivity.
      * rewrite app_nil_r. reflexivity.
Qed.

Lemma with_puzzle_hash_nil (ph : bytes32) (coins : list Coin) :
  with_puzzle_hash ph coins = [] <-> ~ In ph (map puzzle_hash coins).
Proof.
  unfold with_puzzle_hash. induction coins as [|c l IH]; cbn; [tauto|].
  destruct (puzzle_hash c =? ph)%N eqn:E.
  - apply N.eqb_eq in E. split; [discriminate|tauto].
  - apply N.eqb_neq in E. rewrite IH. tauto.
Qed.

Lemma additions_dict_eq (additions : list CoinRecord) :
  fold_left add_coin additions []
  = map (fun ph => (ph, with_puzzle_hash ph (map coin additions)))
        (firsts (map puzzle_hash (map coin additions))).
Proof.
  destruct (additions_dict additions) as [Hk Hg]. cbv zeta in Hk, Hg.
  rewrite map_map, <- Hk. apply dict_ext.
  - rewrite Hk. apply firsts_NoDup.
  - intros k Hin. rewrite Hg.
    destruct (with_puzzle_hash k (map coin additions)) eqn:E; [|reflexivity].
    exfalso. apply with_puzzle_hash_nil in E. apply E.
    rewrite Hk in Hin. apply (proj1 (firsts_In _ _)) in Hin.
    rewrite map_map. exact Hin.
Qed.

Lemma additions_dict_get (additions : list CoinRecord) (ph : bytes32) :
  default [] (dict_get ph (fold_left add_coin additions []))
  = with_puzzle_hash ph (map coin additions).
Proof.
  destruct (additions_dict additions) as [_ Hg]. cbv zeta in Hg.
  rewrite Hg. destruct (with_puzzle_hash ph (map coin additions)); reflexivity.
Qed.

Lemma dict_get_In {V : Type} (k : bytes32) (v : V) (d : list (bytes32 * V)) :
  dict_get k d = Some v -> In (k, v) d.
Proof.
  induction d as [|[k0 v0] d IH]; cbn; [discriminate|].
  destruct (k0 =? k)%N eqn:E.
  - apply N.eqb_eq in E. intros H. left. congruence.
  - intros H. right. apply IH, H.
Qed.

Lemma dict_items {V : Type} (d : list (bytes32 * V)) :
  NoDup (keys d) ->
  map (fun '(k, v) => (k, Some v)) d
  = map (fun k => (k, dict_get k d)) (keys d).
Proof.
  unfold keys. induction d as [|[k v] d IH]; cbn; intros ND; [reflexivity|].
  apply NoDup_cons in ND as [Hk ND]. rewrite N.eqb_refl. f_equal.
  rewrite (IH ND). apply map_ext_in. intros k' Hin.
  destruct (k =? k')%N eqn:E; [|reflexivity].
  apply N.eqb_eq in E. subst k'. exfalso. apply Hk.
  apply list_elem_of_In. exact Hin.
Qed.

(** ** Additions *)

Section Additions.

Variable hash_coin_list : list Coin -> bytes32.

(** [merkle_root added] is [get_root()] of a Merkle set to which the
    hashes of [added] were added in this order, and
    [is_included_already_hashed added] is the method of this set. *)
Variable merkle_root : list bytes32 -> bytes32.
Variable is_included_already_hashed : list bytes32 -> bytes32 -> bool * bytes.

(** The hashes added to the Merkle set of the additions. *)
Definition added_hashes (puzzlehash_coins_map : list (bytes32 * list Coin))
    : list bytes32 :=
  flat_map (fun '(puzzle, coins) => [puzzle; hash_coin_list coins])
           puzzlehash_coins_map.

(** The loop over [request.puzzle_hashes]. *)
Fixpoint select_additions (added : list bytes32)
    (puzzlehash_coins_map : list (bytes32 * list Coin))
    (puzzle_hashes : list bytes32)
    (coins_map : list (bytes32 * list Coin))
    (proofs_map : list (bytes32 * bytes * option bytes))
    : Outcome (list (bytes32 * list Coin)
               * list (bytes32 * bytes * option bytes)) :=
  match puzzle_hashes with
  | [] => Returned (coins_map, proofs_map)
  | puzzle_hash :: rest =>
      let '(result, proof) := is_included_already_hashed added puzzle_hash in
      match dict_get puzzle_hash puzzlehash_coins_map with
      | Some coins =>
          let hash_coin_str := hash_coin_list coins in
          let '(result_2, proof_2) :=
            is_included_already_hashed added hash_coin_str in
          if negb result then Raised AssertionError
          else if negb result_2 then Raised AssertionError
          else select_additions added puzzlehash_coins_map rest
                 (coins_map ++ [(puzzle_hash, coins)])
                 (proofs_map ++ [(puzzle_hash, proof, Some proof_2)])
      | None =>
          if result then Raised AssertionError
          else select_additions added puzzlehash_coins_map rest
                 (coins_map ++ [(puzzle_hash, [])])
                 (proofs_map ++ [(puzzle_hash, proof, None)])
      end
  end.

Definition request_additions (env : Env) (request : RequestAdditions)
    : Outcome Message :=
  let reject :=
    Returned (reject_additions_request (ra_height request)
                                       (ra_header_hash request)) in
  match get_full_block env (ra_header_hash request) with
  | None => reject
  | Some block =>
      if negb (is_transaction_block block)
         || differs (height_to_hash env (height block))
                    (ra_header_hash request)
      then reject
      else
        match foliage_transaction_block block with
        | None => Raised AssertionError
        | Some foliage =>
            let additions := get_coins_added_at_height env (height block) in
            if differs (height_to_hash_again env (height block))
                       (ra_header_hash request)
            then Raised ValueError
            else
              let puzzlehash_coins_map := fold_left add_coin additions [] in
              match ra_puzzle_hashes request with
              | None =>
                  Returned (respond_additions (height block)
                              (header_hash block) puzzlehash_coins_map None)
              | Some puzzle_hashes =>
                  let added := added_hashes puzzlehash_coins_map in
                  if negb (merkle_root added =? additions_root foliage)%N
                  then Raised AssertionError
                  else
                    match select_additions added puzzlehash_coins_map
                            puzzle_hashes [] [] with
                    | Returned (coins_map, proofs_map) =>
                        Returned (respond_additions (height block)
                                    (header_hash block) coins_map
                                    (Some proofs_map))
                    | Raised e => Raised e
                    end
              end
        end
  end.

(** The proof that goes with a requested puzzle hash. *)
Definition proof_of (added : list bytes32) (d : list (bytes32 * list Coin))
    (ph : bytes32) : bytes32 * bytes * option bytes :=
  (ph, snd (is_included_already_hashed added ph),
   option_map (fun coins =>
                 snd (is_included_already_hashed added (hash_coin_list coins)))
              (dict_get ph d)).

Lemma select_additions_Returned (added : list bytes32)
    (d : list (bytes32 * list Coin)) (phs : list bytes32) :
  forall cm pm cm' pm',
    select_additions added d phs cm pm = Returned (cm', pm') ->
    cm' = cm ++ map (fun ph => (ph, default [] (dict_get ph d))) phs /\
    pm' = pm ++ map (proof_of added d) phs.
Proof.
  induction phs as [|ph rest IH]; intros cm pm cm' pm' H; cbn in H.
  - injection H as <- <-. rewrite !app_nil_r. split; reflexivity.
  - unfold proof_of at 1. cbn [map].
    destruct (is_included_already_hashed added ph) as [result proof] eqn:E1.
    destruct (dict_get ph d) as [coins|] eqn:Eg.
    + destruct (is_included_already_hashed added (hash_coin_list coins))
        as [result_2 proof_2] eqn:E2.
      destruct result; [|discriminate]. destruct result_2; [|discriminate].
      cbn in H. apply IH in H as [-> ->].
      rewrite <- !app_assoc. cbn. rewrite E2. split; reflexivity.
    + destruct result; [discriminate|].
      apply IH in H as [-> ->].
      rewrite <- !app_assoc. cbn. split; reflexivity.
Qed.

Lemma added_hashes_In (d : list (bytes32 * list Coin)) (x : bytes32) :
  In x (added_hashes d)
  <-> In x (keys d) \/ In x (map (fun e => hash_coin_list (snd e)) d).
Proof.
  unfold added_hashes, keys. induction d as [|[k v] d IH]; cbn; [tauto|].
  rewrite IH. tauto.
Qed.

Lemma select_additions_total (added : list bytes32)
    (d : list (bytes32 * list Coin)) (phs : list bytes32) :
  added = added_hashes d ->
  (forall x, fst (is_included_already_hashed added x) = true <-> In x added) ->
  (forall ph, In ph phs ->
     In ph (map (fun e => hash_coin_list (snd e)) d) -> In ph (keys d)) ->
  forall cm pm, exists r, select_additions added d phs cm pm = Returned r.
Proof.
  intros -> Sound Free.
  induction phs as [|ph rest IH]; intros cm pm; cbn; [eauto|].
  assert (Free' : forall ph, In ph rest ->
            In ph (map (fun e => hash_coin_list (snd e)) d) -> In ph (keys d))
    by (intros ph' Hin; apply Free; now right).
  specialize (IH Free').
  pose proof (Sound ph) as S1.
  destruct (is_included_already_hashed (added_hashes d) ph)
    as [result proof] eqn:E1. cbn [fst] in S1.
  destruct (dict_get ph d) as [coins|] eqn:Eg.
  - apply dict_get_In in Eg.
    pose proof (Sound (hash_coin_list coins)) as S2.
    destruct (is_included_already_hashed (added_hashes d)
                (hash_coin_list coins)) as [result_2 proof_2] eqn:E2.
    cbn [fst] in S2.
    assert (R1 : result = true).
    { apply S1, added_hashes_In. left. unfold keys.
      apply (in_map fst) in Eg. exact Eg. }
    assert (R2 : result_2 = true).
    { apply S2, added_hashes_In. right.
      apply (in_map (fun e => hash_coin_list (snd e))) in Eg. exact Eg. }
    subst. cbn. apply IH.
  - assert (R1 : result = false).
    { destruct result; [|reflexivity]. exfalso.
      apply dict_get_keys in Eg. apply Eg.
      assert (Hin : In ph (added_hashes d)) by (apply S1; reflexivity).
      apply added_hashes_In in Hin as [Hin|Hin]; [exact Hin|].
      apply Free; [now left|exact Hin]. }
    subst. apply IH.
Qed.

Lemma proofs_shape (added : list bytes32) (additions : list CoinRecord)
    (phs : list bytes32) :
  Forall2 (fun ph p =>
             fst (fst p) = ph /\
             (snd p = None <-> ~ In ph (map puzzle_hash (map coin additions))))
          phs
          (map (proof_of added (fold_left add_coin additions [])) phs).
Proof.
  induction phs as [|ph rest IH]; cbn [map]; constructor; [|exact IH].
  unfold proof_of. cbn [fst snd]. split; [reflexivity|].
  destruct (additions_dict additions) as [_ Hg]. cbv zeta in Hg. rewrite Hg.
  rewrite <- with_puzzle_hash_nil.
  destruct (with_puzzle_hash ph _); cbn; split; congruence.
Qed.

(** ** The replies *)

(** A reply with additions is for the block of the request. Without
    puzzle hashes in the request it holds every puzzle hash of the coins
    added at the height of the block once, in the order in which they
    come first, each with all its coins in their order; with puzzle
    hashes it holds the requested ones in the order of the request, each
    with its coins (none when there are none), and one proof for each,
    which has a second part exactly when there are coins. *)
Theorem additions_reply (env : Env) (request : RequestAdditions) (h : Z)
    (hh : bytes32) (coins : list (bytes32 * list Coin))
    (proofs : option (list (bytes32 * bytes * option bytes))) :
  request_additions env request = Returned (respond_additions h hh coins proofs) ->
  exists block,
    get_full_block env (ra_header_hash request) = Some block /\
    h = height block /\ hh = header_hash block /\
    let all := map coin (get_coins_added_at_height env h) in
    match ra_puzzle_hashes request with
    | None =>
        coins = map (fun ph => (ph, with_puzzle_hash ph all))
                    (firsts (map puzzle_hash all)) /\
        proofs = None
    | Some puzzle_hashes =>
        coins = map (fun ph => (ph, with_puzzle_hash ph all)) puzzle_hashes /\
        exists proofs_map,
          proofs = Some proofs_map /\
          Forall2 (fun ph p =>
                     fst (fst p) = ph /\
                     (snd p = None <-> ~ In ph (map puzzle_hash all)))
                  puzzle_hashes proofs_map
    end.
Proof.
  unfold request_additions. intros H.
  destruct (get_full_block env (ra_header_hash request)) as [block|];
    [|discriminate].
  destruct (negb (is_transaction_block block)
            || differs (height_to_hash env (height block))
                       (ra_header_hash request)); [discriminate|].
  destruct (foliage_transaction_block block) as [foliage|]; [|discriminate].
  destruct (differs (height_to_hash_again env (height block))
                    (ra_header_hash request)); [discriminate|].
  exists block. split; [reflexivity|].
  destruct (ra_puzzle_hashes request) as [phs|].
  - destruct (negb _); [discriminate|].
    destruct (select_additions _ _ phs [] []) as [[cm pm]|e] eqn:Sel;
      [|discriminate].
    assert (h = height block /\ hh = header_hash block /\ coins = cm
            /\ proofs = Some pm) as (-> & -> & -> & ->)
      by (repeat split; congruence).
    apply select_additions_Returned in Sel as [-> ->]. cbn [app].
    split; [reflexivity|]. split; [reflexivity|]. cbv zeta. split.
    + apply map_ext. intros ph. rewrite additions_dict_get. reflexivity.
    + eexists. split; [reflexivity|]. apply proofs_shape.
  - assert (h = height block /\ hh = header_hash block
            /\ coins = fold_left add_coin
                         (get_coins_added_at_height env (height block)) []
            /\ proofs = None) as (-> & -> & -> & ->)
      by (repeat split; congruence).
    split; [reflexivity|]. split; [reflexivity|]. cbv zeta.
    split; [apply additions_dict_eq|reflexivity].
Qed.

(** With a Merkle set that tells what was added to it, and a root that
    is the one of the block, a request with puzzle hashes for a
    transaction block of the chain is answered, and no assertion fails,
    as long as no requested puzzle hash is the hash of a list of coins
    of the block without being a puzzle hash of the block too. *)
Theorem additions_answered (env : Env) (request : RequestAdditions)
    (block : FullBlock) (foliage : FoliageTransactionBlock)
    (puzzle_hashes : list bytes32) :
  get_full_block env (ra_header_hash request) = Some block ->
  is_transaction_block block = true ->
  foliage_transaction_block block = Some foliage ->
  height_to_hash env (height block) = Some (ra_header_hash request) ->
  height_to_hash_again env (height block) = Some (ra_header_hash request) ->
  ra_puzzle_hashes request = Some puzzle_hashes ->
  let d := fold_left add_coin
             (get_coins_added_at_height env (height block)) [] in
  merkle_root (added_hashes d) = additions_root foliage ->
  (forall x, fst (is_included_already_hashed (added_hashes d) x) = true
             <-> In x (added_hashes d)) ->
  (forall ph, In ph puzzle_hashes ->
     In ph (map (fun e => hash_coin_list (snd e)) d) -> In ph (keys d)) ->
  exists coins proofs_map,
    request_additions env request
    = Returned (respond_additions (height block) (header_hash block) coins
                  (Some proofs_map)).
Proof.
  intros Hb Htx Hf Hh Hh' Hp d Hroot Sound Free.
  unfold request_additions. rewrite Hb, Htx, Hf, Hh, Hh', Hp. cbn.
  rewrite N.eqb_refl. cbn. fold d. rewrite Hroot, N.eqb_refl. cbn.
  destruct (select_additions_total (added_hashes d) d puzzle_hashes
              eq_refl Sound Free [] []) as [[cm pm] ->].
  eauto.
Qed.

End Additions.

(** ** Removals *)

Section Removals.

Variable name : Coin -> bytes32.
Variable merkle_root : list bytes32 -> bytes32.
Variable is_included_already_hashed : list bytes32 -> bytes32 -> bool * bytes.

(** One round of the loop that fills [all_removals_dict]. *)
Definition add_removal (all_removals_dict : list (bytes32 * Coin))
    (coin_record : CoinRecord) : list (bytes32 * Coin) :=
  dict_set (name (coin coin_record)) (coin coin_record) all_removals_dict.

(** The loop over [request.coin_names]. *)
Fixpoint select_removals (added : list bytes32)
    (all_removals_dict : list (bytes32 * Coin)) (coin_names : list bytes32)
    (coins_map : list (bytes32 * option Coin))
    (proofs_map : list (bytes32 * bytes))
    : Outcome (list (bytes32 * option Coin) * list (bytes32 * bytes)) :=
  match coin_names with
  | [] => Returned (coins_map, proofs_map)
  | coin_name :: rest =>
      let '(result, proof) := is_included_already_hashed added coin_name in
      let proofs_map := proofs_map ++ [(coin_name, proof)] in
      match dict_get coin_name all_removals_dict with
      | Some removed_coin =>
          if negb result then Raised AssertionError
          else select_removals added all_removals_dict rest
                 (coins_map ++ [(coin_name, Some removed_coin)]) proofs_map
      | None =>
          if result then Raised AssertionError
          else select_removals added all_removals_dict rest
                 (coins_map ++ [(coin_name, None)]) proofs_map
      end
  end.

Definition request_removals (env : Env) (request : RequestRemovals)
    : Outcome Message :=
  let reject :=
    Returned (reject_removals_request (rr_height request)
                                      (rr_header_hash request)) in
  match get_full_block env (rr_header_hash request) with
  | None => reject
  | Some block =>
      if negb (is_transaction_block block) then reject
      else if negb (height block =? rr_height request) then reject
      else
        match get_peak_height env with
        | None => Raised TypeError
        | Some peak =>
            if (peak <? height block)
               || differs (height_to_hash env (height block))
                          (rr_header_hash request)
            then reject
            else
              match foliage_transaction_block block with
              | None => Raised AssertionError
              | Some foliage =>
                  let all_removals :=
                    get_coins_removed_at_height env (height block) in
                  if differs (height_to_hash_again env (height block))
                             (rr_header_hash request)
                  then Raised ValueError
                  else
                    let all_removals_dict :=
                      fold_left add_removal all_removals [] in
                    let all :=
                      Returned (respond_removals (height block)
                                  (header_hash block)
                                  (map (fun '(removed_name, removed_coin) =>
                                          (removed_name, Some removed_coin))
                                       all_removals_dict)
                                  None) in
                    match transactions_generator block with
                    | None =>
                        Returned (respond_removals (height block)
                                    (header_hash block) []
                                    (match rr_coin_names request with
                                     | None => None
                                     | Some _ => Some []
                                     end))
                    | Some _ =>
                        match rr_coin_names request with
                        | None => all
                        | Some [] => all
                        | Some coin_names =>
                            let added := map fst all_removals_dict in
                            if negb (merkle_root added
                                     =? removals_root foliage)%N
                            then Raised AssertionError
                            else
                              match select_removals added all_removals_dict
                                      coin_names [] [] with
                              | Returned (coins_map, proofs_map) =>
                                  Returned (respond_removals (height block)
                                              (header_hash block) coins_map
                                              (Some proofs_map))
                              | Raised e => Raised e
                              end
                        end
                    end
              end
        end
  end.

(** The last coin of this name. *)
Definition last_named (n : bytes32) (coins : list Coin) : option Coin :=
  List.find (fun c => (name c =? n)%N) (rev coins).

(** The dictionary of the removals: the names in the order in which
    they are seen first, each with the last coin of this name. *)
Lemma removals_dict (removals : list CoinRecord) :
  let d := fold_left add_removal removals [] in
  keys d = firsts (map name (map coin removals)) /\
  forall n, dict_get n d = last_named n (map coin removals).
Proof.
  cbv zeta. induction removals as [|r l [IHk IHg]] using rev_ind.
  - split; [reflexivity|]. intros n. reflexivity.
  - rewrite fold_left_app. cbn [fold_left]. unfold add_removal at 1 3.
    split.
    + rewrite keys_set, IHk, !map_app. cbn [map]. rewrite firsts_snoc.
      reflexivity.
    + intros n. rewrite dict_get_set, IHg, map_app. cbn [map].
      unfold last_named. rewrite rev_app_distr. cbn [rev app List.find].
      reflexivity.
Qed.

Lemma select_removals_Returned (added : list bytes32)
    (d : list (bytes32 * Coin)) (names : list bytes32) :
  forall cm pm cm' pm',
    select_removals added d names cm pm = Returned (cm', pm') ->
    cm' = cm ++ map (fun n => (n, dict_get n d)) names /\
    pm' = pm ++ map (fun n => (n, snd (is_included_already_hashed added n)))
                    names.
Proof.
  induction names as [|n rest IH]; intros cm pm cm' pm' H; cbn in H.
  - injection H as <- <-. rewrite !app_nil_r. split; reflexivity.
  - cbn [map].
    destruct (is_included_already_hashed added n) as [result proof] eqn:E1.
    destruct (dict_get n d) as [c|] eqn:Eg.
    + destruct result; [|discriminate].
      cbn in H. apply IH in H as [-> ->].
      rewrite <- !app_assoc. split; reflexivity.
    + destruct result; [discriminate|].
      apply IH in H as [-> ->].
      rewrite <- !app_assoc. split; reflexivity.
Qed.

Lemma select_removals_total (d : list (bytes32 * Coin))
    (names : list bytes32) :
  (forall x, fst (is_included_already_hashed (keys d) x) = true
             <-> In x (keys d)) ->
  forall cm pm, exists r, select_removals (keys d) d names cm pm = Returned r.
Proof.
  intros Sound.
  induction names as [|n rest IH]; intros cm pm; cbn; [eauto|].
  pose proof (Sound n) as S1.
  destruct (is_included_already_hashed (keys d) n) as [result proof] eqn:E1.
  cbn [fst] in S1.
  destruct (dict_get n d) as [c|] eqn:Eg.
  - assert (R : result = true).
    { apply S1. apply dict_get_In in Eg. apply (in_map fst) in Eg. exact Eg. }
    subst. cbn. apply IH.
  - assert (R : result = false).
    { destruct result; [|reflexivity]. exfalso.
      apply dict_get_keys in Eg. apply Eg, S1. reflexivity. }
    subst. apply IH.
Qed.

(** A reply with removals is for the block of the request, at the height
    of the request. For a block without generator it holds no coin. With
    no coin names in the request, or an empty list of them, it holds every
    name of the coins removed at this height once, in the order in which
    they come first, and no proofs; with coin names it holds the requested
    names in the order of the request, each with the coin of this name if
    there is one, and one proof for each. *)
Theorem removals_reply (env : Env) (request : RequestRemovals) (h : Z)
    (hh : bytes32) (coins : list (bytes32 * option Coin))
    (proofs : option (list (bytes32 * bytes))) :
  request_removals env request = Returned (respond_removals h hh coins proofs) ->
  exists block,
    get_full_block env (rr_header_hash request) = Some block /\
    h = height block /\ hh = header_hash block /\ h = rr_height request /\
    let all := map coin (get_coins_removed_at_height env h) in
    match transactions_generator block with
    | None =>
        coins = [] /\
        proofs = match rr_coin_names request with
                 | None => None
                 | Some _ => Some []
                 end
    | Some _ =>
        match rr_coin_names request with
        | None | Some [] =>
            coins = map (fun n => (n, last_named n all))
                        (firsts (map name all)) /\
            proofs = None
        | Some coin_names =>
            coins = map (fun n => (n, last_named n all)) coin_names /\
            exists proofs_map,
              proofs = Some proofs_map /\ map fst proofs_map = coin_names
        end
    end.
Proof.
  unfold request_removals. intros H.
  destruct (get_full_block env (rr_header_hash request)) as [block|];
    [|discriminate].
  destruct (negb (is_transaction_block block)); [discriminate|].
  destruct (Z.eqb_spec (height block) (rr_height request)) as [Hh|];
    [|discriminate]. cbn [negb] in H.
  destruct (get_peak_height env) as [peak|]; [|discriminate].
  destruct ((peak <? height block)
            || differs (height_to_hash env (height block))
                       (rr_header_hash request)); [discriminate|].
  destruct (foliage_transaction_block block) as [foliage|]; [|discriminate].
  destruct (differs (height_to_hash_again env (height block))
                    (rr_header_hash request)); [discriminate|].
  exists block. split; [reflexivity|].
  destruct (removals_dict (get_coins_removed_at_height env (height block)))
    as [Hk Hg]. cbv zeta in Hk, Hg.
  set (d := fold_left add_removal
              (get_coins_removed_at_height env (height block)) []) in *.
  assert (All : map (fun '(removed_name, removed_coin) =>
                       (removed_name, Some removed_coin)) d
                = map (fun n => (n, last_named n
                         (map coin (get_coins_removed_at_height env
                                      (height block)))))
                      (firsts (map name
                         (map coin (get_coins_removed_at_height env
                                      (height block)))))).
  { rewrite dict_items by (rewrite Hk; apply firsts_NoDup).
    rewrite Hk. apply map_ext. intros n. rewrite Hg. reflexivity. }
  destruct (transactions_generator block) as [g|].
  - destruct (rr_coin_names request) as [[|n names]|].
    + assert (h = height block /\ hh = header_hash block
              /\ map (fun '(removed_name, removed_coin) =>
                        (removed_name, Some removed_coin)) d = coins
              /\ proofs = None) as (-> & -> & <- & ->)
        by (repeat split; congruence).
      split; [reflexivity|]. split; [reflexivity|]. split; [exact Hh|]. cbv zeta.
      split; [exact All|reflexivity].
    + destruct (negb _); [discriminate|].
      destruct (select_removals _ _ (n :: names) [] []) as [[cm pm]|e] eqn:Sel;
        [|discriminate].
      assert (h = height block /\ hh = header_hash block /\ coins = cm
              /\ proofs = Some pm) as (-> & -> & -> & ->)
        by (repeat split; congruence).
      apply select_removals_Returned in Sel as [-> ->]. cbn [app].
      split; [reflexivity|]. split; [reflexivity|]. split; [exact Hh|]. cbv zeta. split.
      * apply map_ext. intros x. rewrite Hg. reflexivity.
      * eexists. split; [reflexivity|]. rewrite map_map. cbn [fst].
        apply map_id.
    + assert (h = height block /\ hh = header_hash block
              /\ map (fun '(removed_name, removed_coin) =>
                        (removed_name, Some removed_coin)) d = coins
              /\ proofs = None) as (-> & -> & <- & ->)
        by (repeat split; congruence).
      split; [reflexivity|]. split; [reflexivity|]. split; [exact Hh|]. cbv zeta.
      split; [exact All|reflexivity].
  - assert (h = height block /\ hh = header_hash block /\ coins = []
            /\ proofs = match rr_coin_names request with
                        | None => None
                        | Some _ => Some []
                        end) as (-> & -> & -> & ->)
      by (repeat split; congruence).
    split; [reflexivity|]. split; [reflexivity|]. split; [exact Hh|]. split; reflexivity.
Qed.

(** With a Merkle set that tells what was added to it, and a root that
    is the one of the block, a request for a transaction block of the
    chain, at its height and not above the peak, is answered: no
    assertion fails. *)
Theorem removals_answered (env : Env) (request : RequestRemovals)
    (block : FullBlock) (foliage : FoliageTransactionBlock) (peak : Z) :
  get_full_block env (rr_header_hash request) = Some block ->
  is_transaction_block block = true ->
  height block = rr_height request ->
  get_peak_height env = Some peak ->
  height block <= peak ->
  foliage_transaction_block block = Some foliage ->
  height_to_hash env (height block) = Some (rr_header_hash request) ->
  height_to_hash_again env (height block) = Some (rr_header_hash request) ->
  let d := fold_left add_removal
             (get_coins_removed_at_height env (height block)) [] in
  merkle_root (keys d) = removals_root foliage ->
  (forall x, fst (is_included_already_hashed (keys d) x) = true
             <-> In x (keys d)) ->
  exists coins proofs,
    request_removals env request
    = Returned (respond_removals (height block) (header_hash block) coins
                  proofs).
Proof.
  intros Hb Htx Hh Hp Hpeak Hf Hh1 Hh2 d Hroot Sound.
  unfold request_removals. rewrite Hb, Htx, Hp, Hf, Hh1, Hh2. cbn [negb].
  rewrite (proj2 (Z.eqb_eq _ _) Hh). cbn [negb].
  rewrite (proj2 (Z.ltb_ge _ _) Hpeak). cbn. rewrite N.eqb_refl. cbn.
  fold d. destruct (transactions_generator block) as [g|]; [|eauto].
  destruct (rr_coin_names request) as [[|cn names]|]; [eauto| |eauto].
  fold (keys d). rewrite Hroot, N.eqb_refl. cbn [negb].
  destruct (select_removals_total d (cn :: names) Sound [] []) as [[cm pm] ->].
  eauto.
Qed.

End Removals.

(** ** An example *)

Definition hash_example (coins : list Coin) : bytes32 :=
  (1000 + N.of_nat (length coins))%N.

Definition included_example (added : list bytes32) (x : bytes32)
    : bool * bytes :=
  (existsb (N.eqb x) added, []).

Definition coin_a : Coin := mkCoin 1 10 5.
Definition coin_b : Coin := mkCoin 2 11 6.
Definition coin_c : Coin := mkCoin 3 10 7.

Definition record_of (c : Coin) : CoinRecord := mkCoinRecord c 3 0 false false 0.

Definition block_example : FullBlock :=
  mkFullBlock 50 3 true (Some (mkFoliageTransactionBlock 7 7)) (Some 1%N).

Definition env_example : Env :=
  mkEnv (fun h => if (h =? 50)%N then Some block_example else None)
        (fun z => if z =? 3 then Some 50%N else None)
        (fun z => if z =? 3 then Some 50%N else None)
        (Some 3)
        (fun _ => [record_of coin_a; record_of coin_b; record_of coin_c])
        (fun _ => [record_of coin_a; record_of coin_b]).

Lemma additions_reply_witness :
  exists block,
    get_full_block env_example 50%N = Some block /\
    3 = height block /\ 50%N = header_hash block /\
    [(10%N, [coin_a; coin_c]); (12%N, [])]
    = map (fun ph => (ph, with_puzzle_hash ph [coin_a; coin_b; coin_c]))
          [10%N; 12%N] /\
    exists proofs_map,
      Some [(10%N, ([] : bytes), Some ([] : bytes)); (12%N, [], None)]
      = Some proofs_map /\
      Forall2 (fun ph p =>
                 fst (fst p) = ph /\
                 (snd p = None
                  <-> ~ In ph (map puzzle_hash [coin_a; coin_b; coin_c])))
              [10%N; 12%N] proofs_map.
Proof.
  apply (additions_reply hash_example (fun _ => 7%N) included_example
           env_example (mkRequestAdditions 3 50 (Some [10%N; 12%N]))).
  reflexivity.
Defined.

Lemma additions_answered_witness :
  exists coins proofs_map,
    request_additions hash_example (fun _ => 7%N) included_example
      env_example (mkRequestAdditions 3 50 (Some [10%N; 12%N]))
    = Returned (respond_additions 3 50 coins (Some proofs_map)).
Proof.
  apply (additions_answered hash_example (fun _ => 7%N) included_example
           env_example (mkRequestAdditions 3 50 (Some [10%N; 12%N]))
           block_example (mkFoliageTransactionBlock 7 7) [10%N; 12%N]);
    try reflexivity.
  - intros x. apply existsb_In.
  - cbn. intros ph [<-|[<-|[]]] H; [now left|].
    destruct H as [H|[H|[]]]; discriminate.
Defined.

Definition request_removals_example : RequestRemovals :=
  mkRequestRemovals 3 50 (Some [1%N; 9%N]).

Lemma removals_reply_witness :
  exists block,
    get_full_block env_example (rr_header_hash request_removals_example)
    = Some block /\
    3 = height block /\ 50%N = header_hash block /\
    3 = rr_height request_removals_example /\
    let all := map coin (get_coins_removed_at_height env_example 3) in
    match transactions_generator block with
    | None =>
        [(1%N, Some coin_a); (9%N, None)] = [] /\
        Some [(1%N, ([] : bytes)); (9%N, [])]
        = match rr_coin_names request_removals_example with
          | None => None
          | Some _ => Some []
          end
    | Some _ =>
        match rr_coin_names request_removals_example with
        | None | Some [] =>
            [(1%N, Some coin_a); (9%N, None)]
            = map (fun n => (n, last_named parent_coin_info n all))
                  (firsts (map parent_coin_info all)) /\
            Some [(1%N, ([] : bytes)); (9%N, [])] = None
        | Some coin_names =>
            [(1%N, Some coin_a); (9%N, None)]
            = map (fun n => (n, last_named parent_coin_info n all)) coin_names /\
            exists proofs_map,
              Some [(1%N, ([] : bytes)); (9%N, [])] = Some proofs_map /\
              map fst proofs_map = coin_names
        end
    end.
Proof.
  apply (removals_reply parent_coin_info (fun _ => 7%N) included_example
           env_example request_removals_example).
  reflexivity.
Defined.

Lemma removals_answered_witness :
  exists coins proofs,
    request_removals parent_coin_info (fun _ => 7%N) included_example
      env_example request_removals_example
    = Returned (respond_removals 3 50 coins proofs).
Proof.
  apply (removals_answered parent_coin_info (fun _ => 7%N) included_example
           env_example request_removals_example block_example
           (mkFoliageTransactionBlock 7 7) 3);
    try reflexivity; try (vm_compute; discriminate).
  intros x. apply existsb_In.
Defined.

End CoinRequests.

(** * The requests of the walk back through the sub-slots

    More on the loop of [new_signage_point_or_end_of_sub_slot]: what the
    handler asks the peer for, one request after the other. *)

Module SubSlotWalk.
Import SubSlotBackfill.
Local Open Scope Z_scope.

(** The requests [reqs] of a walk that starts with the challenge [ch]
    and the reward chain hash [rc], and the bundles [col] collected from
    the answers; [i] requests went to the peer before. *)
Fixpoint walk (env : Env) (i : nat) (ch rc : bytes32)
    (reqs : list RequestSignagePointOrEndOfSubSlot)
    (col : list EndOfSubSlotBundle) : Prop :=
  match reqs with
  | [] => col = []
  | r :: reqs' =>
      r = mkRequest ch 0 rc /\
      match col with
      | [] => reqs' = [] /\ peer_response env i r = OtherResponse
      | eos :: col' =>
          peer_response env i r = RespondEndOfSubSlot eos /\
          walk env (S i) (cc_challenge eos) (rc_challenge eos) reqs' col'
      end
  end.

Lemma backfill_walk (env : Env) (n : nat) :
  forall i requests collected ch rc num,
    exists reqs col,
      requested (backfill n i env requests collected ch rc num)
      = requests ++ reqs /\
      collected_eos (backfill n i env requests collected ch rc num)
      = collected ++ col /\
      walk env i ch rc reqs col.
Proof.
  induction n as [|n IH]; intros i requests collected ch rc num.
  - exists [], []. cbn. rewrite !app_nil_r. repeat split.
  - cbn [backfill]. destruct (3 <=? num)%nat.
    + exists [], []. cbn. rewrite !app_nil_r. repeat split.
    + destruct (peer_response env i (mkRequest ch 0 rc)) as [eos|] eqn:Ep.
      * destruct (reconverged env eos).
        -- destruct (replay env (rev (collected ++ [eos]))) as [r done].
           exists [mkRequest ch 0 rc], [eos]. cbn. repeat split. exact Ep.
        -- destruct (IH (S i) (requests ++ [mkRequest ch 0 rc])
                        (collected ++ [eos]) (cc_challenge eos)
                        (rc_challenge eos)
                        (if non_empty eos then S num else num))
             as (reqs & col & R1 & R2 & W).
           exists (mkRequest ch 0 rc :: reqs), (eos :: col).
           rewrite R1, R2, <- !app_assoc. cbn. repeat split; assumption.
      * exists [mkRequest ch 0 rc], []. cbn. rewrite app_nil_r.
        repeat split. exact Ep.
Qed.

(** When the handler walks back, it sends at least one request: the
    first one is for the challenge and the reward chain hash of the
    message, and every further one for those with which the bundle
    received last begins, all for the end of a sub-slot; the bundles it
    collects are the answers of the peer in order, and a request that
    brought no bundle is the last one. *)
Theorem requests_walk_back (env : Env) (new_sp : NewSignagePointOrEndOfSubSlot)
    (prev : bytes32) :
  sync_mode env = false ->
  get_signage_point_by_index env (challenge_hash new_sp)
    (index_from_challenge new_sp) (last_rc_infusion new_sp) = false ->
  have_newer_signage_point env (challenge_hash new_sp)
    (index_from_challenge new_sp) (last_rc_infusion new_sp) = false ->
  index_from_challenge new_sp = 0 ->
  prev_challenge_hash new_sp = Some prev ->
  get_sub_slot env prev = false ->
  let eff := new_signage_point_or_end_of_sub_slot env new_sp in
  (exists rest,
     requested eff
     = mkRequest (challenge_hash new_sp) 0 (last_rc_infusion new_sp) :: rest) /\
  walk env 0 (challenge_hash new_sp) (last_rc_infusion new_sp)
       (requested eff) (collected_eos eff) /\
  (length (collected_eos eff) <= length (requested eff)
   <= S (length (collected_eos eff)))%nat.
Proof.
  intros H1 H2 H3 Hidx Hprev Hslot eff. subst eff.
  unfold new_signage_point_or_end_of_sub_slot.
  rewrite H1, H2, H3, Hidx, Hprev, Hslot.
  change (0 =? 0) with true. cbv iota beta.
  split.
  { destruct (backfill_trace env 30 0 [] [] (challenge_hash new_sp)
                (last_rc_infusion new_sp) 0%nat)
      as (reqs & col & T1 & _ & _ & W2 & _).
    rewrite T1. apply W2. split; lia. }
  destruct (backfill_walk env 30 0 [] [] (challenge_hash new_sp)
              (last_rc_infusion new_sp) 0%nat) as (reqs & col & R1 & R2 & W).
  rewrite R1, R2. change ([] ++ reqs) with reqs. change ([] ++ col) with col.
  split; [exact W|].
  clear R1 R2. revert W.
  generalize 0%nat (challenge_hash new_sp) (last_rc_infusion new_sp) col.
  induction reqs as [|r reqs IH]; intros i ch rc col0 W; cbn in W.
  - subst col0. cbn. lia.
  - destruct W as [_ W]. destruct col0 as [|eos col'].
    + destruct W as [-> _]. cbn. lia.
    + destruct W as [_ W]. specialize (IH _ _ _ _ W). cbn. lia.
Qed.

Lemma requests_walk_back_witness :
  let eff := new_signage_point_or_end_of_sub_slot env_example new_sp_example in
  (exists rest,
     requested eff
     = mkRequest (challenge_hash new_sp_example) 0
                 (last_rc_infusion new_sp_example) :: rest) /\
  walk env_example 0 (challenge_hash new_sp_example)
       (last_rc_infusion new_sp_example)
       (requested eff) (collected_eos eff) /\
  (length (collected_eos eff) <= length (requested eff)
   <= S (length (collected_eos eff)))%nat.
Proof.
  apply (requests_walk_back env_example new_sp_example 70%N); reflexivity.
Defined.

End SubSlotWalk.

(** * The loops of [declare_proof_of_space] end

    The handler has two [while] loops that go back from a block through
    [prev_hash] until they meet a transaction block (or the block of
    height 0). On a chain whose heights go down along [prev_hash] they
    end, and so does the handler. *)

Module CandidateBlocksLoops.
Import CandidateBlocks.
Local Open Scope Z_scope.

(** A piece of the handler has come to an end within its fuel. *)
Definition finishes {A : Type} (m : Flow A) : bool :=
  match m with OutOfFuel => false | _ => true end.

(** The blocks that the handler can meet: the peak and those of the
    block records. *)
Definition known (env : Env) (b : BlockRecord) : Prop :=
  get_peak env = Some b \/ exists h, try_block_record env h = Some b.

(** The heights of the blocks are below [bound] and go down along
    [prev_hash]. *)
Definition heights_go_down (env : Env) (bound : nat) : Prop :=
  (forall b, known env b -> 0 <= height b < Z.of_nat bound) /\
  (forall b b', known env b ->
     try_block_record env (prev_hash b) = Some b' -> height b' < height b).

Lemma finishes_bind {A B : Type} (m : Flow A) (f : A -> Flow B) :
  finishes m = true -> (forall a, m = Go a -> finishes (f a) = true) ->
  finishes (m ≫= f) = true.
Proof.
  destruct m as [a|r|]; cbn; intros H Hf; [apply Hf; reflexivity|reflexivity|
    discriminate].
Qed.

Ltac fin :=
  repeat first
    [ reflexivity
    | apply finishes_bind; [|intros ? ?]
    | match goal with
      | |- finishes (match ?x with _ => _ end) = true => destruct x eqn:?
      | |- finishes (if ?x then _ else _) = true => destruct x eqn:?
      end
    | progress (unfold assert_some, assert, call, uint, return_none, raise,
                block_record) ].

Lemma known_prev (env : Env) (b b' : BlockRecord) :
  try_block_record env (prev_hash b) = Some b' -> known env b'.
Proof. intros H. right. exists (prev_hash b). exact H. Qed.

Lemma last_transaction_block_finishes (env : Env) (bound : nat) :
  heights_go_down env bound ->
  forall fuel b, known env b -> height b < Z.of_nat fuel ->
    finishes (last_transaction_block fuel env b) = true.
Proof.
  intros [Hbound Hdown]. induction fuel as [|fuel IH]; intros b Hk Hlt.
  - pose proof (Hbound b Hk). lia.
  - cbn [last_transaction_block].
    destruct (is_transaction_block b); [reflexivity|].
    unfold block_record.
    destruct (try_block_record env (prev_hash b)) as [b'|] eqn:E;
      [|reflexivity].
    cbn. apply IH; [exact (known_prev env b b' E)|].
    pose proof (Hdown b b' Hk E). lia.
Qed.

Lemma walk_to_transaction_block_finishes (env : Env) (bound : nat) :
  heights_go_down env bound ->
  forall fuel curr, (0 < fuel)%nat ->
    (forall c, curr = Some c -> known env c /\ height c < Z.of_nat fuel) ->
    finishes (walk_to_transaction_block fuel env curr) = true.
Proof.
  intros [Hbound Hdown]. induction fuel as [|fuel IH]; intros curr Hpos Hc;
    [lia|].
  cbn [walk_to_transaction_block]. destruct curr as [c|]; [|reflexivity].
  destruct (Hc c eq_refl) as [Hk Hlt].
  destruct (is_transaction_block c); [reflexivity|]. cbn [negb andb].
  destruct (Z.eqb_spec (height c) 0) as [Hz|Hz]; [reflexivity|]. cbn [negb].
  pose proof (Hbound c Hk) as Hb.
  apply IH; [lia|]. intros c' E. split; [exact (known_prev env c c' E)|].
  pose proof (Hdown c c' Hk E). lia.
Qed.

Lemma find_prev_block_known (env : Env) (rc : bytes32) (budget : nat) :
  forall prev_b found b' looked,
    (forall b, prev_b = Some b -> known env b) ->
    find_prev_block env rc budget prev_b = (found, Some b', looked) ->
    known env b'.
Proof.
  induction budget as [|budget IH]; intros prev_b found b' looked Hk H;
    cbn [find_prev_block] in H.
  - apply Hk. congruence.
  - destruct prev_b as [b|]; [|discriminate].
    destruct (N.eqb (reward_infusion_new_challenge b) rc).
    + apply Hk. congruence.
    + destruct (ends_with (finished_reward_slot_hashes b) rc).
      * apply (known_prev env b). congruence.
      * destruct (find_prev_block env rc budget
                    (try_block_record env (prev_hash b)))
          as [[found' prev_b'] looked'] eqn:E.
        apply (IH (try_block_record env (prev_hash b)) found' b' looked').
        -- intros b0 E0. exact (known_prev env b b0 E0).
        -- rewrite E. congruence.
Qed.

Lemma previous_block_known (env : Env) (request : DeclareProofOfSpace)
    (r : Resolved) (b : BlockRecord) :
  previous_block env request r = Go (Some b) -> known env b.
Proof.
  unfold previous_block. destruct (get_peak env) as [peak|] eqn:Hp;
    [|discriminate].
  intros H. apply bind_Go in H as (rc & _ & H).
  destruct (find_prev_block env (backtrack_empty_sub_slots env rc) 10
              (Some peak)) as [[found prev_b] looked] eqn:E.
  destruct found; [|discriminate].
  assert (prev_b = Some b) by congruence. subst prev_b.
  apply (find_prev_block_known env (backtrack_empty_sub_slots env rc) 10
           (Some peak) true b looked); [|exact E].
  intros b0 E0. left. congruence.
Qed.

Lemma prepare_finishes (env : Env) (fuel : nat)
    (request : DeclareProofOfSpace) :
  (0 < fuel)%nat -> heights_go_down env fuel ->
  finishes (prepare fuel env request) = true.
Proof.
  intros Hpos Hdown. unfold prepare.
  apply finishes_bind; [unfold resolve_signage_point; fin|intros r _].
  apply finishes_bind; [|intros bundle _].
  { unfold best_bundle. destruct (get_peak env) as [peak|] eqn:Hp;
      [|reflexivity].
    apply finishes_bind.
    - apply (last_transaction_block_finishes env fuel Hdown);
        [left; exact Hp|]. apply (proj1 Hdown). left. exact Hp.
    - intros tb _. fin. }
  apply finishes_bind; [|intros prev_b Hprev].
  { unfold previous_block, sp_rc_challenge. fin. }
  apply finishes_bind; [unfold finished_sub_slots_for; fin|intros fin_ss _].
  apply finishes_bind; [unfold targets; fin|intros tg _].
  apply finishes_bind; [unfold difficulty_and_iters; fin|intros di _].
  apply finishes_bind; [fin|intros required_iters _].
  apply finishes_bind; [fin|intros sp_iters _].
  apply finishes_bind; [fin|intros ip_iters _].
  apply finishes_bind; [|intros ts _; reflexivity].
  unfold block_timestamp.
  apply finishes_bind; [fin|intros now_ts _].
  apply finishes_bind; [|intros curr _; fin].
  apply (walk_to_transaction_block_finishes env fuel Hdown); [exact Hpos|].
  intros c ->. apply previous_block_known in Hprev.
  split; [exact Hprev|]. apply (proj1 Hdown), Hprev.
Qed.

(** On a node whose known blocks have heights from 0 to below [fuel],
    going down along [prev_hash], the handler comes to an end: [fuel]
    rounds are enough for each of its [while] loops. *)
Theorem declare_proof_of_space_ends (env : Env) (fuel : nat)
    (request : DeclareProofOfSpace) (st : CandidateStore) :
  (0 < fuel)%nat -> heights_go_down env fuel ->
  exists result, declare_proof_of_space fuel env request st = Some result.
Proof.
  intros Hpos Hdown. unfold declare_proof_of_space.
  destruct (sync_mode env); [eauto|].
  pose proof (prepare_finishes env fuel request Hpos Hdown) as H.
  destruct (prepare fuel env request); [eauto|eauto|discriminate].
Qed.

Lemma heights_go_down_example : heights_go_down (env_example 110) 40.
Proof.
  split.
  - intros b [Hp|(h & Hh)].
    + cbn in Hp. injection Hp as <-. cbn. lia.
    + cbn in Hh.
      destruct (N.leb 100 h && N.leb h 130)%bool eqn:E; [|discriminate].
      injection Hh as <-. apply andb_true_iff in E as [E1 E2].
      apply N.leb_le in E1. apply N.leb_le in E2.
      unfold block_example. cbn [height]. lia.
  - intros b b' [Hp|(h & Hh)] Hprev.
    + cbn in Hp. injection Hp as <-. cbn in Hprev. injection Hprev as <-.
      cbn. lia.
    + cbn in Hh.
      destruct (N.leb 100 h && N.leb h 130)%bool eqn:E; [|discriminate].
      injection Hh as <-. apply andb_true_iff in E as [E1 E2].
      apply N.leb_le in E1. apply N.leb_le in E2.
      unfold block_example in Hprev. cbn [prev_hash try_block_record env_example] in Hprev.
      destruct (N.leb 100 (h - 1) && N.leb (h - 1) 130)%bool; [|discriminate].
      injection Hprev as <-. unfold block_example. cbn [height]. lia.
Qed.

Lemma declare_proof_of_space_ends_witness :
  exists result,
    declare_proof_of_space 40 (env_example 110) request_example store_example
    = Some result.
Proof.
  apply (declare_proof_of_space_ends (env_example 110) 40 request_example
           store_example); [lia|exact heights_go_down_example].
Defined.

End CandidateBlocksLoops.

(** * Proofs of weight

    [request_proof_of_weight] of [full_node_api.py]. [pow_creation] is a
    dictionary from a tip to the [asyncio.Event] of the proof that is
    being made for it; an event is modelled by whether it is set. The
    handler is run alone here: no other handler runs while it awaits. *)

Module ProofOfWeight.
Local Open Scope Z_scope.

(** [make_msg(ProtocolMessageTypes.respond_proof_of_weight,
    RespondProofOfWeight(wp, tip))]. *)
Inductive Message :=
  | respond_proof_of_weight (wp : N) (tip : bytes32).

Record Store := mkStore {
  pow_creation : list (bytes32 * bool);
  serialized_wp_message_tip : option bytes32;
  serialized_wp_message : option Message
}.

Record Env := mkEnv {
  weight_proof_handler : bool;                          (* is not None *)
  contains_block : bytes32 -> bool;
  get_proof_of_weight : bytes32 -> Outcome (option N)
}.

(** The handler has ended, or it waits for an event that is not set. *)
Inductive Run :=
  | Ends (r : Outcome (option Message)) (st : Store)
  | Waits (st : Store).

(** [if len(tips) > 4: for i in range(0, 4): pow_creation.pop(tips[i])]. *)
Definition evict (d : list (bytes32 * bool)) : list (bytes32 * bool) :=
  if (4 <? length d)%nat then drop 4 d else d.

(** From [tips = list(self.full_node.pow_creation.keys())] on. *)
Definition reply_with (tip : bytes32) (wp : option N) (st : Store) : Run :=
  let st1 := mkStore (evict (pow_creation st)) (serialized_wp_message_tip st)
                     (serialized_wp_message st) in
  match wp with
  | None => Ends (Returned None) st1
  | Some w =>
      match serialized_wp_message_tip st1 with
      | Some t =>
          if (t =? tip)%N then Ends (Returned (serialized_wp_message st1)) st1
          else
            let message := respond_proof_of_weight w tip in
            Ends (Returned (Some message))
                 (mkStore (pow_creation st1) (Some tip) (Some message))
      | None =>
          let message := respond_proof_of_weight w tip in
          Ends (Returned (Some message))
               (mkStore (pow_creation st1) (Some tip) (Some message))
      end
  end.

Definition request_proof_of_weight (env : Env) (tip : bytes32) (st : Store)
    : Run :=
  if negb (weight_proof_handler env) then Ends (Returned None) st
  else if negb (contains_block env tip) then Ends (Returned None) st
  else
    match CoinRequests.dict_get tip (pow_creation st) with
    | Some is_set =>
        if is_set then
          match get_proof_of_weight env tip with
          | Raised e => Ends (Raised e) st
          | Returned wp => reply_with tip wp st
          end
        else Waits st
    | None =>
        let st1 :=
          mkStore (CoinRequests.dict_set tip false (pow_creation st))
                  (serialized_wp_message_tip st) (serialized_wp_message st) in
        match get_proof_of_weight env tip with
        | Raised e => Ends (Raised e) st1
        | Returned wp =>
            reply_with tip wp
              (mkStore (CoinRequests.dict_set tip true (pow_creation st1))
                       (serialized_wp_message_tip st1)
                       (serialized_wp_message st1))
        end
    end.

(** The message that is kept is one for the tip that is kept. *)
Definition message_for_tip (st : Store) : Prop :=
  forall t, serialized_wp_message_tip st = Some t ->
    exists w, serialized_wp_message st = Some (respond_proof_of_weight w t).

Lemma evict_length (d : list (bytes32 * bool)) :
  (length d <= 5 -> length (evict d) <= 4)%nat.
Proof.
  unfold evict. intros H. destruct (Nat.ltb_spec 4 (length d)); [|lia].
  rewrite length_drop. lia.
Qed.

Lemma dict_set_length {V : Type} (k : bytes32) (v : V)
    (d : list (bytes32 * V)) :
  (length (CoinRequests.dict_set k v d) <= S (length d))%nat /\
  (CoinRequests.dict_get k d <> None ->
   length (CoinRequests.dict_set k v d) = length d).
Proof.
  induction d as [|[k0 v0] d [IH1 IH2]]; cbn; [split; [lia|congruence]|].
  destruct (k0 =? k)%N; cbn; [split; [lia|reflexivity]|].
  split; [lia|]. intros H. rewrite (IH2 H). reflexivity.
Qed.

Lemma reply_with_spec (tip : bytes32) (wp : option N) (st : Store) :
  message_for_tip st ->
  exists r st',
    reply_with tip wp st = Ends (Returned r) st' /\
    pow_creation st' = evict (pow_creation st) /\
    message_for_tip st' /\
    (forall m, r = Some m -> exists w, m = respond_proof_of_weight w tip) /\
    (r = None -> wp = None).
Proof.
  intros I. unfold reply_with. destruct wp as [w|]; cbn.
  2:{ eexists _, _. split; [reflexivity|]. repeat split; try assumption.
      discriminate. }
  destruct (serialized_wp_message_tip st) as [t|] eqn:Et.
  - destruct (N.eqb_spec t tip) as [->|Hne].
    + destruct (I tip Et) as [w' Em].
      eexists _, _. split; [reflexivity|]. cbn. split; [reflexivity|].
      split; [intros t' Ht'; cbn in *; assert (t' = tip) by congruence;
              subst t'; exists w'; exact Em|].
      rewrite Em. split; [|discriminate].
      intros m Hm. exists w'. congruence.
    + eexists _, _. split; [reflexivity|]. cbn. split; [reflexivity|].
      split; [intros t' Ht'; cbn in *; exists w; congruence|].
      split; [|discriminate]. intros m Hm. exists w. congruence.
  - eexists _, _. split; [reflexivity|]. cbn. split; [reflexivity|].
    split; [intros t' Ht'; cbn in *; exists w; congruence|].
    split; [|discriminate]. intros m Hm. exists w. congruence.
Qed.

(** Whatever is kept from earlier requests, a proof of weight that the
    handler sends is for the tip of the request, and the message kept
    stays one for the tip kept. When the making of the proof raises
    nothing, a cache of at most four tips stays one. *)
Theorem proof_of_weight_for_tip (env : Env) (tip : bytes32) (st : Store)
    (r : Outcome (option Message)) (st' : Store) :
  message_for_tip st ->
  request_proof_of_weight env tip st = Ends r st' ->
  message_for_tip st' /\
  (forall m, r = Returned (Some m) ->
     exists w, m = respond_proof_of_weight w tip) /\
  ((length (pow_creation st) <= 4)%nat ->
   (forall e, get_proof_of_weight env tip <> Raised e) ->
   (length (pow_creation st') <= 4)%nat).
Proof.
  intros I. unfold request_proof_of_weight.
  destruct (negb (weight_proof_handler env)).
  { intros H. assert (r = Returned None /\ st' = st) as [-> ->]
      by (split; congruence).
    repeat split; [exact I|discriminate|auto]. }
  destruct (negb (contains_block env tip)).
  { intros H. assert (r = Returned None /\ st' = st) as [-> ->]
      by (split; congruence).
    repeat split; [exact I|discriminate|auto]. }
  destruct (CoinRequests.dict_get tip (pow_creation st)) as [is_set|] eqn:Eg.
  - destruct is_set; [|discriminate].
    destruct (get_proof_of_weight env tip) as [wp|e] eqn:Ew.
    + destruct (reply_with_spec tip wp st I) as (r0 & st0 & E & Hc & I' & Hm & _).
      rewrite E. intros H.
      assert (r = Returned r0 /\ st' = st0) as [-> ->] by (split; congruence).
      split; [exact I'|]. split.
      * intros m Hr. apply Hm. congruence.
      * intros Hlen _. rewrite Hc. apply evict_length. lia.
    + intros H. assert (r = Raised e /\ st' = st) as [-> ->]
        by (split; congruence).
      repeat split; [exact I|discriminate|auto].
  - destruct (get_proof_of_weight env tip) as [wp|e] eqn:Ew.
    + set (st1 := mkStore _ _ _).
      assert (I1 : message_for_tip st1) by exact I.
      destruct (reply_with_spec tip wp st1 I1)
        as (r0 & st0 & E & Hc & I' & Hm & _).
      rewrite E. intros H.
      assert (r = Returned r0 /\ st' = st0) as [-> ->] by (split; congruence).
      split; [exact I'|]. split.
      * intros m Hr. apply Hm. congruence.
      * intros Hlen _. rewrite Hc. apply evict_length. subst st1. cbn.
        pose proof (dict_set_length tip true
                      (CoinRequests.dict_set tip false (pow_creation st)))
          as [L1 _].
        pose proof (dict_set_length tip false (pow_creation st)) as [L2 _].
        assert (L3 : length (CoinRequests.dict_set tip true
                       (CoinRequests.dict_set tip false (pow_creation st)))
                     = length (CoinRequests.dict_set tip false (pow_creation st))).
        { apply dict_set_length. rewrite CoinRequests.dict_get_set.
          rewrite N.eqb_refl. discriminate. }
        lia.
    + intros H.
      assert (r = Raised e) by congruence. subst r.
      split; [|split].
      * assert (st' = mkStore (CoinRequests.dict_set tip false (pow_creation st))
                        (serialized_wp_message_tip st) (serialized_wp_message st))
          by congruence. subst st'. exact I.
      * discriminate.
      * intros _ Hno. exfalso. exact (Hno e eq_refl).
Qed.

(** When the making of a proof for a new tip raises (an error, or the
    cancellation of the handler), the event of the tip stays in the
    cache and is never set: the next request for this tip waits and does
    not get to make the proof again. *)
Theorem failed_creation_blocks_tip (env env' : Env) (tip : bytes32)
    (st : Store) (e : exn) :
  weight_proof_handler env = true -> contains_block env tip = true ->
  weight_proof_handler env' = true -> contains_block env' tip = true ->
  CoinRequests.dict_get tip (pow_creation st) = None ->
  get_proof_of_weight env tip = Raised e ->
  exists st1,
    request_proof_of_weight env tip st = Ends (Raised e) st1 /\
    CoinRequests.dict_get tip (pow_creation st1) = Some false /\
    request_proof_of_weight env' tip st1 = Waits st1.
Proof.
  intros H1 H2 H1' H2' Hg He. unfold request_proof_of_weight.
  rewrite H1, H2, Hg, He. cbn [negb].
  eexists. split; [reflexivity|]. cbn [pow_creation].
  assert (E : CoinRequests.dict_get tip
                (CoinRequests.dict_set tip false (pow_creation st))
              = Some false)
    by (rewrite CoinRequests.dict_get_set, N.eqb_refl; reflexivity).
  split; [exact E|]. rewrite H1', H2', E. reflexivity.
Qed.

Definition env_example (outcome : Outcome (option N)) : Env :=
  mkEnv true (fun _ => true) (fun _ => outcome).

Lemma proof_of_weight_for_tip_witness :
  message_for_tip (mkStore [(9%N, true)] (Some 9%N)
                           (Some (respond_proof_of_weight 1 9))) /\
  (forall m, Returned (Some (respond_proof_of_weight 1 9)) = Returned (Some m) ->
     exists w, m = respond_proof_of_weight w 9) /\
  ((length (pow_creation (mkStore [] (Some 9%N)
                            (Some (respond_proof_of_weight 1 9)))) <= 4)%nat ->
   (forall e, get_proof_of_weight (env_example (Returned (Some 2%N))) 9%N
              <> Raised e) ->
   (length (pow_creation (mkStore [(9%N, true)] (Some 9%N)
                            (Some (respond_proof_of_weight 1 9)))) <= 4)%nat).
Proof.
  apply (proof_of_weight_for_tip (env_example (Returned (Some 2%N))) 9%N
           (mkStore [] (Some 9%N) (Some (respond_proof_of_weight 1 9)))).
  - intros t Ht. exists 1%N. cbn in *. congruence.
  - reflexivity.
Defined.

Lemma failed_creation_blocks_tip_witness :
  exists st1,
    request_proof_of_weight (env_example (Raised CancelledError)) 9%N
      (mkStore [] None None) = Ends (Raised CancelledError) st1 /\
    CoinRequests.dict_get 9%N (pow_creation st1) = Some false /\
    request_proof_of_weight (env_example (Returned (Some 2%N))) 9%N st1
    = Waits st1.
Proof.
  apply (failed_creation_blocks_tip (env_example (Raised CancelledError))
           (env_example (Returned (Some 2%N))) 9%N (mkStore [] None None)
           CancelledError); reflexivity.
Defined.

End ProofOfWeight.
